(** * FlowDoc: static extraction of flow graphs from decorated Python code

    A shallow embedding of [flowdoc/parser.py]: the call-graph visitor
    ([FlowCallVisitor]), the cross-module registry ([StepRegistry]) and the
    parser ([FlowParser]), followed by the properties of the extraction that
    the specification states.

    Python objects are modelled as follows.
    - [ast] nodes: the inductive type [node], one constructor per node
      class the parser distinguishes and [Other] for every remaining class.
    - [dict]: an association list in insertion order with unique keys
      ([dict_set] overwrites in place, as Python does).
    - [set[str]]: [gset string].
    - [warnings.warn]: a log of messages returned next to the result.
    - a raised exception: the left injection of a sum. *)

From Stdlib Require Import ZArith Ascii.
From stdpp Require Import gmap strings list sorting pretty.

(** ** Syntax trees *)

(** The values an [ast.Constant] can hold. Floating point and complex
    literals are kept as their source text. *)
Inductive constant : Type :=
| CStr (s : string)
| CBytes (s : string)
| CInt (z : Z)
| CFloat (repr : string)
| CBool (b : bool)
| CNone
| CEllipsis.

(** [ast] nodes. Fields are listed in the order of the class's [_fields],
    which is the order [generic_visit] and [iter_child_nodes] follow.
    - [Call]: a keyword is the pair of its [arg] ([None] for [**kwargs])
      and its [value].
    - [FunctionDef]: [is_async] tells [ast.AsyncFunctionDef] from
      [ast.FunctionDef]; [args] holds the expressions below the
      [arguments] node (annotations and defaults).
    - [ClassDef]: [bases] holds the base classes and class keywords.
    - [Other]: a node of any other class with its child nodes. *)
#[warnings="-register-all"]
Inductive node : Type :=
| Name (id : string)
| Attribute (value : node) (attr : string)
| Constant (value : constant)
| Call (func : node) (args : list node)
       (keywords : list (option string * node)) (lineno : nat)
| Await (value : node)
| Expr (value : node)
| If (test : node) (body orelse : list node)
| FunctionDef (is_async : bool) (name : string) (args body : list node)
              (decorator_list : list node) (returns : option node)
| ClassDef (name : string) (bases body decorator_list : list node)
| Other (children : list node).

(** An [ast.Module] is identified with its [body]. *)
Definition module : Type := list node.

(** Induction over [node] with the hypotheses for the nested lists. *)
Section node_induction.
Variable P : node → Prop.
Hypothesis HName : ∀ id, P (Name id).
Hypothesis HAttribute : ∀ value attr, P value → P (Attribute value attr).
Hypothesis HConstant : ∀ c, P (Constant c).
Hypothesis HCall : ∀ func args keywords lineno,
  P func → Forall P args → Forall (λ kw, P kw.2) keywords →
  P (Call func args keywords lineno).
Hypothesis HAwait : ∀ value, P value → P (Await value).
Hypothesis HExpr : ∀ value, P value → P (Expr value).
Hypothesis HIf : ∀ test body orelse,
  P test → Forall P body → Forall P orelse → P (If test body orelse).
Hypothesis HFunctionDef : ∀ is_async name args body decorator_list returns,
  Forall P args → Forall P body → Forall P decorator_list →
  (∀ r, returns = Some r → P r) →
  P (FunctionDef is_async name args body decorator_list returns).
Hypothesis HClassDef : ∀ name bases body decorator_list,
  Forall P bases → Forall P body → Forall P decorator_list →
  P (ClassDef name bases body decorator_list).
Hypothesis HOther : ∀ children, Forall P children → P (Other children).

Fixpoint node_nested_ind (n : node) : P n :=
  let each := fix each (l : list node) : Forall P l :=
    match l with
    | [] => Forall_nil_2 P
    | c :: l' => Forall_cons_2 P c l' (node_nested_ind c) (each l')
    end in
  let each_kw := fix each_kw (l : list (option string * node))
      : Forall (λ kw, P kw.2) l :=
    match l with
    | [] => Forall_nil_2 _
    | kw :: l' =>
        Forall_cons_2 (λ kw, P kw.2) kw l' (node_nested_ind kw.2) (each_kw l')
    end in
  match n with
  | Name id => HName id
  | Attribute value attr => HAttribute value attr (node_nested_ind value)
  | Constant c => HConstant c
  | Call func args keywords lineno =>
      HCall func args keywords lineno
        (node_nested_ind func) (each args) (each_kw keywords)
  | Await value => HAwait value (node_nested_ind value)
  | Expr value => HExpr value (node_nested_ind value)
  | If test body orelse =>
      HIf test body orelse (node_nested_ind test) (each body) (each orelse)
  | FunctionDef is_async name args body decorator_list returns =>
      HFunctionDef is_async name args body decorator_list returns
        (each args) (each body) (each decorator_list)
        (match returns as o return ∀ r, o = Some r → P r with
         | Some r0 => λ r E,
             eq_ind r0 P (node_nested_ind r0) r (Some_inj r0 r E)
         | None => λ r E, match None_ne_Some r E with end
         end)
  | ClassDef name bases body decorator_list =>
      HClassDef name bases body decorator_list
        (each bases) (each body) (each decorator_list)
  | Other children => HOther children (each children)
  end.
End node_induction.

(** ** Extracted data: [flowdoc.models] *)

(** Modelled from the spec: [flowdoc/models.py] is not among the sources;
    [Edge] has the fields its constructor calls in the parser name
    ([line_number] is optional and absent when not given). *)
Record Edge : Type := mkEdge {
  from_step : string;
  to_step : string;
  branch : option string;
  line_number : option nat
}.

(** Modelled from the spec: the step record of [flowdoc/models.py], with
    the fields the parser's constructor call names and the [calls]
    attribute the parser assigns afterwards (initially empty). *)
Record StepData : Type := mkStepData {
  step_name : string;
  function_name : string;
  step_description : string;
  docstring : option string;
  calls : list Edge
}.

(** Modelled from the spec: the flow record of [flowdoc/models.py]. *)
Record FlowData : Type := mkFlowData {
  flow_name : string;
  flow_type : string;
  steps : list StepData;
  edges : list Edge;
  flow_description : string
}.

(** ** [FlowCallVisitor] *)

(** The mutable fields of the visitor. [decorated_steps] never changes
    after construction and is passed alongside. *)
Record FlowCallVisitor : Type := mkVisitor {
  calls_to_steps : list Edge;
  current_branch : option string
}.

Definition set_current_branch (b : option string) (v : FlowCallVisitor)
    : FlowCallVisitor :=
  {| calls_to_steps := calls_to_steps v; current_branch := b |}.

(** The [target_name] computed at the head of [visit_Call]: the attribute
    of a method call on [self], or the identifier of a direct call. *)
Definition call_target (func : node) : option string :=
  match func with
  | Attribute (Name id) attr => if decide (id = "self") then Some attr else None
  | Name id => Some id
  | _ => None
  end.

(** Truth value of a Python [str]. *)
Definition truthy (s : string) : bool := bool_decide (s ≠ "").

(** [visit_Call] up to its closing [generic_visit]. *)
Definition record_call (decorated_steps : gset string) (func : node)
    (lineno : nat) (v : FlowCallVisitor) : FlowCallVisitor :=
  match call_target func with
  | Some target_name =>
      if truthy target_name && bool_decide (target_name ∈ decorated_steps)
      then {| calls_to_steps :=
                calls_to_steps v ++
                [mkEdge "" target_name (current_branch v) (Some lineno)];
              current_branch := current_branch v |}
      else v
  | None => v
  end.

(** [NodeVisitor.visit]: [visit_Call], [visit_Await] and [visit_If] for
    their classes, [generic_visit] for every other class. *)
Fixpoint visit (decorated_steps : gset string) (n : node)
    (v : FlowCallVisitor) {struct n} : FlowCallVisitor :=
  let visit_each := λ (l : list node) (v : FlowCallVisitor),
    fold_left (λ v child, visit decorated_steps child v) l v in
  match n with
  | Name _ => v
  | Constant _ => v
  | Attribute value _ => visit decorated_steps value v
  | Call func args keywords lineno =>
      let v := record_call decorated_steps func lineno v in
      let v := visit decorated_steps func v in
      let v := visit_each args v in
      fold_left (λ v kw, visit decorated_steps kw.2 v) keywords v
  | Await value => visit decorated_steps value v
  | Expr value => visit decorated_steps value v
  | If test body orelse =>
      let old_branch := current_branch v in
      let v := visit_each body (set_current_branch (Some "if") v) in
      let v :=
        match orelse with
        | [] => v
        | _ :: _ => visit_each orelse (set_current_branch (Some "else") v)
        end in
      set_current_branch old_branch v
  | FunctionDef _ _ args body decorator_list returns =>
      let v := visit_each args v in
      let v := visit_each body v in
      let v := visit_each decorator_list v in
      match returns with
      | Some r => visit decorated_steps r v
      | None => v
      end
  | ClassDef _ bases body decorator_list =>
      let v := visit_each bases v in
      let v := visit_each body v in
      visit_each decorator_list v
  | Other children => visit_each children v
  end.

(** [FlowParser._find_step_calls]. *)
Definition _find_step_calls (function_node : node)
    (decorated_steps : gset string) : list Edge :=
  calls_to_steps (visit decorated_steps function_node (mkVisitor [] None)).

(** ** Python dictionaries

    Keys are kept in the order of their first insertion; assigning to a
    key that is present replaces its value where it stands. *)
Section dict.
Context {V : Type}.

Fixpoint dict_get (k : string) (d : list (string * V)) : option V :=
  match d with
  | [] => None
  | (k', v) :: d' => if decide (k' = k) then Some v else dict_get k d'
  end.

Fixpoint dict_set (k : string) (v : V) (d : list (string * V))
    : list (string * V) :=
  match d with
  | [] => [(k, v)]
  | (k', v') :: d' =>
      if decide (k' = k) then (k', v) :: d' else (k', v') :: dict_set k v d'
  end.

(** [k in d] *)
Definition dict_mem (k : string) (d : list (string * V)) : bool :=
  bool_decide (k ∈ d.*1).

(** [set(d.keys())] *)
Definition key_set (d : list (string * V)) : gset string :=
  list_to_set d.*1.
End dict.

(** ** Diagnostics

    A computation that may call [warnings.warn] returns its value with the
    messages it emitted, oldest first. *)
Definition Warn (A : Type) : Type := A * list string.

Definition wret {A : Type} (a : A) : Warn A := (a, []).

Definition wbind {A B : Type} (m : Warn A) (k : A → Warn B) : Warn B :=
  let r := k m.1 in (r.1, m.2 ++ r.2).

Definition warn (message : string) : Warn unit := (tt, [message]).

Notation "x <~ m ;; k" := (wbind m (λ x, k))
  (at level 100, m at level 99, k at level 200, right associativity,
   format "'[v' x  <~  m  ;;  '/' k ']'").

(** ** [FlowParser]: recognising decorators *)

Definition FLOW_DECORATOR_NAMES : gset string :=
  {[ "flow"; "business_flow" ]}.
Definition STEP_DECORATOR_NAMES : gset string :=
  {[ "step"; "business_step"; "flow_step" ]}.

Definition _is_step_decorator (decorator : node) : bool :=
  match decorator with
  | Call (Name id) _ _ _ => bool_decide (id ∈ STEP_DECORATOR_NAMES)
  | Call (Attribute _ attr) _ _ _ => bool_decide (attr ∈ STEP_DECORATOR_NAMES)
  | Name id => bool_decide (id ∈ STEP_DECORATOR_NAMES)
  | _ => false
  end.

Definition _is_flow_decorator (decorator : node) : bool :=
  match decorator with
  | Call (Name id) _ _ _ => bool_decide (id ∈ FLOW_DECORATOR_NAMES)
  | Call (Attribute _ attr) _ _ _ => bool_decide (attr ∈ FLOW_DECORATOR_NAMES)
  | Name id => bool_decide (id ∈ FLOW_DECORATOR_NAMES)
  | _ => false
  end.

(** [isinstance(node, (ast.FunctionDef, ast.AsyncFunctionDef))] *)
Definition is_function_def (n : node) : bool :=
  match n with FunctionDef _ _ _ _ _ _ => true | _ => false end.

(** [isinstance(node, ast.ClassDef)] *)
Definition is_class_def (n : node) : bool :=
  match n with ClassDef _ _ _ _ => true | _ => false end.

(** The attributes [name], [decorator_list] and [body] of a function or
    class definition. The parser reads them only after an [isinstance]
    test for those classes; other classes get an empty value. *)
Definition node_name (n : node) : string :=
  match n with
  | FunctionDef _ name _ _ _ _ => name
  | ClassDef name _ _ _ => name
  | _ => ""
  end.

Definition node_decorator_list (n : node) : list node :=
  match n with
  | FunctionDef _ _ _ _ decorator_list _ => decorator_list
  | ClassDef _ _ _ decorator_list => decorator_list
  | _ => []
  end.

Definition node_body (n : node) : list node :=
  match n with
  | FunctionDef _ _ _ body _ _ => body
  | ClassDef _ _ body _ => body
  | _ => []
  end.

Definition _has_step_decorator (n : node) : bool :=
  existsb _is_step_decorator (node_decorator_list n).

Definition _has_flow_decorator (n : node) : bool :=
  existsb _is_flow_decorator (node_decorator_list n).

(** ** [ast.walk] *)

(** [ast.iter_child_nodes]. A keyword node has its value as only child
    and is passed over. *)
Definition iter_child_nodes (n : node) : list node :=
  match n with
  | Name _ => []
  | Constant _ => []
  | Attribute value _ => [value]
  | Call func args keywords _ => func :: args ++ keywords.*2
  | Await value => [value]
  | Expr value => [value]
  | If test body orelse => test :: body ++ orelse
  | FunctionDef _ _ args body decorator_list returns =>
      args ++ body ++ decorator_list ++ option_list returns
  | ClassDef _ bases body decorator_list => bases ++ body ++ decorator_list
  | Other children => children
  end.

(** Number of nodes of a tree. *)
Fixpoint node_size (n : node) : nat :=
  S match n with
    | Name _ => 0
    | Constant _ => 0
    | Attribute value _ => node_size value
    | Call func args keywords _ =>
        node_size func +
        (sum_list_with node_size args +
         sum_list_with (λ kw, node_size kw.2) keywords)
    | Await value => node_size value
    | Expr value => node_size value
    | If test body orelse =>
        node_size test +
        (sum_list_with node_size body + sum_list_with node_size orelse)
    | FunctionDef _ _ args body decorator_list returns =>
        sum_list_with node_size args +
        (sum_list_with node_size body +
         (sum_list_with node_size decorator_list +
          match returns with Some r => node_size r | None => 0 end))
    | ClassDef _ bases body decorator_list =>
        sum_list_with node_size bases +
        (sum_list_with node_size body +
         sum_list_with node_size decorator_list)
    | Other children => sum_list_with node_size children
    end.

Definition nodes_size (l : list node) : nat := sum_list_with node_size l.

(** The loop of [ast.walk]: pop the queue's head, push its children at the
    tail, yield it. [fuel] bounds the iterations. *)
Fixpoint walk_queue (fuel : nat) (todo : list node) : list node :=
  match fuel, todo with
  | S fuel', n :: todo' => n :: walk_queue fuel' (todo' ++ iter_child_nodes n)
  | _, _ => []
  end.

(** [ast.walk(tree)] below the module node itself; every node is yielded
    once, so the number of nodes is fuel enough ([walk_queue_fuel]). *)
Definition walk (tree : module) : list node :=
  walk_queue (nodes_size tree) tree.

(** ** [FlowParser]: collecting steps *)

Fixpoint _collect_all_steps_loop (nodes : list node)
    (steps : list (string * node)) : list (string * node) :=
  match nodes with
  | [] => steps
  | n :: nodes' =>
      _collect_all_steps_loop nodes'
        (if is_function_def n && _has_step_decorator n
         then dict_set (node_name n) n steps
         else steps)
  end.

Definition _collect_all_steps (tree : module) : list (string * node) :=
  _collect_all_steps_loop (walk tree) [].

(** The message of the warning in [_extract_decorator_args]. *)
Definition dynamic_argument_warning (arg : string) : string :=
  "Skipping dynamic decorator argument '" +:+ arg +:+
  "' - only literal strings are supported".

Fixpoint _extract_decorator_args_loop (keywords : list (option string * node))
    (args : list (string * string)) : Warn (list (string * string)) :=
  match keywords with
  | [] => wret args
  | (None, _) :: keywords' => _extract_decorator_args_loop keywords' args
  | (Some arg, Constant (CStr s)) :: keywords' =>
      _extract_decorator_args_loop keywords' (dict_set arg s args)
  | (Some arg, Constant _) :: keywords' =>
      _extract_decorator_args_loop keywords' args
  | (Some arg, _) :: keywords' =>
      _ <~ warn (dynamic_argument_warning arg) ;;
      _extract_decorator_args_loop keywords' args
  end.

Definition _extract_decorator_args (decorator : node)
    : Warn (list (string * string)) :=
  match decorator with
  | Call _ _ keywords _ => _extract_decorator_args_loop keywords []
  | _ => wret []
  end.

(** [ast.get_docstring]: the text of a leading string literal, before
    [inspect.cleandoc] re-indents it. *)
Definition get_docstring (n : node) : option string :=
  match node_body n with
  | Expr (Constant (CStr s)) :: _ => Some s
  | _ => None
  end.

(** [args.get(key, fallback)] *)
Definition dict_get_default (key fallback : string)
    (args : list (string * string)) : string :=
  default fallback (dict_get key args).

Definition _extract_step_metadata (func_node : node) : Warn StepData :=
  match List.find _is_step_decorator (node_decorator_list func_node) with
  | Some decorator =>
      args <~ _extract_decorator_args decorator ;;
      wret (mkStepData
              (dict_get_default "name" (node_name func_node) args)
              (node_name func_node)
              (dict_get_default "description" "" args)
              (get_docstring func_node) [])
  | None =>
      wret (mkStepData (node_name func_node) (node_name func_node) ""
              (get_docstring func_node) [])
  end.

(** ** [FlowParser]: assembling flows *)

(** [step_data.calls = connections] *)
Definition set_calls (connections : list Edge) (s : StepData) : StepData :=
  {| step_name := step_name s; function_name := function_name s;
     step_description := step_description s; docstring := docstring s;
     calls := connections |}.

(** The loop shared by [_extract_class_flow] (over the items of
    [decorated_methods]) and [_create_function_flow] (over
    [function_steps], each with its own name): extract the step, find
    its calls, add one edge per call. *)
Fixpoint _assemble (callable_steps : gset string)
    (items : list (string * node))
    (steps : list StepData) (edges : list Edge)
    : Warn (list StepData * list Edge) :=
  match items with
  | [] => wret (steps, edges)
  | (method_name, method_node) :: items' =>
      step_data <~ _extract_step_metadata method_node ;;
      let connections := _find_step_calls method_node callable_steps in
      _assemble callable_steps items'
        (steps ++ [set_calls connections step_data])
        (edges ++
         ((λ call, mkEdge method_name (to_step call) (branch call) None)
            <$> connections))
  end.

Definition _extract_class_flow {V : Type} (class_node : node)
    (all_steps : list (string * V)) : Warn (option FlowData) :=
  if negb (_has_flow_decorator class_node) then wret None else
  args <~ match List.find _is_flow_decorator (node_decorator_list class_node) with
          | Some decorator => _extract_decorator_args decorator
          | None => wret []
          end ;;
  let flow_name := dict_get_default "name" (node_name class_node) args in
  let flow_description := dict_get_default "description" "" args in
  let decorated_methods := _collect_all_steps_loop (node_body class_node) [] in
  let callable_steps := key_set all_steps in
  r <~ _assemble callable_steps decorated_methods [] [] ;;
  wret (Some (mkFlowData flow_name "class" r.1 r.2 flow_description)).

Definition _extract_function_steps {V : Type} (tree : module)
    (all_steps : list (string * V)) : list node :=
  List.filter (λ n, is_function_def n && dict_mem (node_name n) all_steps) tree.

Definition _create_function_flow {V : Type} (function_steps : list node)
    (all_steps : list (string * V)) : Warn FlowData :=
  let callable_steps := key_set all_steps in
  r <~ _assemble callable_steps ((λ f, (node_name f, f)) <$> function_steps)
         [] [] ;;
  wret (mkFlowData "Function Flow" "function" r.1 r.2
          "Flow derived from standalone function").

(** The loop over [tree.body] that extracts the class-based flows. *)
Fixpoint _class_flows {V : Type} (body : list node)
    (all_steps : list (string * V)) : Warn (list FlowData) :=
  match body with
  | [] => wret []
  | n :: body' =>
      if is_class_def n then
        flow_data <~ _extract_class_flow n all_steps ;;
        flows <~ _class_flows body' all_steps ;;
        wret (option_list flow_data ++ flows)
      else _class_flows body' all_steps
  end.

(** The implicit flow of the standalone functions, when there are any. *)
Definition _function_flow {V W : Type} (tree : module)
    (local_steps : list (string * V)) (all_steps : list (string * W))
    : Warn (list FlowData) :=
  match _extract_function_steps tree local_steps with
  | [] => wret []
  | function_steps =>
      flow_data <~ _create_function_flow function_steps all_steps ;;
      wret [flow_data]
  end.

(** The exceptions that the code raises or lets pass, with their text. *)
Inductive exception : Type :=
| SyntaxError (message : string)
| ValueError (message : string)
| UnicodeDecodeError (message : string)
| MemoryError (message : string)
| RecursionError (message : string)
| OSError (message : string)
| FileNotFoundError (message : string)
| PermissionError (message : string).

(** What reading a file and [ast.parse] make of it: a module; a
    [SyntaxError] of [ast.parse], given by its [msg], by whether it
    carries the file name that [ast.parse] was called with, and by its
    [lineno]; or another exception, raised by reading the file (a
    [UnicodeDecodeError], an [OSError]) or by [ast.parse] (a [ValueError]
    for a text that holds a NUL character, a [MemoryError], a
    [RecursionError]). *)
Inductive source : Type :=
| Parses (tree : module)
| Malformed (msg : string) (names_file : bool) (lineno : option nat)
| Fails (e : exception).

(** A file handed to the parser: its path as text, the components of the
    path relative to the source root (directories, then the file's own
    name), and its content. *)
Record source_file : Type := mkFile {
  file_path : string;
  relative_parent : list string;
  relative_name : string;
  content : source
}.

(** The part of a file name after its last slash. *)
Fixpoint after_last_slash (filename : string) : option string :=
  match filename with
  | EmptyString => None
  | String c filename' =>
      match after_last_slash filename' with
      | Some name => Some name
      | None => if decide (c = "/"%char) then Some filename' else None
      end
  end.

Definition basename (filename : string) : string :=
  default filename (after_last_slash filename).

(** [str(e)] of a [SyntaxError]: the message, followed by the last
    component of the file name and by the line, as far as the error
    carries them. *)
Definition syntax_error_text (msg : string) (filename : option string)
    (lineno : option nat) : string :=
  match filename, lineno with
  | Some name, Some line =>
      msg +:+ " (" +:+ basename name +:+ ", line " +:+ pretty line +:+ ")"
  | Some name, None => msg +:+ " (" +:+ basename name +:+ ")"
  | None, Some line => msg +:+ " (line " +:+ pretty line +:+ ")"
  | None, None => msg
  end.

(** [str(e)] of the [SyntaxError] that [ast.parse] raises when it is
    called with the file name [filename]. *)
Definition parse_error_text (msg : string) (names_file : bool)
    (lineno : option nat) (filename : string) : string :=
  syntax_error_text msg (if names_file then Some filename else None) lineno.

Definition cannot_parse_message (path error : string) : string :=
  "Cannot parse " +:+ path +:+ ": " +:+ error.

(** [parse_file] calls [ast.parse] without a file name, which then is
    [<unknown>]; what reading the file raises, and what [ast.parse]
    raises besides [SyntaxError], passes to the caller. *)
Definition parse_file (file : source_file) : exception + Warn (list FlowData) :=
  match content file with
  | Fails e => inl e
  | Malformed msg names_file lineno =>
      inl (SyntaxError
             (cannot_parse_message (file_path file)
                (parse_error_text msg names_file lineno "<unknown>")))
  | Parses tree =>
      inr (let all_steps := _collect_all_steps tree in
           class_flows <~ _class_flows tree all_steps ;;
           function_flow <~ _function_flow tree all_steps all_steps ;;
           wret (class_flows ++ function_flow))
  end.

(** ** [StepRegistry] *)

Record StepRegistry : Type := mkRegistry {
  _steps : list (string * StepData);
  _module_steps : list (string * list string)
}.

Definition empty_registry : StepRegistry := mkRegistry [] [].

Definition register (module_path : string) (step : StepData)
    (r : StepRegistry) : StepRegistry :=
  let qualified_name := module_path +:+ "." +:+ function_name step in
  {| _steps := dict_set qualified_name step (_steps r);
     _module_steps :=
       dict_set module_path
         (default [] (dict_get module_path (_module_steps r)) ++ [qualified_name])
         (_module_steps r) |}.

(** [s.endswith(suffix)]: some tail of [s] is [suffix]. *)
Fixpoint ends_with (s suffix : string) : bool :=
  bool_decide (s = suffix) ||
  match s with
  | EmptyString => false
  | String _ s' => ends_with s' suffix
  end.

(** The loop of [resolve] over [self._steps.items()]. *)
Fixpoint _resolve_suffix (call_name : string) (items : list (string * StepData))
    : option StepData :=
  match items with
  | [] => None
  | (qname, step) :: items' =>
      if ends_with qname ("." +:+ call_name) then Some step
      else _resolve_suffix call_name items'
  end.

Definition resolve (r : StepRegistry) (from_module call_name : string)
    : option StepData :=
  match dict_get call_name (_steps r) with
  | Some step => Some step
  | None =>
      let qualified := from_module +:+ "." +:+ call_name in
      match dict_get qualified (_steps r) with
      | Some step => Some step
      | None => _resolve_suffix call_name (_steps r)
      end
  end.

Definition all_steps (r : StepRegistry) : list StepData := (_steps r).*2.

(** ** [FlowParser]: a directory *)

(** [".".join(parts)] *)
Fixpoint join_dots (parts : list string) : string :=
  match parts with
  | [] => ""
  | [p] => p
  | p :: parts' => p +:+ "." +:+ join_dots parts'
  end.

Definition _path_to_module (file : source_file) : string :=
  let name := relative_name file in
  let name :=
    if ends_with name ".py"
    then String.substring 0 (String.length name - 3) name
    else name in
  join_dots (if decide (name = "__init__") then relative_parent file
             else relative_parent file ++ [name]).

Fixpoint _register_steps (module_path : string) (func_nodes : list node)
    (registry : StepRegistry) : Warn StepRegistry :=
  match func_nodes with
  | [] => wret registry
  | func_node :: func_nodes' =>
      step_data <~ _extract_step_metadata func_node ;;
      _register_steps module_path func_nodes' (register module_path step_data registry)
  end.

(** First pass of [parse_directory]. The file is read outside the [try],
    and the [except] clause catches [SyntaxError] only: any other
    exception ends the run, after the warnings emitted so far. *)
Fixpoint _first_pass (files : list source_file) (registry : StepRegistry)
    (file_asts : list (string * module))
    : Warn (exception + StepRegistry * list (string * module)) :=
  match files with
  | [] => wret (inr (registry, file_asts))
  | file :: files' =>
      match content file with
      | Fails e => wret (inl e)
      | Malformed msg names_file lineno =>
          _ <~ warn (cannot_parse_message (file_path file)
                       (parse_error_text msg names_file lineno
                          (file_path file))) ;;
          _first_pass files' registry file_asts
      | Parses tree =>
          let file_asts := dict_set (file_path file) tree file_asts in
          let module_path := _path_to_module file in
          let steps := _collect_all_steps tree in
          registry <~ _register_steps module_path steps.*2 registry ;;
          _first_pass files' registry file_asts
      end
  end.

(** The loop that adds the registry's function names to the local steps. *)
Fixpoint _combine_steps (registered : list StepData)
    (combined_steps : list (string * option node))
    : list (string * option node) :=
  match registered with
  | [] => combined_steps
  | s :: registered' =>
      _combine_steps registered'
        (if dict_mem (function_name s) combined_steps then combined_steps
         else dict_set (function_name s) None combined_steps)
  end.

Definition _parse_tree_with_registry (tree : module) (registry : StepRegistry)
    : Warn (list FlowData) :=
  let local_steps := _collect_all_steps tree in
  let combined_steps :=
    _combine_steps (all_steps registry) (prod_map id Some <$> local_steps) in
  class_flows <~ _class_flows tree combined_steps ;;
  function_flow <~ _function_flow tree local_steps combined_steps ;;
  wret (class_flows ++ function_flow).

(** Second pass of [parse_directory]. *)
Fixpoint _second_pass (file_asts : list (string * module))
    (registry : StepRegistry) : Warn (list FlowData) :=
  match file_asts with
  | [] => wret []
  | (_, tree) :: file_asts' =>
      file_flows <~ _parse_tree_with_registry tree registry ;;
      flows <~ _second_pass file_asts' registry ;;
      wret (file_flows ++ flows)
  end.

(** [parse_directory] on the files that discovery returned. *)
Definition parse_directory (files : list source_file)
    : Warn (exception + list FlowData) :=
  r <~ _first_pass files empty_registry [] ;;
  match r with
  | inl e => wret (inl e)
  | inr (registry, file_asts) =>
      flows <~ _second_pass file_asts registry ;;
      wret (inr flows)
  end.

(** ** The notions of the specification *)

(** *** Call sites and their enclosing conditionals *)

(** The arms of a conditional statement: the specification's [then] is
    the [body] of an [ast.If], its [otherwise] the [orelse]. *)
Inductive arm : Type := FirstArm | SecondArm.

(** The label the parser gives an arm: ["if"] stands for the
    specification's [then], ["else"] for its [otherwise]. *)
Definition arm_label (a : arm) : string :=
  match a with
  | FirstArm => "if"
  | SecondArm => "else"
  end.

(** A call expression that has a candidate target, with its line and the
    arms of the conditionals around it, outermost first. *)
Record call_site : Type := mkSite {
  site_target : string;
  site_lineno : nat;
  site_arms : list arm
}.

(** The label of the innermost enclosing arm; absent without one. *)
Definition innermost_label (enclosing : list arm) : option string :=
  arm_label <$> last enclosing.

(** The call sites of a tree in source order, each with the stack of
    arms that enclose it. Conditions of conditionals are not call sites
    of the walk ([visit_If] passes over [test]). *)
Fixpoint call_sites (enclosing : list arm) (n : node) {struct n}
    : list call_site :=
  match n with
  | Name _ => []
  | Constant _ => []
  | Attribute value _ => call_sites enclosing value
  | Call func args keywords lineno =>
      match call_target func with
      | Some target => [mkSite target lineno enclosing]
      | None => []
      end ++
      call_sites enclosing func ++
      flat_map (call_sites enclosing) args ++
      flat_map (λ kw, call_sites enclosing kw.2) keywords
  | Await value => call_sites enclosing value
  | Expr value => call_sites enclosing value
  | If _ body orelse =>
      flat_map (call_sites (enclosing ++ [FirstArm])) body ++
      flat_map (call_sites (enclosing ++ [SecondArm])) orelse
  | FunctionDef _ _ args body decorator_list returns =>
      flat_map (call_sites enclosing) args ++
      flat_map (call_sites enclosing) body ++
      flat_map (call_sites enclosing) decorator_list ++
      match returns with
      | Some r => call_sites enclosing r
      | None => []
      end
  | ClassDef _ bases body decorator_list =>
      flat_map (call_sites enclosing) bases ++
      flat_map (call_sites enclosing) body ++
      flat_map (call_sites enclosing) decorator_list
  | Other children => flat_map (call_sites enclosing) children
  end.

(** The test of [visit_Call] on a call site. *)
Definition site_is_step (decorated_steps : gset string) (s : call_site) : bool :=
  truthy (site_target s) && bool_decide (site_target s ∈ decorated_steps).

(** The edge that stands for a call site: its branch is the label of the
    innermost arm. *)
Definition site_edge (s : call_site) : Edge :=
  mkEdge "" (site_target s) (innermost_label (site_arms s)) (Some (site_lineno s)).

(** *** Nodes of a tree *)

(** [descendant n m]: [m] is [n] or lies below it. *)
Inductive descendant : node → node → Prop :=
| descendant_here n : descendant n n
| descendant_below n c m :
    c ∈ iter_child_nodes n → descendant c m → descendant n m.

(** [m] occurs somewhere in the module. *)
Definition occurs_in (tree : module) (m : node) : Prop :=
  ∃ n, n ∈ tree ∧ descendant n m.

(** *** Tags *)

(** The accepted spellings of a step tag: a bare name, a call of a bare
    name, a call of a qualified name that ends in a recognised name. *)
Inductive step_tag : node → Prop :=
| step_tag_bare id :
    id ∈ STEP_DECORATOR_NAMES → step_tag (Name id)
| step_tag_call id args keywords lineno :
    id ∈ STEP_DECORATOR_NAMES → step_tag (Call (Name id) args keywords lineno)
| step_tag_qualified value attr args keywords lineno :
    attr ∈ STEP_DECORATOR_NAMES →
    step_tag (Call (Attribute value attr) args keywords lineno).

(** A function definition that carries a step tag. *)
Definition tagged_function (n : node) : Prop :=
  is_function_def n = true ∧ ∃ d, d ∈ node_decorator_list n ∧ step_tag d.

(** The flow containers of a module: its classes that carry a flow tag. *)
Definition flow_containers (tree : module) : list node :=
  List.filter (λ n, is_class_def n && _has_flow_decorator n) tree.

(** The step-tagged top-level functions of a module. *)
Definition tagged_top_level_functions (tree : module) : list node :=
  List.filter (λ n, is_function_def n && _has_step_decorator n) tree.

(** *** Tag arguments *)

(** [isinstance(value, ast.Constant)] *)
Definition is_constant (value : node) : bool :=
  match value with Constant _ => true | _ => false end.

(** A literal string. *)
Definition is_literal_string (value : node) : bool :=
  match value with Constant (CStr _) => true | _ => false end.

(** The names of the keyword arguments whose value is not a literal
    constant, in source order. *)
Fixpoint dynamic_arguments (keywords : list (option string * node))
    : list string :=
  match keywords with
  | [] => []
  | (Some arg, value) :: keywords' =>
      if is_constant value then dynamic_arguments keywords'
      else arg :: dynamic_arguments keywords'
  | (None, _) :: keywords' => dynamic_arguments keywords'
  end.

(** The names of the keyword arguments. *)
Definition keyword_names (keywords : list (option string * node))
    : list string :=
  omap fst keywords.

(** *** Resolution as the specification words it *)

(** The part of a qualified name after its last ["."]; none when the
    name has no separator. *)
Fixpoint after_last_dot (s : string) : option string :=
  match s with
  | EmptyString => None
  | String c s' =>
      match after_last_dot s' with
      | Some t => Some t
      | None => if decide (c = "."%char) then Some s' else None
      end
  end.

(** Rule 3 in the specification's words: the first registered key whose
    trailing segment after the last separator equals the called name. *)
Definition trailing_segment_match (call_name : string)
    (items : list (string * StepData)) : option StepData :=
  snd <$> List.find (λ kv, bool_decide (after_last_dot kv.1 = Some call_name)) items.

(** [resolve] in the specification's words: the first success of the
    three rules, nothing otherwise. *)
Definition resolve_as_specified (r : StepRegistry)
    (from_module call_name : string) : option StepData :=
  match dict_get call_name (_steps r) with
  | Some step => Some step
  | None =>
      match dict_get (from_module +:+ "." +:+ call_name) (_steps r) with
      | Some step => Some step
      | None => trailing_segment_match call_name (_steps r)
      end
  end.

(** A name without separator. *)
Fixpoint has_dot (s : string) : bool :=
  match s with
  | EmptyString => false
  | String c s' => bool_decide (c = "."%char) || has_dot s'
  end.

(** *** Flows and their edges *)

(** The identifiers of the steps of a flow. *)
Definition step_ids (f : FlowData) : list string := function_name <$> steps f.

(** The identifiers of the steps collected in the files of a run that
    parse. *)
Definition collected_ids (files : list source_file) : list string :=
  flat_map (λ file,
    match content file with
    | Parses tree => (_collect_all_steps tree).*1
    | _ => []
    end) files.

(** The files of a run other than the one at [path]. *)
Definition other_files (path : string) (files : list source_file)
    : list source_file :=
  List.filter (λ file, bool_decide (file_path file ≠ path)) files.

(** The files of a run that parse. *)
Definition parsing_files (files : list source_file) : list source_file :=
  List.filter (λ file,
    match content file with Parses _ => true | _ => false end) files.

(** The [Cannot parse] warnings of a run, one per file with a syntax
    error. *)
Definition parse_warnings (files : list source_file) : list string :=
  flat_map (λ file,
    match content file with
    | Malformed msg names_file lineno =>
        [cannot_parse_message (file_path file)
           (parse_error_text msg names_file lineno (file_path file))]
    | _ => []
    end) files.

(** The exception of the first file of a run, in order, that raises one
    other than a syntax error. *)
Fixpoint first_failure (files : list source_file) : option exception :=
  match files with
  | [] => None
  | file :: files' =>
      match content file with
      | Fails e => Some e
      | _ => first_failure files'
      end
  end.

(** The flows that a run returns: none when it raises. *)
Definition returned (run : Warn (exception + list FlowData)) : list FlowData :=
  match run.1 with
  | inr flows => flows
  | inl _ => []
  end.

(** *** Runs *)

(** The trees the first pass stores, with the paths of their files. *)
Definition parsed_trees (files : list source_file) : list (string * module) :=
  flat_map (λ file,
    match content file with
    | Parses tree => [(file_path file, tree)]
    | _ => []
    end) files.

(** What the first pass leaves of the files of a run that parse, begun
    with [registry] and [file_asts]: no such file makes it raise. *)
Definition passed (files : list source_file) (registry : StepRegistry)
    (file_asts : list (string * module))
    : StepRegistry * list (string * module) :=
  match (_first_pass (parsing_files files) registry file_asts).1 with
  | inr r => r
  | inl _ => (registry, file_asts)
  end.

(** The registry of a run, as the first pass leaves it. *)
Definition registry_of (files : list source_file) : StepRegistry :=
  (passed files empty_registry []).1.

(** *** Invariants of the proofs *)

(** The visitor after it has recorded further edges. *)
Definition extend (v : FlowCallVisitor) (es : list Edge) : FlowCallVisitor :=
  {| calls_to_steps := calls_to_steps v ++ es;
     current_branch := current_branch v |}.

(** The edges that stand for the call sites that are steps. *)
Definition recorded (decorated_steps : gset string) (sites : list call_site)
    : list Edge :=
  site_edge <$> List.filter (site_is_step decorated_steps) sites.

(** What the walk of one node does to the visitor: it records the node's
    call sites that are steps, and leaves the slot as it was. *)
Definition walk_ok (decorated_steps : gset string) (n : node) : Prop :=
  ∀ enclosing v,
    current_branch v = innermost_label enclosing →
    visit decorated_steps n v
    = extend v (recorded decorated_steps (call_sites enclosing n)).

(** A dictionary of definitions that holds each under its own name. *)
Definition keyed_by_name (steps : list (string * node)) : Prop :=
  ∀ k n, (k, n) ∈ steps → k = node_name n.

(** Edges that start at one of the identifiers [ids] and end at a known
    step. *)
Definition edges_ok (known : gset string) (ids : list string)
    (es : list Edge) : Prop :=
  ∀ e, e ∈ es → from_step e ∈ ids ∧ to_step e ∈ known.

(** A flow whose edges start at its own steps and end at known steps. *)
Definition flow_ok (known : gset string) (flow : FlowData) : Prop :=
  edges_ok known (step_ids flow) (edges flow).

(** ** Worked inputs *)

(** [@step(name=display) def name(self): body] *)
Definition step_method (name display : string) (body : list node) : node :=
  FunctionDef false name [] body
    [Call (Name "step") [] [(Some "name", Constant (CStr display))] 1] None.

(** [@step def name(...): body] *)
Definition bare_step (name : string) (body : list node) : node :=
  FunctionDef false name [] body [Name "step"] None.

(** [return self.name()] at line [lineno] *)
Definition return_self_call (name : string) (lineno : nat) : node :=
  Other [Call (Attribute (Name "self") name) [] [] lineno].

(** [pass] *)
Definition pass : node := Other [].

(** [tests/fixtures/cross_module/orders/processor.py]:
    [receive_order] calls [validate_order], which calls [fulfill_order]
    in the first arm of a conditional and [reject_order] in the second. *)
Definition order_processor : module :=
  [ Other [];
    ClassDef "OrderProcessor" []
      [ step_method "receive_order" "Receive Order"
          [return_self_call "validate_order" 8];
        step_method "validate_order" "Validate Order"
          [If (Constant (CBool true))
              [return_self_call "fulfill_order" 13]
              [return_self_call "reject_order" 15]];
        step_method "fulfill_order" "Fulfill Order" [pass];
        step_method "reject_order" "Reject Order" [pass] ]
      [Call (Name "flow") []
         [(Some "name", Constant (CStr "Order Processing"));
          (Some "description", Constant (CStr "Handle customer orders"))] 4] ].

Definition order_processor_file : source_file :=
  mkFile "orders/processor.py" ["orders"] "processor.py" (Parses order_processor).

(** A step whose body nests a conditional in the first arm of another:
[[
    if ready:
        if paid: self.ship()
        else: self.remind()
        self.log()
    else: self.wait()
]] *)
Definition nested_step : node :=
  bare_step "dispatch"
    [If (Name "ready")
        [If (Name "paid")
            [return_self_call "ship" 4]
            [return_self_call "remind" 5];
         return_self_call "log" 6]
        [return_self_call "wait" 7]].

Definition dispatch_steps : gset string :=
  {[ "ship"; "remind"; "log"; "wait" ]}.

(** A step that calls a step in the condition of a conditional:
    [if self.check(): self.go()] *)
Definition guarded_step : node :=
  bare_step "run"
    [If (Call (Attribute (Name "self") "check") [] [] 3)
        [return_self_call "go" 4] []].

(** [@step(name=42) def charge(): ...] *)
Definition step_with_number : node :=
  FunctionDef false "charge" [] []
    [Call (Name "step") [] [(Some "name", Constant (CInt 42))] 1] None.

(** The keywords of [@step(name=TITLE, description="Pay")]. *)
Definition dynamic_keywords : list (option string * node) :=
  [(Some "name", Name "TITLE"); (Some "description", Constant (CStr "Pay"))].

(** A flow whose step has a display name that is not a literal:
[[
    @flow
    class Shop:
        @step(name=TITLE)
        def sell(self): pass
]] *)
Definition shop_file : source_file :=
  mkFile "shop.py" [] "shop.py"
    (Parses
       [ClassDef "Shop" []
          [FunctionDef false "sell" [] [pass]
             [Call (Name "step") [] [(Some "name", Name "TITLE")] 3] None]
          [Name "flow"]]).

(** A registry with the single step [c] of module [a.b]. *)
Definition step_c : StepData := mkStepData "Charge" "c" "" None [].
Definition nested_registry : StepRegistry := register "a.b" step_c empty_registry.

(** A file in which a plain function shares its name with a step method:
[[
    @flow
    class Orders:
        @step(name="Notify customer")
        def notify(self): pass

    def notify(): pass
]] *)
Definition plain_notify : node := FunctionDef false "notify" [] [pass] [] None.

Definition clash_module : module :=
  [ ClassDef "Orders" []
      [step_method "notify" "Notify customer" [pass]] [Name "flow"];
    plain_notify ].

Definition clash_file : source_file :=
  mkFile "orders.py" [] "orders.py" (Parses clash_module).

(** A file without flow container and without tagged top-level function,
    in which a plain function shares its name with a step method of an
    untagged class:
[[
    class Helper:
        @step
        def audit(self): pass

    def audit(): pass
]] *)
Definition plain_audit : node := FunctionDef false "audit" [] [pass] [] None.

Definition helper_module : module :=
  [ ClassDef "Helper" [] [bare_step "audit" [pass]] [];
    plain_audit ].

Definition helper_file : source_file :=
  mkFile "helper.py" [] "helper.py" (Parses helper_module).

(** A file whose flow calls a top-level step of the same file:
[[
    @flow(name="Billing")
    class Billing:
        @step
        def charge(self): send_receipt()

    @step
    def send_receipt(): pass
]] *)
Definition billing_module : module :=
  [ ClassDef "Billing" []
      [bare_step "charge" [Expr (Call (Name "send_receipt") [] [] 5)]]
      [Call (Name "flow") [] [(Some "name", Constant (CStr "Billing"))] 1];
    bare_step "send_receipt" [pass] ].

Definition billing_file : source_file :=
  mkFile "billing.py" [] "billing.py" (Parses billing_module).

Definition billing_edge : Edge := mkEdge "charge" "send_receipt" None None.

Definition billing_flow : FlowData :=
  mkFlowData "Billing" "class"
    [mkStepData "charge" "charge" "" None
       [mkEdge "" "send_receipt" None (Some 5)]]
    [billing_edge] "".

(** A file with a syntax error in its first line. *)
Definition broken_file : source_file :=
  mkFile "broken.py" [] "broken.py" (Malformed "invalid syntax" true (Some 1)).

(** A file whose text holds a NUL character: [ast.parse] raises
    [ValueError]. *)
Definition nul_file : source_file :=
  mkFile "nul.py" [] "nul.py"
    (Fails (ValueError "source code string cannot contain null bytes")).
(** ** Further notions *)

(** *** Registries *)

(** The registries that [register] builds from the empty one. *)
Inductive built : StepRegistry → Prop :=
| built_empty : built empty_registry
| built_register module_path step r :
    built r → built (register module_path step r).

(** *** Assembled flows *)

(** The step that the assembly loop makes of a definition. *)
Definition assembled_step (callable_steps : gset string) (item : string * node)
    : StepData :=
  set_calls (_find_step_calls item.2 callable_steps)
    (_extract_step_metadata item.2).1.

(** The edges that the assembly loop makes of a definition's calls. *)
Definition assembled_edges (callable_steps : gset string) (item : string * node)
    : list Edge :=
  (λ call, mkEdge item.1 (to_step call) (branch call) None)
    <$> _find_step_calls item.2 callable_steps.

(** The edges that stand for the calls of a step. *)
Definition step_edges (s : StepData) : list Edge :=
  (λ call, mkEdge (function_name s) (to_step call) (branch call) None)
    <$> calls s.

(** A flow assembled from the definitions [items] against the names
    [callable_steps]. *)
Definition assembled (flow : FlowData) : Prop :=
  ∃ (callable_steps : gset string) (items : list (string * node)),
    keyed_by_name items
    ∧ steps flow = assembled_step callable_steps <$> items
    ∧ edges flow = flat_map (assembled_edges callable_steps) items.

(** The step-tagged methods of a class, in source order. *)
Definition tagged_methods (class_node : node) : list node :=
  List.filter (λ n, is_function_def n && _has_step_decorator n)
    (node_body class_node).

(** ** [flowdoc/generator.py] *)

(** [DiagramGenerator._classify_step] *)
Definition _classify_step (step : StepData) (edges : list Edge) : string :=
  let outgoing :=
    List.filter (λ e, bool_decide (from_step e = function_name step)) edges in
  if decide (length outgoing = 0) then "terminal"
  else if decide (2 ≤ length outgoing) then "decision"
  else "regular".

(** [DiagramGenerator._get_branch_label] *)
Definition _get_branch_label (branch : option string) : option string :=
  if decide (branch = Some "if") then Some "yes"
  else if decide (branch = Some "else") then Some "no"
  else None.

(** [MermaidGenerator.RESERVED_WORDS] *)
Definition RESERVED_WORDS : gset string :=
  {[ "end"; "graph"; "subgraph"; "direction"; "click"; "style"; "class" ]}.

(** The character class [[a-zA-Z0-9_]]. *)
Definition is_id_char (c : ascii) : bool :=
  let n := nat_of_ascii c in
  ((97 <=? n) && (n <=? 122)) || ((65 <=? n) && (n <=? 90))
  || ((48 <=? n) && (n <=? 57)) || bool_decide (c = "_"%char).

(** [re.sub] of every character outside [[a-zA-Z0-9_]] by an
    underscore, each [ascii] of the string standing for one character *)
Fixpoint sub_non_id_chars (name : string) : string :=
  match name with
  | EmptyString => EmptyString
  | String c name' =>
      String (if is_id_char c then c else "_"%char) (sub_non_id_chars name')
  end.

(** [str.lower] on the letters [A] to [Z]; the generator applies it to
    sanitized names only, which hold no other letters. *)
Definition lower_char (c : ascii) : ascii :=
  let n := nat_of_ascii c in
  if (65 <=? n) && (n <=? 90) then ascii_of_nat (n + 32) else c.

Fixpoint lower (s : string) : string :=
  match s with
  | EmptyString => EmptyString
  | String c s' => String (lower_char c) (lower s')
  end.

(** [MermaidGenerator._sanitize_id] *)
Definition _sanitize_id (name : string) : string :=
  let sanitized := sub_non_id_chars name in
  if bool_decide (lower sanitized ∈ RESERVED_WORDS)
  then "step_" +:+ sanitized
  else sanitized.

(** The double quote character. *)
Definition quote : ascii := ascii_of_nat 34.

(** The characters that make a label need quoting: the brackets, braces
    and parentheses, the bar and the double quote. *)
Definition special_characters : list ascii :=
  [ "["; "]"; "{"; "}"; "("; ")"; "|"; quote ]%char.

(** [c in label] for a single character. *)
Fixpoint contains_char (c : ascii) (label : string) : bool :=
  match label with
  | EmptyString => false
  | String c' label' => bool_decide (c' = c) || contains_char c label'
  end.

(** [label.replace] of every double quote by [#quot;] *)
Fixpoint replace_quotes (label : string) : string :=
  match label with
  | EmptyString => EmptyString
  | String c label' =>
      if decide (c = quote) then "#quot;" +:+ replace_quotes label'
      else String c (replace_quotes label')
  end.

(** [MermaidGenerator._escape_label] *)
Definition _escape_label (label : string) : string :=
  if existsb (λ c, contains_char c label) special_characters
  then String quote (replace_quotes label +:+ String quote EmptyString)
  else label.

(** A string all of whose characters satisfy [p]. *)
Fixpoint all_chars (p : ascii → bool) (s : string) : bool :=
  match s with
  | EmptyString => true
  | String c s' => p c && all_chars p s'
  end.

(** *** Runs over several files *)

(** A registry that keeps each step under a key whose trailing segment
    is the step's function name. *)
Definition names_kept (r : StepRegistry) : Prop :=
  ∀ k s, (k, s) ∈ _steps r → after_last_dot k = Some (function_name s).

(** The function names of the registered steps. *)
Definition registered_names (r : StepRegistry) : list string :=
  function_name <$> all_steps r.

(** The names against which the second pass resolves the calls of a
    file: [set(combined_steps.keys())]. *)
Definition callable_in_run (files : list source_file) (tree : module)
    : gset string :=
  key_set (_combine_steps (all_steps (registry_of files))
             (prod_map id Some <$> _collect_all_steps tree)).

(** Step identifiers without separator, as Python identifiers are. *)
Definition plain_ids (files : list source_file) : Prop :=
  ∀ id, id ∈ collected_ids files → has_dot id = false.


(** ** [flowdoc/discovery.py] *)

(** What the file system holds under a name, as [stat] tells with
    symbolic links followed: a regular file; a directory, with what
    [iterdir] raises or else yields, in any order; something that is
    neither (a socket, a device, also a dangling link, which [is_dir]
    and [is_file] take for absent); or an entry whose [stat] fails with
    an error that [is_dir] passes on, as [PermissionError] does for the
    entries of a directory that can be listed but not searched.  The
    tree is finite: no link leads back to a directory above it. *)
#[warnings="-register-all"]
Inductive entry : Type :=
| RegularFile
| Directory (listing : exception + list (string * entry))
| OtherEntry
| Inaccessible (e : exception).

(** Paths are given by their components below the anchor. *)
Module Path.

(** [name.rfind(".")] *)
Fixpoint rfind_dot (name : string) : option nat :=
  match name with
  | EmptyString => None
  | String c name' =>
      match rfind_dot name' with
      | Some i => Some (S i)
      | None => if decide (c = "."%char) then Some 0 else None
      end
  end.

(** [path.name]: the final component. *)
Definition name (path : list string) : string := List.last path "".

(** [pathlib] splits the name at its last dot, unless that dot is the
    first or the last character of the name ([0 < i < len(name) - 1]). *)
Definition split_at (path : list string) : option nat :=
  match rfind_dot (name path) with
  | Some i =>
      if (0 <? i) && (i <? String.length (name path) - 1) then Some i else None
  | None => None
  end.

(** [path.suffix] *)
Definition suffix (path : list string) : string :=
  match split_at path with
  | Some i => String.substring i (String.length (name path) - i) (name path)
  | None => ""
  end.

(** [path.stem] *)
Definition stem (path : list string) : string :=
  match split_at path with
  | Some i => String.substring 0 i (name path)
  | None => name path
  end.

(** [str(path)] of an absolute path. *)
Fixpoint str (path : list string) : string :=
  match path with
  | [] => "/"
  | [component] => "/" +:+ component
  | component :: path' => "/" +:+ component +:+ str path'
  end.

(** The order of the paths of one directory: that of their names. *)
Definition le (a b : string * entry) : Prop := String.leb a.1 b.1 = true.

#[global] Instance le_dec : RelDecision le :=
  λ a b, decide (String.leb a.1 b.1 = true).

End Path.

Definition DEFAULT_EXCLUDES : gset string :=
  {[ "__pycache__"; ".git"; ".hg"; ".svn"; ".venv"; "venv"; "env"; ".env";
     ".tox"; ".nox"; ".pytest_cache"; ".mypy_cache"; ".ruff_cache";
     "node_modules"; "tests"; "test" ]}.

Definition is_test_file (path : list string) : bool :=
  let name := Path.stem path in
  String.prefix "test_" name || ends_with name "_test"
  || bool_decide (name = "conftest").

Definition _should_exclude_dir (excludes : gset string)
    (dir_path : list string) : bool :=
  if String.prefix "." (Path.name dir_path) then true
  else bool_decide (Path.name dir_path ∈ excludes).

(** [sorted(directory.iterdir())] *)
Definition sorted_entries (listing : list (string * entry))
    : list (string * entry) :=
  merge_sort Path.le listing.

(** [for entry in entries: body]: the first exception ends the loop; the
    files that the bodies append are returned in the order of the
    appends. *)
Fixpoint for_entries {A B : Type} (body : A → exception + list B)
    (entries : list A) : exception + list B :=
  match entries with
  | [] => inr []
  | entry :: entries' =>
      match body entry with
      | inl e => inl e
      | inr found =>
          match for_entries body entries' with
          | inl e => inl e
          | inr found' => inr (found ++ found')
          end
      end
  end.

(** The nested [_walk] of a directory, given with what listing it raises
    or yields.  Only the [PermissionError] of the listing is caught;
    [is_dir] and [is_file] stand outside the [try].  [fuel] bounds the
    depth of the recursion. *)
Fixpoint _walk (fuel : nat) (excludes : gset string) (directory : list string)
    (listing : exception + list (string * entry))
    : exception + list (list string) :=
  match fuel with
  | 0 => inr []
  | S fuel' =>
      match listing with
      | inl (PermissionError _) => inr []
      | inl e => inl e
      | inr entries =>
          for_entries
            (λ item,
               let entry_path := directory ++ [item.1] in
               match item.2 with
               | Inaccessible e => inl e
               | Directory listing' =>
                   if _should_exclude_dir excludes entry_path then inr []
                   else _walk fuel' excludes entry_path listing'
               | RegularFile =>
                   if bool_decide (Path.suffix entry_path = ".py")
                   then if is_test_file entry_path then inr []
                        else inr [entry_path]
                   else inr []
               | OtherEntry => inr []
               end)
            (sorted_entries entries)
      end
  end.

(** The number of nested directories. *)
Fixpoint depth (e : entry) : nat :=
  match e with
  | Directory (inr entries) =>
      S (max_list_with (λ item, let '(_, e') := item in depth e') entries)
  | Directory (inl _) => 1
  | _ => 0
  end.

(** [discover_python_files]: [root] is the resolved path and [at_root]
    what the file system holds there, if anything. *)
Definition discover_python_files (root : list string) (at_root : option entry)
    (exclude_patterns : option (gset string))
    : exception + list (list string) :=
  match at_root with
  | None => inl (FileNotFoundError ("Path does not exist: " +:+ Path.str root))
  | Some (Inaccessible e) => inl e
  | Some RegularFile =>
      if bool_decide (Path.suffix root = ".py") then inr [root]
      else inl (ValueError ("Not a Python file: " +:+ Path.str root))
  | Some OtherEntry =>
      inl (ValueError ("Not a file or directory: " +:+ Path.str root))
  | Some (Directory listing) =>
      let excludes := DEFAULT_EXCLUDES ∪ default ∅ exclude_patterns in
      _walk (depth (Directory listing)) excludes root listing
  end.

(** A regular file [name] lies below the directories [dirs], each of
    which can be listed. *)
Inductive located
    : exception + list (string * entry) → list string → string → Prop :=
| located_here entries name :
    (name, RegularFile) ∈ entries → located (inr entries) [] name
| located_below entries dir listing dirs name :
    (dir, Directory listing) ∈ entries →
    located listing dirs name →
    located (inr entries) (dir :: dirs) name.

(** The walk of a directory meets something that raises [e]: a listing
    that fails with an error other than [PermissionError], or an entry
    whose [stat] fails, in the directory itself or in a directory below
    it that is not excluded. *)
Inductive raises (excludes : gset string)
    : exception + list (string * entry) → exception → Prop :=
| raises_listing e :
    (∀ message, e ≠ PermissionError message) → raises excludes (inl e) e
| raises_stat entries name e :
    (name, Inaccessible e) ∈ entries → raises excludes (inr entries) e
| raises_below entries dir listing e :
    (dir, Directory listing) ∈ entries →
    _should_exclude_dir excludes [dir] = false →
    raises excludes listing e →
    raises excludes (inr entries) e.

(** No directory holds two entries of one name. *)
Fixpoint distinct_names (e : entry) : bool :=
  match e with
  | Directory (inr entries) =>
      bool_decide (NoDup entries.*1)
      && forallb (λ item, let '(_, e') := item in distinct_names e') entries
  | _ => true
  end.

(** The order of paths: that of their components, the first difference
    deciding. *)
Fixpoint path_lt (p q : list string) : bool :=
  match p, q with
  | [], [] => false
  | [], _ :: _ => true
  | _ :: _, [] => false
  | a :: p', b :: q' =>
      match String.compare a b with
      | Lt => true
      | Eq => path_lt p' q'
      | Gt => false
      end
  end.

(** The files that a part of the walk appends: none when it raises. *)
Definition appended {B : Type} (result : exception + list B) : list B :=
  match result with
  | inr found => found
  | inl _ => []
  end.

(** The body of the loop of [_walk]: what the walk does with one entry
    of a directory. *)
Definition walk_item (fuel : nat) (excludes : gset string)
    (directory : list string) (item : string * entry)
    : exception + list (list string) :=
  let entry_path := directory ++ [item.1] in
  match item.2 with
  | Inaccessible e => inl e
  | Directory listing' =>
      if _should_exclude_dir excludes entry_path then inr []
      else _walk fuel excludes entry_path listing'
  | RegularFile =>
      if bool_decide (Path.suffix entry_path = ".py")
      then if is_test_file entry_path then inr [] else inr [entry_path]
      else inr []
  | OtherEntry => inr []
  end.

(** The paths that the walk of a directory appends. *)
Definition walked (excludes : gset string) (directory : list string)
    (listing : exception + list (string * entry)) (path : list string)
    : Prop :=
  ∃ dirs name,
    path = directory ++ dirs ++ [name]
    ∧ located listing dirs name
    ∧ Forall (λ dir, _should_exclude_dir excludes [dir] = false) dirs
    ∧ Path.suffix [name] = ".py"
    ∧ is_test_file [name] = false.

(** *** Worked inputs *)

(** The flow class of [billing_module]. *)
Definition billing_class : node :=
  ClassDef "Billing" []
    [bare_step "charge" [Expr (Call (Name "send_receipt") [] [] 5)]]
    [Call (Name "flow") [] [(Some "name", Constant (CStr "Billing"))] 1].

(** A file with two flow classes and no standalone step:
[[
    @flow
    class Intake:
        @step
        def receive(self): pass

    @flow(name="Billing")
    class Billing:
        @step
        def charge(self): send_receipt()
]] *)
Definition two_flows_module : module :=
  [ ClassDef "Intake" [] [bare_step "receive" [pass]] [Name "flow"];
    billing_class ].

Definition two_flows_file : source_file :=
  mkFile "flows.py" [] "flows.py" (Parses two_flows_module).

(** A source tree, its directories listed in no particular order:
[[
    shop/
      vendor/lib.py
      app.py
      tests/helpers.py
      orders/processor.py
      orders/test_processor.py
      .git/hooks.py
      README.md
]] *)
Definition shop_tree : entry :=
  Directory (inr
    [ ("vendor", Directory (inr [("lib.py", RegularFile)]));
      ("app.py", RegularFile);
      ("tests", Directory (inr [("helpers.py", RegularFile)]));
      ("orders", Directory (inr [("test_processor.py", RegularFile);
                                 ("processor.py", RegularFile)]));
      (".git", Directory (inr [("hooks.py", RegularFile)]));
      ("README.md", RegularFile) ]).

(** What the listing of [shop] yields when [orders] can be listed but
    not searched: [stat] fails on the entries of [orders]. *)
Definition unsearchable_shop : exception + list (string * entry) :=
  inr [ ("app.py", RegularFile);
        ("orders",
         Directory (inr
           [("processor.py",
             Inaccessible
               (PermissionError
                  "[Errno 13] Permission denied: '/shop/orders/processor.py'"))]))
      ].

Definition shop_files : list (list string) :=
  [ ["shop"; "app.py"]; ["shop"; "orders"; "processor.py"];
    ["shop"; "vendor"; "lib.py"] ].
(** * Properties *)

(** ** Diagnostics *)

Lemma wbind_wret_l {A B} (a : A) (k : A → Warn B) : wbind (wret a) k = k a.
Proof. unfold wbind, wret; simpl. by destruct (k a). Qed.

Lemma wbind_assoc {A B C} (m : Warn A) (k1 : A → Warn B) (k2 : B → Warn C) :
  wbind (wbind m k1) k2 = wbind m (λ a, wbind (k1 a) k2).
Proof. unfold wbind; simpl. by rewrite app_assoc. Qed.

Lemma wbind_fst {A B} (m : Warn A) (k : A → Warn B) : (wbind m k).1 = (k m.1).1.
Proof. done. Qed.

Lemma wbind_snd {A B} (m : Warn A) (k : A → Warn B) :
  (wbind m k).2 = m.2 ++ (k m.1).2.
Proof. done. Qed.

(** ** Dictionaries *)

Section dict_facts.
Context {V : Type}.
Implicit Types d : list (string * V).

Lemma dict_get_set k k' v d :
  dict_get k (dict_set k' v d) = if decide (k' = k) then Some v else dict_get k d.
Proof.
  induction d as [|[k0 v0] d IH]; simpl.
  - done.
  - destruct (decide (k0 = k')) as [->|Hne]; simpl.
    + by destruct (decide (k' = k)).
    + destruct (decide (k0 = k)) as [->|]; [|done].
      by rewrite decide_False by done.
Qed.

Lemma dict_set_keys k k' v d :
  k ∈ (dict_set k' v d).*1 ↔ k = k' ∨ k ∈ d.*1.
Proof.
  induction d as [|[k0 v0] d IH]; simpl.
  - rewrite list_elem_of_singleton. split; [by left|].
    by intros [?|?%elem_of_nil].
  - destruct (decide (k0 = k')) as [->|Hne]; rewrite !fmap_cons, !elem_of_cons;
      simpl; [tauto|]. rewrite IH. tauto.
Qed.

Lemma dict_set_values x k v d :
  x ∈ (dict_set k v d).*2 → x = v ∨ x ∈ d.*2.
Proof.
  induction d as [|[k0 v0] d IH]; simpl.
  - intros ?%list_elem_of_singleton. by left.
  - destruct (decide (k0 = k)) as [->|Hne]; rewrite !fmap_cons, !elem_of_cons;
      simpl; [tauto|]. intros [?|?%IH]; tauto.
Qed.

End dict_facts.

Lemma dict_set_elem {V} (k k' : string) (v v' : V) d :
  (k, v) ∈ dict_set k' v' d → (k, v) = (k', v') ∨ (k, v) ∈ d.
Proof.
  induction d as [|[k0 v0] d IH]; simpl.
  - intros ?%list_elem_of_singleton. by left.
  - destruct (decide (k0 = k')) as [->|Hne].
    + intros [->|?]%elem_of_cons; [by left|right; by right].
    + intros [->|[?|?]%IH]%elem_of_cons; [right; by left|by left|right; by right].
Qed.

Lemma dict_set_fresh {V} (k : string) (v : V) (d : list (string * V)) :
  k ∉ d.*1 → dict_set k v d = d ++ [(k, v)].
Proof.
  induction d as [|[k0 v0] d IH]; simpl; [done|].
  intros Hk. apply not_elem_of_cons in Hk as [Hne Hk].
  rewrite decide_False by done. by rewrite IH.
Qed.

Lemma dict_set_key_order {V} (k : string) (v : V) (d : list (string * V)) :
  (dict_set k v d).*1 = if decide (k ∈ d.*1) then d.*1 else d.*1 ++ [k].
Proof.
  induction d as [|[k0 v0] d IH].
  - case_decide as Hin; [|done]. by apply elem_of_nil in Hin.
  - simpl. destruct (decide (k0 = k)) as [->|Hne]; rewrite fmap_cons; simpl.
    + clear IH. case_decide as Hout; [done|]. destruct Hout. by left.
    + rewrite IH. clear IH. case_decide as Hd; case_decide as Hd'; try done.
      * destruct Hd'. by right.
      * apply elem_of_cons in Hd' as [?|?]; [by destruct Hne|done].
Qed.

Lemma key_set_elem {V} (d : list (string * V)) (k : string) :
  k ∈ key_set d ↔ k ∈ d.*1.
Proof. unfold key_set. apply elem_of_list_to_set. Qed.

Lemma dict_copy_keys (d : list (string * node)) :
  (prod_map id Some <$> d).*1 = d.*1.
Proof. induction d as [|[k n] d IH]; [done|]. rewrite !fmap_cons. by f_equal. Qed.

(** ** Lists *)

Lemma elem_of_flat_map {A B} (f : A → list B) (l : list A) (y : B) :
  y ∈ flat_map f l ↔ ∃ x, x ∈ l ∧ y ∈ f x.
Proof.
  rewrite list_elem_of_In, in_flat_map. split; intros (x & Hx & Hy); exists x.
  - by rewrite !list_elem_of_In.
  - by rewrite <- !list_elem_of_In.
Qed.

Lemma find_ext {A} (f g : A → bool) (l : list A) :
  (∀ x, f x = g x) → List.find f l = List.find g l.
Proof. intros Hfg. induction l as [|x l IH]; simpl; [done|]. by rewrite Hfg, IH. Qed.

Lemma find_some_existsb {A} (f : A → bool) (l : list A) (x : A) :
  List.find f l = Some x → existsb f l = true.
Proof.
  intros [Hin Hf]%List.find_some. apply existsb_exists. by exists x.
Qed.

Lemma count_unique (l : list string) (x : string) :
  NoDup l → x ∈ l → length (filter (λ y, y = x) l) = 1.
Proof.
  induction 1 as [|y l Hy Hnd IH]; intros Hx; [by apply elem_of_nil in Hx|].
  rewrite filter_cons. destruct (decide (y = x)) as [->|Hne].
  - simpl. f_equal.
    destruct (filter (λ y, y = x) l) as [|z zs] eqn:E; [done|].
    assert (z ∈ filter (λ y, y = x) l) as [-> Hz]%list_elem_of_filter
      by (rewrite E; left).
    done.
  - apply IH. by apply elem_of_cons in Hx as [->|Hx].
Qed.

Lemma count_fmap_inj (f : string → string) (l : list string) (x : string) :
  (∀ a b, f a = f b → a = b) →
  length (filter (λ w, w = f x) (f <$> l)) = length (filter (λ y, y = x) l).
Proof.
  intros Hf. induction l as [|y l IH]; [done|].
  rewrite fmap_cons, !filter_cons.
  destruct (decide (y = x)) as [->|Hne].
  - rewrite decide_True by done. simpl. by rewrite IH.
  - rewrite decide_False by (by intros ?%Hf). done.
Qed.

(** ** Strings *)

Lemma string_length_app (a b : string) :
  String.length (a +:+ b) = String.length a + String.length b.
Proof. induction a as [|c a IH]; simpl; [done|by rewrite IH]. Qed.

Lemma string_app_inj_r (a b s : string) : a +:+ s = b +:+ s → a = b.
Proof.
  revert b. induction a as [|c a IH]; intros [|c' b] H; simpl in H.
  - done.
  - apply (f_equal String.length) in H.
    rewrite !string_length_app in H. simpl in H. lia.
  - apply (f_equal String.length) in H.
    rewrite !string_length_app in H. simpl in H. lia.
  - injection H as -> H. by rewrite (IH b H).
Qed.

Lemma dynamic_argument_warning_inj (a b : string) :
  dynamic_argument_warning a = dynamic_argument_warning b → a = b.
Proof.
  unfold dynamic_argument_warning. intros H.
  apply (inj (String.append _)) in H. by apply string_app_inj_r in H.
Qed.

Lemma ends_with_spec (s suffix : string) :
  ends_with s suffix = true ↔ ∃ p, s = p +:+ suffix.
Proof.
  induction s as [|c s IH]; simpl.
  - rewrite orb_false_r, bool_decide_eq_true. split.
    + intros <-. by exists "".
    + intros [p Hp]. destruct p; simpl in Hp; [done|discriminate].
  - rewrite orb_true_iff, bool_decide_eq_true, IH. split.
    + intros [<-|[p ->]]; [by exists ""|by exists (String c p)].
    + intros [[|c' p] Hp]; simpl in Hp; [by left|right].
      injection Hp as -> ->. by exists p.
Qed.

Lemma after_last_dot_None (s : string) :
  after_last_dot s = None ↔ has_dot s = false.
Proof.
  induction s as [|c s IH]; simpl; [done|].
  rewrite orb_false_iff, bool_decide_eq_false, <- IH.
  destruct (after_last_dot s) as [t|].
  - split; [done|]. by intros [_ ?].
  - destruct (decide (c = "."%char)); [|by split].
    split; [done|]. by intros [].
Qed.

Lemma after_last_dot_app (p t : string) :
  has_dot t = false → after_last_dot (p +:+ "." +:+ t) = Some t.
Proof.
  intros Ht. induction p as [|c p IH]; simpl.
  - apply after_last_dot_None in Ht. change (after_last_dot (String "." t) = Some t). simpl. by rewrite Ht.
  - simpl in IH. by rewrite IH.
Qed.

Lemma after_last_dot_Some (s t : string) :
  after_last_dot s = Some t → ∃ p, s = p +:+ "." +:+ t.
Proof.
  revert t. induction s as [|c s IH]; intros t; simpl; [done|].
  destruct (after_last_dot s) as [t'|].
  - intros [= <-]. destruct (IH t' eq_refl) as [p ->]. by exists (String c p).
  - destruct (decide (c = "."%char)) as [->|]; [|done].
    intros [= <-]. by exists "".
Qed.

(** For a name without separator, a key ends with ["."] and the name
    exactly when the name is the key's trailing segment. *)
Lemma ends_with_trailing_segment (qname call_name : string) :
  has_dot call_name = false →
  ends_with qname ("." +:+ call_name)
  = bool_decide (after_last_dot qname = Some call_name).
Proof.
  intros Hcall. apply eq_true_iff_eq.
  rewrite ends_with_spec, bool_decide_eq_true. split.
  - intros [p ->]. by apply after_last_dot_app.
  - apply after_last_dot_Some.
Qed.

(** ** The visitor *)

Section visitor.
Variable decorated_steps : gset string.

Lemma extend_nil v : extend v [] = v.
Proof. destruct v; unfold extend; simpl; by rewrite app_nil_r. Qed.

Lemma extend_extend v es1 es2 :
  extend (extend v es1) es2 = extend v (es1 ++ es2).
Proof. unfold extend; simpl; by rewrite app_assoc. Qed.

Lemma recorded_app s1 s2 :
  recorded decorated_steps (s1 ++ s2)
  = recorded decorated_steps s1 ++ recorded decorated_steps s2.
Proof. unfold recorded. by rewrite List.filter_app, fmap_app. Qed.

Lemma visit_each_ok (l : list node) :
  Forall (walk_ok decorated_steps) l →
  ∀ enclosing v,
    current_branch v = innermost_label enclosing →
    fold_left (λ v child, visit decorated_steps child v) l v
    = extend v (recorded decorated_steps (flat_map (call_sites enclosing) l)).
Proof.
  induction 1 as [|c l Hc _ IH]; intros enclosing v Hv; simpl.
  - by rewrite extend_nil.
  - rewrite (Hc enclosing v Hv), (IH enclosing) by done.
    by rewrite extend_extend, recorded_app.
Qed.

Lemma visit_keywords_ok (l : list (option string * node)) :
  Forall (λ kw, walk_ok decorated_steps kw.2) l →
  ∀ enclosing v,
    current_branch v = innermost_label enclosing →
    fold_left (λ v kw, visit decorated_steps kw.2 v) l v
    = extend v (recorded decorated_steps
                  (flat_map (λ kw, call_sites enclosing kw.2) l)).
Proof.
  induction 1 as [|kw l Hkw _ IH]; intros enclosing v Hv; simpl.
  - by rewrite extend_nil.
  - rewrite (Hkw enclosing v Hv), (IH enclosing) by done.
    by rewrite extend_extend, recorded_app.
Qed.

Lemma record_call_ok func lineno enclosing v :
  current_branch v = innermost_label enclosing →
  record_call decorated_steps func lineno v
  = extend v (recorded decorated_steps
                match call_target func with
                | Some target => [mkSite target lineno enclosing]
                | None => []
                end).
Proof.
  intros Hv. unfold record_call, recorded.
  destruct (call_target func) as [target|]; simpl; [|by rewrite extend_nil].
  unfold site_is_step; simpl.
  destruct (truthy target && bool_decide (target ∈ decorated_steps)); simpl.
  - unfold extend, site_edge; simpl. by rewrite Hv.
  - by rewrite extend_nil.
Qed.

Lemma innermost_label_snoc enclosing a :
  innermost_label (enclosing ++ [a]) = Some (arm_label a).
Proof. unfold innermost_label. by rewrite last_snoc. Qed.

(** The single slot, saved and restored around each conditional, holds
    at every call site the label of the innermost arm of the stack. *)
Lemma visit_ok (n : node) : walk_ok decorated_steps n.
Proof.
  induction n as [ | value attr IH | | func args keywords lineno IH Hargs Hkws
                   | value IH | value IH | test body orelse _ Hbody Horelse
                   | is_async name args body decorator_list returns
                     Hargs Hbody Hdecos Hreturns
                   | name bases body decorator_list Hbases Hbody Hdecos
                   | children Hchildren ] using node_nested_ind;
    intros enclosing v Hv; simpl.
  - by rewrite extend_nil.
  - by apply IH.
  - by rewrite extend_nil.
  - rewrite (record_call_ok _ _ enclosing) by done.
    rewrite (IH enclosing) by done.
    rewrite (visit_each_ok _ Hargs enclosing) by done.
    rewrite (visit_keywords_ok _ Hkws enclosing) by done.
    by rewrite !extend_extend, <- !recorded_app.
  - by apply IH.
  - by apply IH.
  - rewrite (visit_each_ok _ Hbody (enclosing ++ [FirstArm]))
      by (by rewrite innermost_label_snoc).
    destruct orelse as [|c orelse].
    + simpl. rewrite app_nil_r. by destruct v.
    + rewrite (visit_each_ok _ Horelse (enclosing ++ [SecondArm]))
        by (by rewrite innermost_label_snoc).
      rewrite recorded_app.
      destruct v; unfold extend, set_current_branch; simpl.
      by rewrite <- app_assoc.
  - rewrite (visit_each_ok _ Hargs enclosing) by done.
    rewrite (visit_each_ok _ Hbody enclosing) by done.
    rewrite (visit_each_ok _ Hdecos enclosing) by done.
    destruct returns as [r|].
    + rewrite (Hreturns r eq_refl enclosing) by done.
      by rewrite !extend_extend, <- !recorded_app.
    + by rewrite !extend_extend, <- !recorded_app, app_nil_r.
  - rewrite (visit_each_ok _ Hbases enclosing) by done.
    rewrite (visit_each_ok _ Hbody enclosing) by done.
    rewrite (visit_each_ok _ Hdecos enclosing) by done.
    by rewrite !extend_extend, <- !recorded_app.
  - by apply visit_each_ok.
Qed.

Lemma find_step_calls_recorded (function_node : node) :
  _find_step_calls function_node decorated_steps
  = recorded decorated_steps (call_sites [] function_node).
Proof.
  unfold _find_step_calls. by rewrite (visit_ok function_node [] (mkVisitor [] None)).
Qed.

(** Every recorded edge points at a known step. *)
Lemma find_step_calls_known (function_node : node) (e : Edge) :
  e ∈ _find_step_calls function_node decorated_steps →
  to_step e ∈ decorated_steps.
Proof.
  rewrite find_step_calls_recorded. unfold recorded.
  intros (s & -> & Hs)%list_elem_of_fmap.
  apply list_elem_of_In, List.filter_In in Hs as [_ Hs].
  unfold site_is_step in Hs. apply andb_true_iff in Hs as [_ Hs].
  by apply bool_decide_eq_true in Hs.
Qed.

End visitor.

(** C1. The branch label of every recorded edge is the label of the
    innermost conditional arm that encloses the call site (["if"] for the
    first arm, the specification's [then]; ["else"] for the second, its
    [otherwise]), and is absent when no conditional encloses the call:
    the edges found in a step are, in source order, the edges of its
    call sites to known steps, each labelled by the last arm of the
    stack of arms around it. The single slot that [visit_If] saves, sets
    and restores therefore always holds the top of that stack. *)
Theorem edge_branch_is_innermost_arm (function_node : node)
    (decorated_steps : gset string) :
  _find_step_calls function_node decorated_steps
  = (λ s, mkEdge "" (site_target s) (arm_label <$> last (site_arms s))
                 (Some (site_lineno s)))
    <$> List.filter (site_is_step decorated_steps) (call_sites [] function_node).
Proof. apply find_step_calls_recorded. Qed.

(** The specification's scenario, on the fixture
    [orders/processor.py]: one flow with four steps and the edges
    [receive_order → validate_order] (no label),
    [validate_order → fulfill_order] (first arm) and
    [validate_order → reject_order] (second arm). *)
Example order_processor_edges :
  ∃ flow, parse_file order_processor_file = inr ([flow], [])
    ∧ length (steps flow) = 4
    ∧ edges flow
      = [ mkEdge "receive_order" "validate_order" None None;
          mkEdge "validate_order" "fulfill_order" (Some "if") None;
          mkEdge "validate_order" "reject_order" (Some "else") None ].
Proof. eexists. split; [vm_compute; reflexivity|]. by split. Qed.

(** A call in the second arm of a conditional nested in the first arm of
    another is labelled by the nested conditional (["else"]); after the
    nested conditional the label of the outer arm is back. *)
Example nested_conditional_labels :
  _find_step_calls nested_step dispatch_steps
  = [ mkEdge "" "ship" (Some "if") (Some 4);
      mkEdge "" "remind" (Some "else") (Some 5);
      mkEdge "" "log" (Some "if") (Some 6);
      mkEdge "" "wait" (Some "else") (Some 7) ].
Proof. by vm_compute. Qed.

(** C5. For a supplied set of step identifiers (an identifier is never
    empty), the targets of the recorded edges are exactly the candidate
    targets of the detected calls that are in the set, in source order:
    a detected call yields an edge if and only if its candidate is a
    known step. The search is a total function whose only result is the
    list of edges: a call to an unknown target raises nothing and
    reports nothing. *)
Theorem edge_iff_known_step (function_node : node)
    (decorated_steps : gset string) :
  "" ∉ decorated_steps →
  to_step <$> _find_step_calls function_node decorated_steps
  = filter (λ target, target ∈ decorated_steps)
      (site_target <$> call_sites [] function_node).
Proof.
  intros Hnonempty. rewrite find_step_calls_recorded. unfold recorded.
  induction (call_sites [] function_node) as [|s sites IH]; [done|].
  simpl. rewrite filter_cons. unfold site_is_step at 1.
  destruct (decide (site_target s ∈ decorated_steps)) as [Hin|Hout].
  - assert (truthy (site_target s) = true) as ->.
    { apply bool_decide_eq_true. by intros Heq; rewrite Heq in Hin. }
    rewrite bool_decide_eq_true_2 by done. simpl. f_equal. apply IH.
  - rewrite (bool_decide_eq_false_2 _ Hout), andb_false_r. apply IH.
Qed.

(** [edge_iff_known_step] on the step [nested_step] and its four known
    steps. *)
Lemma edge_iff_known_step_witness :
  ("" ∉ dispatch_steps)
  ∧ to_step <$> _find_step_calls nested_step dispatch_steps
    = filter (λ target, target ∈ dispatch_steps)
        (site_target <$> call_sites [] nested_step).
Proof.
  assert ("" ∉ dispatch_steps) as Hnonempty by (by vm_compute).
  split; [exact Hnonempty|].
  exact (edge_iff_known_step nested_step dispatch_steps Hnonempty).
Defined.

(** C9. Visiting a conditional gives the same visitor state whatever its
    condition is: the condition is never visited, so a call to a known
    step inside it yields no edge. Only the two arms count, and a
    conditional with empty arms leaves the visitor as it was. *)
Theorem condition_is_not_visited (decorated_steps : gset string)
    (test test' : node) (body orelse : list node) (v : FlowCallVisitor) :
  visit decorated_steps (If test body orelse) v
  = visit decorated_steps (If test' body orelse) v
  ∧ visit decorated_steps (If test [] []) v = v.
Proof. split; [reflexivity|by destruct v]. Qed.

(** [if self.check(): self.go()] with both [check] and [go] known: only
    the call in the arm is recorded. *)
Example call_in_condition_is_missed :
  _find_step_calls guarded_step {[ "check"; "go" ]}
  = [mkEdge "" "go" (Some "if") (Some 4)].
Proof. by vm_compute. Qed.

(** ** The registry *)

(** Registration keeps the keys in the order of their first
    registration: a new key goes last, a key that is present stays
    where it is. *)
Lemma register_order (module_path : string) (step : StepData) (r : StepRegistry) :
  let qualified_name := module_path +:+ "." +:+ function_name step in
  (_steps (register module_path step r)).*1
  = if decide (qualified_name ∈ (_steps r).*1) then (_steps r).*1
    else (_steps r).*1 ++ [qualified_name].
Proof. apply dict_set_key_order. Qed.

(** The last registration under a key wins. *)
Lemma register_overwrites (module_path : string) (step : StepData) (r : StepRegistry) :
  dict_get (module_path +:+ "." +:+ function_name step)
    (_steps (register module_path step r)) = Some step.
Proof. unfold register; simpl. rewrite dict_get_set. by rewrite decide_True. Qed.

Lemma resolve_suffix_find (call_name : string) (items : list (string * StepData)) :
  _resolve_suffix call_name items
  = snd <$> List.find (λ kv, ends_with kv.1 ("." +:+ call_name)) items.
Proof.
  induction items as [|[qname step] items IH]; simpl; [done|].
  by destruct (ends_with qname _).
Qed.

(** C2 fails for a qualified called name. With the single key [a.b.c]
    registered, [resolve] finds its step for the called name [b.c] by
    the third rule, although the trailing segment of the key after its
    last separator is [c], so that none of the three rules, as the
    specification words them, succeeds. *)
Lemma resolve_qualified_suffix :
  resolve nested_registry "x" "b.c" = Some step_c
  ∧ resolve_as_specified nested_registry "x" "b.c" = None.
Proof. split; reflexivity. Qed.

(** C2, as amended. [resolve] returns the first success of: (1) the step
    registered under the key [call_name]; (2) the step registered under
    [from_module.call_name]; (3) the step of the first registered key,
    in registration order, that ends with ["."] followed by [call_name];
    and nothing when none of the three succeeds. For a [call_name]
    without separator rule (3) is the specification's, the first key
    whose trailing segment after the last separator equals [call_name],
    and [resolve] is [resolve_as_specified]. *)
Theorem resolve_rules (r : StepRegistry) (from_module call_name : string) :
  resolve r from_module call_name
  = match dict_get call_name (_steps r) with
    | Some step => Some step
    | None =>
        match dict_get (from_module +:+ "." +:+ call_name) (_steps r) with
        | Some step => Some step
        | None =>
            snd <$> List.find (λ kv, ends_with kv.1 ("." +:+ call_name)) (_steps r)
        end
    end
  ∧ (has_dot call_name = false →
     resolve r from_module call_name = resolve_as_specified r from_module call_name).
Proof.
  unfold resolve, resolve_as_specified, trailing_segment_match.
  rewrite resolve_suffix_find. split; [done|]. intros Hcall.
  destruct (dict_get call_name (_steps r)); [done|].
  destruct (dict_get _ (_steps r)); [done|].
  f_equal. apply find_ext. intros [qname step].
  by apply ends_with_trailing_segment.
Qed.

(** [resolve_rules] on the registry of [a.b.c] and the simple name [c]. *)
Lemma resolve_rules_witness :
  has_dot "c" = false
  ∧ resolve nested_registry "x" "c" = resolve_as_specified nested_registry "x" "c".
Proof.
  split; [reflexivity|].
  exact (proj2 (resolve_rules nested_registry "x" "c") eq_refl).
Defined.

(** ** Tag arguments *)

Lemma extract_args_app (l1 l2 : list (option string * node)) args :
  _extract_decorator_args_loop (l1 ++ l2) args
  = wbind (_extract_decorator_args_loop l1 args)
          (_extract_decorator_args_loop l2).
Proof.
  revert args. induction l1 as [|[[arg|] value] l1 IH]; intros args; simpl.
  - by rewrite wbind_wret_l.
  - destruct value as [| |c| | | | | | |]; try destruct c; try apply IH;
      by rewrite wbind_assoc, IH.
  - apply IH.
Qed.

Lemma extract_args_warnings (keywords : list (option string * node)) args :
  (_extract_decorator_args_loop keywords args).2
  = dynamic_argument_warning <$> dynamic_arguments keywords.
Proof.
  revert args. induction keywords as [|[[arg|] value] keywords IH];
    intros args; simpl; [done| |apply IH].
  destruct value as [| |c| | | | | | |]; try destruct c; simpl; try apply IH;
    by rewrite IH.
Qed.

Lemma extract_args_get (keywords : list (option string * node)) args k :
  (∀ s, (Some k, Constant (CStr s)) ∉ keywords) →
  dict_get k (_extract_decorator_args_loop keywords args).1 = dict_get k args.
Proof.
  revert args. induction keywords as [|[[arg|] value] keywords IH];
    intros args Hk; simpl; [done| |].
  - assert (∀ s, (Some k, Constant (CStr s)) ∉ keywords) as Hk'.
    { intros s Hs. apply (Hk s). by right. }
    destruct value as [| |c| | | | | | |]; try destruct c as [s| | | | | |];
      simpl; rewrite ?IH by done; try done.
    rewrite dict_get_set. destruct (decide (arg = k)) as [->|]; [|done].
    destruct (Hk s). by left.
  - apply IH. intros s Hs. apply (Hk s). by right.
Qed.

Lemma keyword_names_unique (keywords : list (option string * node)) a v1 v2 :
  NoDup (keyword_names keywords) →
  (Some a, v1) ∈ keywords → (Some a, v2) ∈ keywords → v1 = v2.
Proof.
  unfold keyword_names.
  induction keywords as [|[[arg|] value] keywords IH]; simpl; intros Hnd H1 H2.
  - by apply elem_of_nil in H1.
  - apply NoDup_cons in Hnd as [Hnotin Hnd].
    assert (∀ v, (Some arg, v) ∉ keywords) as Hfresh.
    { intros v Hv. apply Hnotin. apply list_elem_of_omap. by exists (Some arg, v). }
    apply elem_of_cons in H1 as [H1|H1]; apply elem_of_cons in H2 as [H2|H2].
    + congruence.
    + injection H1 as -> ->. by destruct (Hfresh v2).
    + injection H2 as -> ->. by destruct (Hfresh v1).
    + by apply IH.
  - apply elem_of_cons in H1 as [?|H1]; [done|].
    apply elem_of_cons in H2 as [?|H2]; [done|]. by apply IH.
Qed.

Lemma dynamic_arguments_elem (keywords : list (option string * node)) a :
  a ∈ dynamic_arguments keywords ↔
  ∃ v, (Some a, v) ∈ keywords ∧ is_constant v = false.
Proof.
  induction keywords as [|[[arg|] value] keywords IH]; simpl.
  - split; [by intros ?%elem_of_nil|]. by intros (v & ?%elem_of_nil & _).
  - destruct (is_constant value) eqn:Hc.
    + rewrite IH. split.
      * intros (v & Hv & ?). exists v. split; [by right|done].
      * intros (v & [[= -> ->]|Hv]%elem_of_cons & ?); [congruence|by exists v].
    + rewrite elem_of_cons, IH. split.
      * intros [->|(v & Hv & ?)]; [exists value; split; [by left|done]|].
        exists v. split; [by right|done].
      * intros (v & [[= -> ->]|Hv]%elem_of_cons & ?); [by left|right; by exists v].
  - rewrite IH. split.
    + intros (v & Hv & ?). exists v. split; [by right|done].
    + intros (v & [?|Hv]%elem_of_cons & ?); [done|by exists v].
Qed.

Lemma dynamic_arguments_sublist (keywords : list (option string * node)) :
  sublist (dynamic_arguments keywords) (keyword_names keywords).
Proof.
  unfold keyword_names.
  induction keywords as [|[[arg|] value] keywords IH]; simpl; [done| |done].
  destruct (is_constant value); [by apply sublist_cons|by apply sublist_skip].
Qed.

(** C6 fails for a literal that is not a string. In [@step(name=42)] the
    value of [name] is not a literal string; the display name falls back
    to the function's identifier, but no warning is emitted. *)
Lemma integer_argument_without_warning :
  is_literal_string (Constant (CInt 42)) = false
  ∧ step_name (_extract_step_metadata step_with_number).1 = "charge"
  ∧ (_extract_step_metadata step_with_number).2 = [].
Proof. by repeat split. Qed.

(** C6, as amended. Let a tag be a call whose keyword names are distinct
    (a repeated keyword is an error in Python), and let [arg] be a keyword
    argument whose value is not a literal constant. Each extraction of
    the tag's arguments skips [arg] and emits exactly one warning naming
    it. For a step tag the display name falls back to the function's
    identifier when [arg] is [name], and the description to the empty
    text when [arg] is [description]; for a flow tag the flow name falls
    back to the class name, and the description to the empty text. The
    extraction is total: nothing is raised. *)
Theorem dynamic_argument_falls_back (func : node) (args : list node)
    (keywords : list (option string * node)) (lineno : nat)
    (arg : string) (value : node) :
  (Some arg, value) ∈ keywords →
  is_constant value = false →
  NoDup (keyword_names keywords) →
  let tag := Call func args keywords lineno in
  let r := _extract_decorator_args tag in
  dict_get arg r.1 = None
  ∧ length (filter (λ w, w = dynamic_argument_warning arg) r.2) = 1
  ∧ (∀ func_node,
       List.find _is_step_decorator (node_decorator_list func_node) = Some tag →
       let s := _extract_step_metadata func_node in
       s.2 = r.2
       ∧ (arg = "name" → step_name s.1 = node_name func_node)
       ∧ (arg = "description" → step_description s.1 = ""))
  ∧ (∀ (V : Type) (all_steps : list (string * V)) class_node,
       List.find _is_flow_decorator (node_decorator_list class_node) = Some tag →
       ∃ flow later,
         _extract_class_flow class_node all_steps = (Some flow, r.2 ++ later)
         ∧ (arg = "name" → flow_name flow = node_name class_node)
         ∧ (arg = "description" → flow_description flow = "")).
Proof.
  intros Hin Hdyn Hnd tag r.
  assert (dict_get arg r.1 = None) as Hget.
  { subst r tag. simpl. rewrite extract_args_get; [done|].
    intros s Hs. pose proof (keyword_names_unique _ _ _ _ Hnd Hin Hs) as ->.
    done. }
  split; [done|]. split.
  { subst r tag. simpl. rewrite extract_args_warnings.
    rewrite (count_fmap_inj _ _ _ dynamic_argument_warning_inj).
    apply count_unique.
    - eapply sublist_NoDup; [done|apply dynamic_arguments_sublist].
    - apply dynamic_arguments_elem. by exists value. }
  split.
  - intros func_node Hfind s. subst s. unfold _extract_step_metadata.
    rewrite Hfind. fold r. simpl. rewrite app_nil_r. split; [done|].
    unfold dict_get_default. split; intros ->; by rewrite Hget.
  - intros V all_steps class_node Hfind. unfold _extract_class_flow.
    rewrite (find_some_existsb _ _ _ Hfind : _has_flow_decorator class_node = true).
    simpl. rewrite Hfind. fold r. eexists _, _. split; [reflexivity|].
    simpl. unfold dict_get_default. split; intros ->; by rewrite Hget.
Qed.

(** [dynamic_argument_falls_back] on [@step(name=TITLE, description="Pay")]. *)
Lemma dynamic_argument_witness :
  (Some "name", Name "TITLE") ∈ dynamic_keywords
  ∧ is_constant (Name "TITLE") = false
  ∧ NoDup (keyword_names dynamic_keywords)
  ∧ dict_get "name"
      (_extract_decorator_args (Call (Name "step") [] dynamic_keywords 1)).1
    = None
  ∧ length (filter (λ w, w = dynamic_argument_warning "name")
      (_extract_decorator_args (Call (Name "step") [] dynamic_keywords 1)).2)
    = 1.
Proof.
  assert ((Some "name", Name "TITLE") ∈ dynamic_keywords) as Hin by left.
  assert (NoDup (keyword_names dynamic_keywords)) as Hnd
    by (apply NoDup_cons; split;
        [by intros ?%list_elem_of_singleton|apply NoDup_singleton]).
  split; [exact Hin|]. split; [reflexivity|]. split; [exact Hnd|].
  destruct (dynamic_argument_falls_back (Name "step") [] dynamic_keywords 1
              "name" (Name "TITLE") Hin eq_refl Hnd) as (Hget & Hcount & _).
  split; [exact Hget|exact Hcount].
Defined.

(** The count is per extraction. [parse_file] extracts the arguments of
    a flow's step once; a run over a directory extracts them in the
    first pass, for the registry, and again in the second, for the
    flow. *)
Example directory_extracts_in_each_pass :
  (∃ flows, parse_file shop_file
            = inr (flows, [dynamic_argument_warning "name"]))
  ∧ (parse_directory [shop_file]).2
    = [dynamic_argument_warning "name"; dynamic_argument_warning "name"].
Proof. split; [eexists|]; by vm_compute. Qed.



(** ** Walking a tree *)

Lemma nodes_size_app (l1 l2 : list node) :
  nodes_size (l1 ++ l2) = nodes_size l1 + nodes_size l2.
Proof. apply sum_list_with_app. Qed.

Lemma node_size_children (n : node) :
  node_size n = S (nodes_size (iter_child_nodes n)).
Proof.
  destruct n as [ | | | func args keywords lineno | | | | ? ? ? ? ? [r|] | | ];
    simpl; rewrite ?nodes_size_app; unfold nodes_size; simpl;
    rewrite ?Nat.add_0_r; try done.
  do 3 f_equal. induction keywords as [|kw keywords IH]; simpl; [done|by rewrite IH].
Qed.

Lemma node_size_pos (n : node) : 0 < node_size n.
Proof. rewrite node_size_children. lia. Qed.

Lemma descendant_cases (n m : node) :
  descendant n m ↔ m = n ∨ ∃ c, c ∈ iter_child_nodes n ∧ descendant c m.
Proof.
  split.
  - intros [|? c ? Hc Hd]; [by left|right; by exists c].
  - intros [->|(c & Hc & Hd)]; [constructor|by econstructor].
Qed.

(** With fuel for every node in the queue, the walk yields exactly the
    nodes of the queued trees. *)
Lemma walk_queue_fuel (fuel : nat) (todo : list node) (m : node) :
  nodes_size todo ≤ fuel →
  m ∈ walk_queue fuel todo ↔ ∃ n, n ∈ todo ∧ descendant n m.
Proof.
  revert todo. induction fuel as [|fuel IH]; intros [|n todo] Hfuel; simpl.
  - split; [by intros ?%elem_of_nil|by intros (? & ?%elem_of_nil & _)].
  - unfold nodes_size in Hfuel. simpl in Hfuel. pose proof (node_size_pos n). lia.
  - split; [by intros ?%elem_of_nil|by intros (? & ?%elem_of_nil & _)].
  - rewrite elem_of_cons, IH.
    + split.
      * intros [->|(x & [Hx|Hx]%elem_of_app & Hd)].
        -- exists n. split; [by left|constructor].
        -- exists x. split; [by right|done].
        -- exists n. split; [by left|by econstructor].
      * intros (x & [->|Hx]%elem_of_cons & Hd).
        -- apply descendant_cases in Hd as [->|(c & Hc & Hd)]; [by left|].
           right. exists c. split; [apply elem_of_app; by right|done].
        -- right. exists x. split; [apply elem_of_app; by left|done].
    + rewrite nodes_size_app. unfold nodes_size in *. simpl in Hfuel.
      pose proof (node_size_children n) as Hn. unfold nodes_size in Hn. lia.
Qed.

Lemma walk_occurs (tree : module) (m : node) : m ∈ walk tree ↔ occurs_in tree m.
Proof. unfold walk, occurs_in. by apply walk_queue_fuel. Qed.

(** ** Collecting steps *)

Lemma is_step_decorator_tag (d : node) : _is_step_decorator d = true ↔ step_tag d.
Proof.
  split.
  - destruct d as [id| | |func args keywords lineno| | | | | | ]; simpl; try done.
    + intros ?%bool_decide_eq_true. by constructor.
    + destruct func; try done; intros ?%bool_decide_eq_true; by constructor.
  - intros [id Hid|id args keywords lineno Hid|value attr args keywords lineno Hid];
      simpl; by apply bool_decide_eq_true.
Qed.

Lemma has_step_decorator_tagged (n : node) :
  is_function_def n && _has_step_decorator n = true ↔ tagged_function n.
Proof.
  unfold tagged_function, _has_step_decorator.
  rewrite andb_true_iff, existsb_exists.
  split; intros [Hf (d & Hd & Htag)]; (split; [done|exists d]).
  - by rewrite list_elem_of_In, <- is_step_decorator_tag.
  - by rewrite <- list_elem_of_In, is_step_decorator_tag.
Qed.

(** The keys of the collected dictionary: those already there, and the
    names of the tagged functions among the nodes. Every value is stored
    under its own name. *)
Lemma collect_loop_keys (nodes : list node) (steps : list (string * node)) (k : string) :
  k ∈ (_collect_all_steps_loop nodes steps).*1 ↔
  k ∈ steps.*1 ∨ ∃ n, n ∈ nodes ∧ tagged_function n ∧ node_name n = k.
Proof.
  revert steps. induction nodes as [|n nodes IH]; intros steps; simpl.
  - split; [by left|]. by intros [?|(? & ?%elem_of_nil & _)].
  - rewrite IH. destruct (is_function_def n && _has_step_decorator n) eqn:Hn.
    + apply has_step_decorator_tagged in Hn. rewrite dict_set_keys. split.
      * intros [[->|?]|(x & Hx & ?)]; [right; exists n|by left|right; exists x].
        -- split; [by left|done].
        -- split; [by right|done].
      * intros [?|(x & [->|Hx]%elem_of_cons & Ht & <-)].
        -- left; by right.
        -- left; by left.
        -- right; by exists x.
    + split.
      * intros [?|(x & Hx & ?)]; [by left|right; exists x].
        split; [by right|done].
      * intros [?|(x & [->|Hx]%elem_of_cons & Ht & Hk)]; [by left| |right; by exists x].
        apply has_step_decorator_tagged in Ht. congruence.
Qed.

Lemma collect_loop_keyed (nodes : list node) (steps : list (string * node)) :
  keyed_by_name steps → keyed_by_name (_collect_all_steps_loop nodes steps).
Proof.
  revert steps. induction nodes as [|n nodes IH]; intros steps Hsteps; simpl; [done|].
  apply IH. destruct (is_function_def n && _has_step_decorator n); [|done].
  intros k x [[= -> ->]|?]%dict_set_elem; [done|by apply Hsteps].
Qed.

Lemma collect_all_steps_keyed (tree : module) : keyed_by_name (_collect_all_steps tree).
Proof. apply collect_loop_keyed. by intros ? ? ?%elem_of_nil. Qed.

Lemma collect_loop_nil_keyed (nodes : list node) :
  keyed_by_name (_collect_all_steps_loop nodes []).
Proof. apply collect_loop_keyed. by intros ? ? ?%elem_of_nil. Qed.

(** The collected step names of a module are the names of the tagged
    functions that occur in it. *)
Lemma collect_all_steps_keys (tree : module) (k : string) :
  k ∈ (_collect_all_steps tree).*1 ↔
  ∃ f, occurs_in tree f ∧ tagged_function f ∧ node_name f = k.
Proof.
  unfold _collect_all_steps. rewrite collect_loop_keys. split.
  - intros [?%elem_of_nil|(f & Hf & ?)]; [done|]. exists f. by rewrite <- walk_occurs.
  - intros (f & Hf & ?). right. exists f. by rewrite walk_occurs.
Qed.

(** Every function that carries an accepted step tag, wherever it
    occurs in the file, is collected. *)
Lemma tagged_function_collected (tree : module) (f : node) :
  occurs_in tree f → tagged_function f →
  node_name f ∈ (_collect_all_steps tree).*1.
Proof. intros. apply collect_all_steps_keys. by exists f. Qed.

(** C3, at the failing input. In [clash_module] the top-level function
    [notify] carries no tag, but its name is a key of the collected
    steps, because the method [Orders.notify] is tagged. The membership
    test by name in [_extract_function_steps] lets it through, and the
    implicit flow of the file lists it as a step. *)
Theorem untagged_function_becomes_step :
  plain_notify ∈ clash_module
  ∧ ¬ tagged_function plain_notify
  ∧ _extract_function_steps clash_module (_collect_all_steps clash_module)
    = [plain_notify]
  ∧ parse_file clash_file
    = inr ([ mkFlowData "Orders" "class"
               [mkStepData "Notify customer" "notify" "" None []] [] "";
             mkFlowData "Function Flow" "function"
               [mkStepData "notify" "notify" "" None []] []
               "Flow derived from standalone function" ],
           []).
Proof.
  split; [by right; left|]. split.
  - intros [_ (d & Hd & _)]. by apply elem_of_nil in Hd.
  - split; by vm_compute.
Qed.

(** ** Flows *)

Lemma extract_step_metadata_function_name (func_node : node) :
  function_name (_extract_step_metadata func_node).1 = node_name func_node.
Proof.
  unfold _extract_step_metadata.
  by destruct (List.find _ (node_decorator_list func_node)).
Qed.

Lemma assemble_ok (known : gset string) (items : list (string * node))
    (steps : list StepData) (es : list Edge) :
  keyed_by_name items →
  let r := (_assemble known items steps es).1 in
  function_name <$> r.1 = (function_name <$> steps) ++ items.*1
  ∧ ∀ e, e ∈ r.2 → e ∈ es ∨ (from_step e ∈ items.*1 ∧ to_step e ∈ known).
Proof.
  revert steps es. induction items as [|[method_name method_node] items IH];
    intros steps es Hkeyed; simpl.
  - rewrite app_nil_r. split; [done|]. by left.
  - rewrite ?wbind_fst.
    destruct (IH (steps ++ [set_calls (_find_step_calls method_node known)
                              (_extract_step_metadata method_node).1])
                 (es ++ ((λ call, mkEdge method_name (to_step call) (branch call) None)
                           <$> _find_step_calls method_node known)))
      as [Hids Hedges].
    { intros k n Hkn. apply Hkeyed. by right. }
    split.
    + rewrite Hids, fmap_app. simpl.
      rewrite extract_step_metadata_function_name, <- app_assoc. simpl.
      by rewrite <- (Hkeyed method_name method_node) by left.
    + intros e [[He|He]%elem_of_app|[Hfrom Hto]]%Hedges.
      * by left.
      * right. apply list_elem_of_fmap in He as (call & -> & Hcall). simpl.
        split; [by left|]. by eapply find_step_calls_known.
      * right. split; [by right|done].
Qed.

Lemma extract_class_flow_ok {V} (class_node : node) (all_steps : list (string * V))
    (flow : FlowData) :
  (_extract_class_flow class_node all_steps).1 = Some flow →
  flow_ok (key_set all_steps) flow.
Proof.
  unfold _extract_class_flow.
  destruct (negb (_has_flow_decorator class_node)); [done|].
  rewrite ?wbind_fst. simpl. intros [= <-]. unfold flow_ok, step_ids; simpl.
  destruct (assemble_ok (key_set all_steps)
              (_collect_all_steps_loop (node_body class_node) []) [] [])
    as [Hids Hedges]; [apply collect_loop_nil_keyed|].
  rewrite Hids. intros e [?%elem_of_nil|?]%Hedges; done.
Qed.

Lemma class_flows_ok {V} (body : list node) (all_steps : list (string * V))
    (flow : FlowData) :
  flow ∈ (_class_flows body all_steps).1 → flow_ok (key_set all_steps) flow.
Proof.
  induction body as [|n body IH]; simpl; [by intros ?%elem_of_nil|].
  destruct (is_class_def n); [|done].
  rewrite ?wbind_fst. simpl. intros [Hflow|?]%elem_of_app; [|by apply IH].
  destruct (_extract_class_flow n all_steps).1 as [flow'|] eqn:Hn;
    simpl in Hflow; [|by apply elem_of_nil in Hflow].
  apply list_elem_of_singleton in Hflow as ->. by eapply extract_class_flow_ok.
Qed.

Lemma function_flow_ok {V W} (tree : module) (local_steps : list (string * V))
    (all_steps : list (string * W)) (flow : FlowData) :
  flow ∈ (_function_flow tree local_steps all_steps).1 →
  flow_ok (key_set all_steps) flow.
Proof.
  unfold _function_flow.
  destruct (_extract_function_steps tree local_steps) as [|f fs];
    [by intros ?%elem_of_nil|].
  generalize (f :: fs). intros function_steps.
  rewrite wbind_fst. intros ->%list_elem_of_singleton.
  unfold _create_function_flow. rewrite wbind_fst.
  destruct (assemble_ok (key_set all_steps)
              ((λ f, (node_name f, f)) <$> function_steps) [] [])
    as [Hids Hedges].
  { intros k n (x & [= -> ->] & _)%list_elem_of_fmap. done. }
  unfold flow_ok, step_ids, edges_ok. cbn [wret fst snd steps edges].
  rewrite Hids. intros e [?%elem_of_nil|?]%Hedges; done.
Qed.

(** In a single file every edge starts at a step of its flow and ends at
    a step collected in the file. *)
Lemma parse_file_edges (file : source_file) (tree : module)
    (r : Warn (list FlowData)) (flow : FlowData) (e : Edge) :
  content file = Parses tree →
  parse_file file = inr r → flow ∈ r.1 → e ∈ edges flow →
  from_step e ∈ step_ids flow ∧ to_step e ∈ (_collect_all_steps tree).*1.
Proof.
  unfold parse_file. intros -> [= <-]. rewrite ?wbind_fst. simpl.
  intros [Hflow|Hflow]%elem_of_app He.
  - apply class_flows_ok in Hflow. destruct (Hflow e He) as [? ?%key_set_elem]. done.
  - apply function_flow_ok in Hflow. destruct (Hflow e He) as [? ?%key_set_elem]. done.
Qed.

Lemma combine_steps_keys (registered : list StepData)
    (combined_steps : list (string * option node)) (k : string) :
  k ∈ (_combine_steps registered combined_steps).*1 ↔
  k ∈ combined_steps.*1 ∨ k ∈ function_name <$> registered.
Proof.
  revert combined_steps. induction registered as [|s registered IH];
    intros combined_steps; simpl.
  - split; [by left|]. by intros [?|?%elem_of_nil].
  - rewrite IH, elem_of_cons. unfold dict_mem. case_bool_decide as Hs.
    + split; [intros [?|?]; [by left|right; by right]|].
      intros [?|[->|?]]; [by left|by left|by right].
    + rewrite dict_set_keys. split.
      * intros [[->|?]|?]; [right; by left|by left|right; by right].
      * intros [?|[->|?]]; [left; by right|left; by left|by right].
Qed.

Lemma parse_tree_with_registry_edges (tree : module) (registry : StepRegistry)
    (flow : FlowData) (e : Edge) :
  flow ∈ (_parse_tree_with_registry tree registry).1 → e ∈ edges flow →
  from_step e ∈ step_ids flow
  ∧ (to_step e ∈ (_collect_all_steps tree).*1
     ∨ to_step e ∈ function_name <$> all_steps registry).
Proof.
  unfold _parse_tree_with_registry. rewrite ?wbind_fst. simpl.
  assert (∀ k, k ∈ key_set (_combine_steps (all_steps registry)
                              (prod_map id Some <$> _collect_all_steps tree)) →
               k ∈ (_collect_all_steps tree).*1
               ∨ k ∈ function_name <$> all_steps registry) as Hkeys.
  { intros k [Hk|Hk]%key_set_elem%combine_steps_keys; [left|by right].
    by rewrite dict_copy_keys in Hk. }
  intros [Hflow|Hflow]%elem_of_app He.
  - apply class_flows_ok in Hflow. destruct (Hflow e He). auto.
  - apply function_flow_ok in Hflow. destruct (Hflow e He). auto.
Qed.

(** *** The flows of a file *)

Lemma extract_class_flow_some {V} (class_node : node) (all_steps : list (string * V)) :
  is_Some (_extract_class_flow class_node all_steps).1
  ↔ _has_flow_decorator class_node = true.
Proof.
  unfold _extract_class_flow.
  destruct (_has_flow_decorator class_node); simpl.
  - split; [done|]. intros _. by eexists.
  - split; [by intros [? ?]|done].
Qed.

(** One flow per flow container, in source order. *)
Lemma class_flows_count {V} (body : list node) (all_steps : list (string * V)) :
  length (_class_flows body all_steps).1 = length (flow_containers body).
Proof.
  unfold flow_containers.
  induction body as [|n body IH]; simpl; [done|].
  destruct (is_class_def n); simpl; [|done].
  rewrite length_app, IH.
  pose proof (extract_class_flow_some n all_steps) as Hn.
  destruct (_has_flow_decorator n); simpl.
  - destruct (proj2 Hn eq_refl) as [flow ->]. done.
  - destruct (_extract_class_flow n all_steps).1 as [flow|] eqn:E; [|done].
    by destruct Hn as [Hn _]; discriminate Hn.
Qed.

(** At most one implicit flow, present exactly when there are function
    steps. *)
Lemma function_flow_count {V W} (tree : module) (local_steps : list (string * V))
    (all_steps : list (string * W)) :
  length (_function_flow tree local_steps all_steps).1
  = match _extract_function_steps tree local_steps with
    | [] => 0
    | _ :: _ => 1
    end.
Proof.
  unfold _function_flow.
  by destruct (_extract_function_steps tree local_steps).
Qed.

(** Every step-tagged top-level function is a function step. *)
Lemma tagged_function_is_function_step (tree : module) (f : node) :
  f ∈ tagged_top_level_functions tree →
  f ∈ _extract_function_steps tree (_collect_all_steps tree).
Proof.
  unfold tagged_top_level_functions, _extract_function_steps.
  rewrite !list_elem_of_In, !List.filter_In, <- !list_elem_of_In.
  intros [Hf Htag]. split; [done|].
  pose proof Htag as [Hdef _]%andb_true_iff. rewrite Hdef. simpl.
  apply bool_decide_eq_true, tagged_function_collected.
  - exists f. split; [done|constructor].
  - by apply has_step_decorator_tagged.
Qed.

(** Where no plain top-level function shares its name with a step, the
    function steps are the step-tagged top-level functions. *)
Lemma function_steps_without_clash (tree : module) :
  (∀ f, f ∈ tree → is_function_def f = true →
        node_name f ∈ (_collect_all_steps tree).*1 →
        _has_step_decorator f = true) →
  _extract_function_steps tree (_collect_all_steps tree)
  = tagged_top_level_functions tree.
Proof.
  intros Hclash. unfold _extract_function_steps, tagged_top_level_functions.
  apply List.filter_ext_in. intros f Hf%list_elem_of_In.
  destruct (is_function_def f) eqn:Hdef; simpl; [|done].
  unfold dict_mem. case_bool_decide as Hname.
  - symmetry. by apply Hclash.
  - destruct (_has_step_decorator f) eqn:Htag; [|done].
    destruct Hname. apply tagged_function_collected.
    + exists f. split; [done|constructor].
    + apply has_step_decorator_tagged. by rewrite Hdef, Htag.
Qed.

Lemma parse_file_flow_count (file : source_file) (tree : module) :
  content file = Parses tree →
  ∃ r, parse_file file = inr r
    ∧ length r.1
      = length (flow_containers tree)
        + match _extract_function_steps tree (_collect_all_steps tree) with
          | [] => 0
          | _ :: _ => 1
          end.
Proof.
  intros Hc. unfold parse_file. rewrite Hc. eexists. split; [done|].
  rewrite !wbind_fst. simpl.
  by rewrite length_app, class_flows_count, function_flow_count.
Qed.

(** C7, at the failing input. [helper_module] has no flow container and
    no step-tagged top-level function, yet parsing it yields a flow: the
    plain function [audit] shares its name with a tagged method of the
    untagged class [Helper] and becomes the only step of an implicit
    flow. *)
Theorem implicit_flow_without_tagged_function :
  flow_containers helper_module = []
  ∧ tagged_top_level_functions helper_module = []
  ∧ parse_file helper_file
    = inr ([ mkFlowData "Function Flow" "function"
               [mkStepData "audit" "audit" "" None []] []
               "Flow derived from standalone function" ],
           []).
Proof. repeat split; by vm_compute. Qed.

(** ** A directory *)

Lemma collected_ids_elem (files : list source_file) (k : string) :
  k ∈ collected_ids files ↔
  ∃ file tree, file ∈ files ∧ content file = Parses tree
               ∧ k ∈ (_collect_all_steps tree).*1.
Proof.
  unfold collected_ids. rewrite elem_of_flat_map. split.
  - intros (file & Hfile & Hk). destruct (content file) as [tree| |] eqn:Hc.
    + by exists file, tree.
    + by apply elem_of_nil in Hk.
    + by apply elem_of_nil in Hk.
  - intros (file & tree & Hfile & Hc & Hk). exists file. by rewrite Hc.
Qed.

Lemma register_steps_names (module_path : string) (func_nodes : list node)
    (registry : StepRegistry) (s : StepData) :
  s ∈ all_steps (_register_steps module_path func_nodes registry).1 →
  s ∈ all_steps registry ∨ function_name s ∈ node_name <$> func_nodes.
Proof.
  revert registry. induction func_nodes as [|f func_nodes IH]; intros registry; simpl.
  - by left.
  - intros [Hs|Hs]%IH; [|right; by right].
    unfold all_steps, register in Hs. simpl in Hs.
    apply dict_set_values in Hs as [->|Hs]; [right|by left].
    rewrite extract_step_metadata_function_name. by left.
Qed.

Lemma collected_value_names (tree : module) (n : node) :
  n ∈ (_collect_all_steps tree).*2 →
  node_name n ∈ (_collect_all_steps tree).*1.
Proof.
  intros ([k n'] & -> & Hkn)%list_elem_of_fmap. simpl.
  rewrite <- (collect_all_steps_keyed tree k n' Hkn).
  apply list_elem_of_fmap. by exists (k, n').
Qed.

(** *** The first pass *)

Lemma passed_nil (registry : StepRegistry) (file_asts : list (string * module)) :
  passed [] registry file_asts = (registry, file_asts).
Proof. done. Qed.

Lemma first_pass_parsing_inr (files : list source_file)
    (registry : StepRegistry) (file_asts : list (string * module)) :
  ∃ r, (_first_pass (parsing_files files) registry file_asts).1 = inr r.
Proof.
  revert registry file_asts. induction files as [|file files IH];
    intros registry file_asts; [by eexists|].
  unfold parsing_files. simpl.
  destruct (content file) as [tree| |] eqn:Hc; [|apply IH..].
  simpl. rewrite Hc, wbind_fst. apply IH.
Qed.

Lemma passed_parses (file : source_file) (files : list source_file)
    (registry : StepRegistry) (file_asts : list (string * module))
    (tree : module) :
  content file = Parses tree →
  passed (file :: files) registry file_asts
  = passed files
      (_register_steps (_path_to_module file) (_collect_all_steps tree).*2
         registry).1
      (dict_set (file_path file) tree file_asts).
Proof.
  intros Hc. unfold passed. unfold parsing_files at 1. simpl. rewrite Hc.
  fold (parsing_files files). simpl. rewrite Hc, wbind_fst.
  by destruct (first_pass_parsing_inr files
                 (_register_steps (_path_to_module file)
                    (_collect_all_steps tree).*2 registry).1
                 (dict_set (file_path file) tree file_asts)) as [x ->].
Qed.

Lemma passed_skips (file : source_file) (files : list source_file)
    (registry : StepRegistry) (file_asts : list (string * module)) :
  (∀ tree, content file ≠ Parses tree) →
  passed (file :: files) registry file_asts = passed files registry file_asts.
Proof.
  intros Hc. unfold passed, parsing_files. simpl.
  destruct (content file) as [tree| |]; [by destruct (Hc tree)|done|done].
Qed.

Lemma first_pass_parsing (files : list source_file) (registry : StepRegistry)
    (file_asts : list (string * module)) :
  (_first_pass (parsing_files files) registry file_asts).1
  = inr (passed files registry file_asts).
Proof.
  revert registry file_asts. induction files as [|file files IH];
    intros registry file_asts; [done|].
  destruct (content file) as [tree| |] eqn:Hc.
  - rewrite (passed_parses _ _ _ _ tree Hc). unfold parsing_files. simpl.
    rewrite Hc. simpl. rewrite Hc, wbind_fst. apply IH.
  - rewrite passed_skips by (intros ?; by rewrite Hc). unfold parsing_files. simpl.
    rewrite Hc. apply IH.
  - rewrite passed_skips by (intros ?; by rewrite Hc). unfold parsing_files. simpl.
    rewrite Hc. apply IH.
Qed.

Lemma first_pass_returns (files : list source_file) (registry : StepRegistry)
    (file_asts : list (string * module)) :
  first_failure files = None →
  (_first_pass files registry file_asts).1
  = inr (passed files registry file_asts).
Proof.
  revert registry file_asts. induction files as [|file files IH];
    intros registry file_asts; [done|]. simpl.
  destruct (content file) as [tree| |] eqn:Hc; [| |done]; intros Hnone.
  - rewrite (passed_parses _ _ _ _ tree Hc), wbind_fst. by apply IH.
  - rewrite passed_skips by (intros ?; by rewrite Hc). rewrite wbind_fst. by apply IH.
Qed.

Lemma first_pass_raises (files : list source_file) (registry : StepRegistry)
    (file_asts : list (string * module)) (e : exception) :
  first_failure files = Some e →
  (_first_pass files registry file_asts).1 = inl e.
Proof.
  revert registry file_asts. induction files as [|file files IH];
    intros registry file_asts; [done|]. simpl.
  destruct (content file) as [tree| |] eqn:Hc; intros Hsome.
  - rewrite wbind_fst. by apply IH.
  - rewrite wbind_fst. by apply IH.
  - by injection Hsome as ->.
Qed.

Lemma parse_directory_returns (files : list source_file) :
  first_failure files = None →
  (parse_directory files).1
  = inr (_second_pass (passed files empty_registry []).2 (registry_of files)).1.
Proof.
  intros Hnone. unfold parse_directory, registry_of. rewrite wbind_fst.
  rewrite first_pass_returns by done.
  destruct (passed files empty_registry []) as [registry file_asts].
  by rewrite wbind_fst.
Qed.

Lemma parse_directory_raises (files : list source_file) (e : exception) :
  first_failure files = Some e → (parse_directory files).1 = inl e.
Proof.
  intros Hsome. unfold parse_directory. rewrite wbind_fst.
  by rewrite (first_pass_raises _ _ _ e).
Qed.

Lemma returned_flows (files : list source_file) (flow : FlowData) :
  flow ∈ returned (parse_directory files) →
  flow ∈ (_second_pass (passed files empty_registry []).2
            (registry_of files)).1.
Proof.
  unfold returned. destruct (first_failure files) as [e|] eqn:Hfirst.
  - rewrite (parse_directory_raises files e Hfirst). by intros ?%elem_of_nil.
  - by rewrite parse_directory_returns.
Qed.

Lemma first_pass_invariant (files : list source_file) (registry : StepRegistry)
    (file_asts : list (string * module)) :
  let r := passed files registry file_asts in
  (∀ s, s ∈ all_steps r.1 →
        s ∈ all_steps registry ∨ function_name s ∈ collected_ids files)
  ∧ (∀ p t, (p, t) ∈ r.2 →
        (p, t) ∈ file_asts ∨ ∃ file, file ∈ files ∧ content file = Parses t).
Proof.
  revert registry file_asts. induction files as [|file files IH];
    intros registry file_asts.
  - split; intros; by left.
  - assert (∀ r a,
      (∀ tree, content file ≠ Parses tree) →
      (∀ s, s ∈ all_steps (passed files r a).1 →
            s ∈ all_steps r ∨ function_name s ∈ collected_ids (file :: files))
      ∧ (∀ p t, (p, t) ∈ (passed files r a).2 →
            (p, t) ∈ a
            ∨ ∃ f, f ∈ file :: files ∧ content f = Parses t)) as Hskip.
    { intros r a Hc. destruct (IH r a) as [Hreg Hasts]. split.
      - intros s [Hs|Hs]%Hreg; [by left|right].
        unfold collected_ids. simpl. apply elem_of_app. by right.
      - intros p t [?|(f & ? & ?)]%Hasts; [by left|right].
        exists f. split; [by right|done]. }
    destruct (content file) as [tree| |] eqn:Hc; simpl.
    + rewrite (passed_parses _ _ _ _ tree Hc).
      destruct (IH (_register_steps (_path_to_module file)
                      (_collect_all_steps tree).*2 registry).1
                   (dict_set (file_path file) tree file_asts)) as [Hreg Hasts].
      split.
      * intros s [[Hs|Hs]%register_steps_names|Hs]%Hreg.
        -- by left.
        -- right. unfold collected_ids. simpl. rewrite Hc.
           apply elem_of_app. left.
           apply list_elem_of_fmap in Hs as (n & -> & Hn).
           by apply collected_value_names.
        -- right. unfold collected_ids. simpl. apply elem_of_app. by right.
      * intros p t [[[= -> ->]|?]%dict_set_elem|(f & ? & ?)]%Hasts.
        -- right. exists file. split; [by left|done].
        -- by left.
        -- right. exists f. split; [by right|done].
    + rewrite passed_skips by (intros ?; by rewrite Hc). by apply Hskip.
    + rewrite passed_skips by (intros ?; by rewrite Hc). by apply Hskip.
Qed.

Lemma second_pass_flows (file_asts : list (string * module))
    (registry : StepRegistry) (flow : FlowData) :
  flow ∈ (_second_pass file_asts registry).1 ↔
  ∃ p t, (p, t) ∈ file_asts ∧ flow ∈ (_parse_tree_with_registry t registry).1.
Proof.
  induction file_asts as [|[p t] file_asts IH]; simpl.
  - split; [by intros ?%elem_of_nil|by intros (? & ? & ?%elem_of_nil & _)].
  - rewrite elem_of_app, IH. split.
    + intros [?|(p' & t' & ? & ?)]; [exists p, t|exists p', t'].
      * split; [by left|done].
      * split; [by right|done].
    + intros (p' & t' & [[= -> ->]|?]%elem_of_cons & ?); [by left|right].
      by exists p', t'.
Qed.

(** C4 fails for a call into another flow of the same file. In a run
    over [billing_file] alone, the flow [Billing] has the edge
    [charge → send_receipt]; [send_receipt] is a top-level step of the
    same file, so it is neither a step of [Billing] nor a step of
    another file. *)
Lemma edge_to_step_of_other_flow :
  billing_flow ∈ returned (parse_directory [billing_file])
  ∧ billing_edge ∈ edges billing_flow
  ∧ (to_step billing_edge ∉ step_ids billing_flow)
  ∧ (to_step billing_edge
     ∉ collected_ids (other_files (file_path billing_file) [billing_file])).
Proof.
  split; [vm_compute; left|]. split; [left|]. split.
  - by intros ?%list_elem_of_singleton.
  - vm_compute. by intros ?%elem_of_nil.
Qed.

(** C4, as amended. In every flow that a run returns, every edge starts
    at a step of that flow and ends at the identifier of a step-tagged
    function collected in a file of the run that parses: the flow's own
    file (a step of this flow, of another flow of the file, or of none)
    or another file. *)
Theorem edge_endpoints_are_known_steps (files : list source_file)
    (flow : FlowData) (e : Edge) :
  flow ∈ returned (parse_directory files) → e ∈ edges flow →
  from_step e ∈ step_ids flow ∧ to_step e ∈ collected_ids files.
Proof.
  intros Hflow%returned_flows He. unfold registry_of in Hflow.
  apply second_pass_flows in Hflow as (p & t & Hpt & Hflow).
  destruct (first_pass_invariant files empty_registry []) as [Hreg Hasts].
  destruct (parse_tree_with_registry_edges _ _ _ _ Hflow He) as [Hfrom Hto].
  split; [done|]. destruct Hto as [Hto|Hto].
  - apply Hasts in Hpt as [?%elem_of_nil|(file & Hfile & Hc)]; [done|].
    apply collected_ids_elem. by exists file, t.
  - apply list_elem_of_fmap in Hto as (s & -> & Hs).
    by apply Hreg in Hs as [?%elem_of_nil|?].
Qed.

(** [edge_endpoints_are_known_steps] on the run over [billing_file]. *)
Lemma edge_endpoints_witness :
  billing_flow ∈ returned (parse_directory [billing_file])
  ∧ billing_edge ∈ edges billing_flow
  ∧ from_step billing_edge ∈ step_ids billing_flow
  ∧ to_step billing_edge ∈ collected_ids [billing_file].
Proof.
  assert (billing_flow ∈ returned (parse_directory [billing_file])) as Hflow
    by (vm_compute; left).
  assert (billing_edge ∈ edges billing_flow) as Hedge by left.
  split; [exact Hflow|]. split; [exact Hedge|].
  exact (edge_endpoints_are_known_steps [billing_file] billing_flow billing_edge
           Hflow Hedge).
Defined.

(** *** Files that do not parse *)

Lemma first_pass_warnings (files : list source_file) (registry : StepRegistry)
    (file_asts : list (string * module)) (w : string) :
  first_failure files = None →
  w ∈ parse_warnings files → w ∈ (_first_pass files registry file_asts).2.
Proof.
  revert registry file_asts. induction files as [|file files IH];
    intros registry file_asts; simpl; [done|].
  unfold parse_warnings. simpl.
  destruct (content file) as [tree| |]; simpl; [| |done]; intros Hnone.
  - intros Hw. apply elem_of_app. right. by apply IH.
  - intros [->|Hw]%elem_of_cons; [by left|right]. by apply IH.
Qed.

Lemma first_pass_trees (files : list source_file) (registry : StepRegistry)
    (file_asts : list (string * module)) :
  NoDup (file_asts.*1 ++ (parsed_trees files).*1) →
  (passed files registry file_asts).2 = file_asts ++ parsed_trees files.
Proof.
  revert registry file_asts. induction files as [|file files IH];
    intros registry file_asts.
  - intros _. simpl. by rewrite app_nil_r.
  - unfold parsed_trees. simpl.
    destruct (content file) as [tree| |] eqn:Hc; simpl.
    + intros Hnd. fold (parsed_trees files) in *.
      assert (file_path file ∉ file_asts.*1) as Hfresh.
      { apply NoDup_app in Hnd as (_ & Hnd & _). intros Hin.
        apply (Hnd _ Hin). by left. }
      rewrite (passed_parses _ _ _ _ tree Hc).
      rewrite IH; rewrite dict_set_fresh by done.
      * by rewrite <- app_assoc.
      * rewrite fmap_app, <- app_assoc. done.
    + rewrite passed_skips by (intros ?; by rewrite Hc). apply IH.
    + rewrite passed_skips by (intros ?; by rewrite Hc). apply IH.
Qed.

Lemma parsed_trees_paths (files : list source_file) :
  sublist (parsed_trees files).*1 (file_path <$> files).
Proof.
  unfold parsed_trees. induction files as [|file files IH]; simpl; [done|].
  destruct (content file); simpl;
    [by apply sublist_skip|by apply sublist_cons..].
Qed.

Lemma second_pass_flat_map (file_asts : list (string * module))
    (registry : StepRegistry) :
  (_second_pass file_asts registry).1
  = flat_map (λ pt, (_parse_tree_with_registry pt.2 registry).1) file_asts.
Proof.
  induction file_asts as [|[p t] file_asts IH]; simpl; [done|]. by rewrite IH.
Qed.

Lemma flat_map_parsed_trees {B} (f : module → list B) (files : list source_file) :
  flat_map (λ pt, f pt.2) (parsed_trees files)
  = flat_map (λ file, match content file with
                      | Parses tree => f tree
                      | _ => []
                      end) files.
Proof.
  unfold parsed_trees. induction files as [|file files IH]; simpl; [done|].
  destruct (content file); simpl; by rewrite IH.
Qed.

Lemma parsing_files_idemp (files : list source_file) :
  parsing_files (parsing_files files) = parsing_files files.
Proof.
  unfold parsing_files. induction files as [|file files IH]; simpl; [done|].
  destruct (content file) eqn:Hc; simpl; [rewrite Hc|done|done].
  by rewrite IH.
Qed.

Lemma first_failure_parsing (files : list source_file) :
  first_failure (parsing_files files) = None.
Proof.
  unfold parsing_files. induction files as [|file files IH]; simpl; [done|].
  destruct (content file) eqn:Hc; simpl; [by rewrite Hc|done|done].
Qed.

Lemma passed_parsing (files : list source_file) (registry : StepRegistry)
    (file_asts : list (string * module)) :
  passed (parsing_files files) registry file_asts
  = passed files registry file_asts.
Proof. unfold passed. by rewrite parsing_files_idemp. Qed.

(** C8 fails for a file whose text cannot be parsed for another reason
    than a syntax error. In a run over [billing_file] and [nul_file],
    whose text holds a NUL character, [ast.parse] raises [ValueError],
    which no clause catches: the run raises it and returns no flow,
    although the run over [billing_file] alone returns the flow
    [Billing]. *)
Lemma nul_character_aborts_run :
  content nul_file
  = Fails (ValueError "source code string cannot contain null bytes")
  ∧ (parse_directory [billing_file; nul_file]).1
    = inl (ValueError "source code string cannot contain null bytes")
  ∧ returned (parse_directory [billing_file; nul_file]) = []
  ∧ billing_flow ∈ returned (parse_directory [billing_file]).
Proof.
  split; [done|]. split; [done|]. split; [done|]. vm_compute. left.
Qed.

(** C8, as amended. A run over a directory in which no file raises
    anything but a syntax error returns: its flows and its registry are
    those of the run over the files that parse; with distinct paths the
    flows are, file by file in order, the flows of every file that
    parses, resolved against that registry; and its warnings hold the
    [Cannot parse] message of each file with a syntax error, which is
    skipped. A run in which reading or parsing a file raises another
    exception raises the exception of the first such file and returns
    nothing. [parse_file] raises [SyntaxError] with the [Cannot parse]
    message on a file with a syntax error, and lets every other
    exception pass. *)
Theorem unparsable_file_is_skipped (files : list source_file) :
  match first_failure files with
  | None =>
      (∃ flows,
         (parse_directory files).1 = inr flows
         ∧ (parse_directory (parsing_files files)).1 = inr flows
         ∧ (NoDup (file_path <$> files) →
            flows
            = flat_map (λ file,
                match content file with
                | Parses tree =>
                    (_parse_tree_with_registry tree (registry_of files)).1
                | _ => []
                end) files))
      ∧ (∃ file_asts,
           (_first_pass files empty_registry []).1
           = inr (registry_of files, file_asts))
      ∧ (∀ file msg names_file lineno,
           file ∈ files → content file = Malformed msg names_file lineno →
           cannot_parse_message (file_path file)
             (parse_error_text msg names_file lineno (file_path file))
           ∈ (parse_directory files).2)
  | Some e =>
      (parse_directory files).1 = inl e
      ∧ returned (parse_directory files) = []
  end
  ∧ (∀ file,
       match content file with
       | Parses tree => ∃ r, parse_file file = inr r
       | Malformed msg names_file lineno =>
           parse_file file
           = inl (SyntaxError
                    (cannot_parse_message (file_path file)
                       (parse_error_text msg names_file lineno "<unknown>")))
       | Fails e => parse_file file = inl e
       end).
Proof.
  split.
  - destruct (first_failure files) as [e|] eqn:Hfirst.
    + split; [by apply parse_directory_raises|].
      unfold returned. by rewrite (parse_directory_raises files e).
    + split; [|split].
      * eexists. split; [by apply parse_directory_returns|]. split.
        -- rewrite parse_directory_returns by apply first_failure_parsing.
           unfold registry_of. by rewrite !passed_parsing.
        -- intros Hnd. rewrite second_pass_flat_map, first_pass_trees.
           ++ apply (flat_map_parsed_trees
                       (λ tree, (_parse_tree_with_registry tree _).1)).
           ++ eapply sublist_NoDup; [done|apply parsed_trees_paths].
      * rewrite first_pass_returns by done. unfold registry_of.
        destruct (passed files empty_registry []) as [registry file_asts].
        by exists file_asts.
      * intros file msg names_file lineno Hfile Hc.
        unfold parse_directory. rewrite wbind_snd.
        apply elem_of_app. left. apply first_pass_warnings; [done|].
        unfold parse_warnings. apply elem_of_flat_map. exists file.
        split; [done|]. rewrite Hc. by left.
  - intros file. unfold parse_file. destruct (content file); [|done|done].
    by eexists.
Qed.

(** [unparsable_file_is_skipped] on the run over [billing_file] and
    [broken_file], which returns, and on the run over [billing_file],
    [nul_file] and [broken_file], which raises. *)
Lemma unparsable_file_witness :
  (∃ flows,
     (parse_directory [billing_file; broken_file]).1 = inr flows
     ∧ (parse_directory [billing_file]).1 = inr flows)
  ∧ "Cannot parse broken.py: invalid syntax (broken.py, line 1)"
    ∈ (parse_directory [billing_file; broken_file]).2
  ∧ (parse_directory [billing_file; nul_file; broken_file]).1
    = inl (ValueError "source code string cannot contain null bytes")
  ∧ parse_file broken_file
    = inl (SyntaxError
             "Cannot parse broken.py: invalid syntax (<unknown>, line 1)").
Proof.
  pose proof (proj1 (unparsable_file_is_skipped [billing_file; broken_file]))
    as [(flows & Hflows & Hparsing & _) [_ Hwarn]].
  pose proof (proj1 (unparsable_file_is_skipped
                       [billing_file; nul_file; broken_file])) as [Hraise _].
  split; [by exists flows|].
  split; [exact (Hwarn broken_file _ _ _ (list_elem_of_further _ _ _
                   (list_elem_of_here _ _)) eq_refl)|].
  split; [exact Hraise|].
  exact (proj2 (unparsable_file_is_skipped []) broken_file).
Defined.
(** * Further properties *)

(** ** Further properties of the registry *)

Lemma dict_get_Some_elem {V} (k : string) (v : V) (d : list (string * V)) :
  dict_get k d = Some v → (k, v) ∈ d.
Proof.
  induction d as [|[k0 v0] d IH]; simpl; [done|].
  destruct (decide (k0 = k)) as [->|Hne].
  - intros [= ->]. by left.
  - intros ?%IH. by right.
Qed.

Lemma dict_get_None_keys {V} (k : string) (d : list (string * V)) :
  dict_get k d = None ↔ k ∉ d.*1.
Proof.
  induction d as [|[k0 v0] d IH]; simpl.
  - split; [|done]. intros _ ?%elem_of_nil. done.
  - rewrite not_elem_of_cons.
    destruct (decide (k0 = k)) as [->|Hne].
    + split; [done|]. by intros [? _].
    + rewrite IH. split; [by split|by intros [_ ?]].
Qed.

Lemma resolve_suffix_Some (call_name : string) (items : list (string * StepData))
    (s : StepData) :
  _resolve_suffix call_name items = Some s →
  ∃ k, (k, s) ∈ items ∧ ends_with k ("." +:+ call_name) = true.
Proof.
  induction items as [|[qname step] items IH]; simpl; [done|].
  destruct (ends_with qname _) eqn:Hq.
  - intros [= ->]. exists qname. split; [by left|done].
  - intros (k & ? & ?)%IH. exists k. split; [by right|done].
Qed.

Lemma resolve_suffix_None (call_name : string) (items : list (string * StepData)) :
  _resolve_suffix call_name items = None ↔
  ∀ k, k ∈ items.*1 → ends_with k ("." +:+ call_name) = false.
Proof.
  induction items as [|[qname step] items IH]; simpl.
  - split; [|done]. by intros _ k ?%elem_of_nil.
  - destruct (ends_with qname _) eqn:Hq.
    + split; [done|]. intros H. rewrite (H qname) in Hq; [done|by left].
    + rewrite IH. split.
      * intros H k [->|?]%elem_of_cons; [done|by apply H].
      * intros H k ?. apply H. by right.
Qed.

(** X1. [resolve] finds nothing exactly when the called name is no
    registered key and no registered key ends with a dot followed by the
    called name; the calling module plays no part in a failure. *)
Theorem resolve_none_iff (r : StepRegistry) (from_module call_name : string) :
  resolve r from_module call_name = None ↔
  (call_name ∉ (_steps r).*1)
  ∧ ∀ k, k ∈ (_steps r).*1 → ends_with k ("." +:+ call_name) = false.
Proof.
  unfold resolve; cbv zeta. split.
  - destruct (dict_get call_name (_steps r)) eqn:H1; [done|].
    destruct (dict_get (from_module +:+ "." +:+ call_name) (_steps r)) eqn:H2; [done|].
    intros H3. split; [by apply dict_get_None_keys|].
    exact (proj1 (resolve_suffix_None _ _) H3).
  - intros [H1%dict_get_None_keys H3]. rewrite H1.
    destruct (dict_get (from_module +:+ "." +:+ call_name) (_steps r)) as [s|] eqn:H2.
    + apply dict_get_Some_elem in H2.
      assert (ends_with (from_module +:+ "." +:+ call_name) ("." +:+ call_name) = false)
        as Hends.
      { apply H3, list_elem_of_fmap. by eexists (_, s). }
      assert (ends_with (from_module +:+ "." +:+ call_name) ("." +:+ call_name) = true)
        as Hends' by (apply ends_with_spec; by exists from_module).
      congruence.
    + exact (proj2 (resolve_suffix_None _ _) H3).
Qed.

(** X2. A step that [resolve] returns is a registered one: it is kept
    under a key that is the called name or ends with a dot followed by
    the called name.  [resolve] never makes up a step. *)
Theorem resolve_returns_registered (r : StepRegistry)
    (from_module call_name : string) (s : StepData) :
  resolve r from_module call_name = Some s →
  ∃ k, (k, s) ∈ _steps r
       ∧ (k = call_name ∨ ends_with k ("." +:+ call_name) = true).
Proof.
  unfold resolve; cbv zeta.
  destruct (dict_get call_name (_steps r)) as [s1|] eqn:H1.
  - intros [= ->]. exists call_name. split; [by apply dict_get_Some_elem|by left].
  - destruct (dict_get (from_module +:+ "." +:+ call_name) (_steps r)) as [s2|] eqn:H2.
    + intros [= ->]. exists (from_module +:+ "." +:+ call_name).
      split; [by apply dict_get_Some_elem|right].
      apply ends_with_spec. by exists from_module.
    + intros (k & ? & ?)%resolve_suffix_Some. exists k. auto.
Qed.

Lemma resolve_returns_registered_witness :
  resolve nested_registry "x" "c" = Some step_c
  ∧ ∃ k, (k, step_c) ∈ _steps nested_registry
         ∧ (k = "c" ∨ ends_with k ("." +:+ "c") = true).
Proof.
  assert (resolve nested_registry "x" "c" = Some step_c) as Hres
    by reflexivity.
  split; [exact Hres|].
  exact (resolve_returns_registered nested_registry "x" "c" step_c Hres).
Defined.

Lemma has_dot_app (a b : string) : has_dot (a +:+ b) = has_dot a || has_dot b.
Proof.
  induction a as [|c a IH]; simpl; [done|]. by rewrite IH, orb_assoc.
Qed.

Lemma has_dot_qualified (module_path name : string) :
  has_dot (module_path +:+ "." +:+ name) = true.
Proof. rewrite has_dot_app. simpl. by rewrite orb_true_r. Qed.

Lemma built_keys_qualified (r : StepRegistry) :
  built r → ∀ k, k ∈ (_steps r).*1 → has_dot k = true.
Proof.
  induction 1 as [|module_path step r _ IH]; simpl.
  - by intros k ?%elem_of_nil.
  - intros k [->|?]%dict_set_keys; [apply has_dot_qualified|by apply IH].
Qed.

(** X3. Registering and looking up round-trip: in a registry built by
    [register] alone, a step that has just been registered under a module
    is what [resolve] returns for its function name from that module,
    whatever was registered before (the function name holds no dot, as a
    Python identifier). *)
Theorem register_then_resolve (module_path : string) (step : StepData)
    (r : StepRegistry) :
  built r → has_dot (function_name step) = false →
  resolve (register module_path step r) module_path (function_name step)
  = Some step.
Proof.
  intros Hr Hname. unfold resolve; cbv zeta.
  destruct (dict_get (function_name step) _) as [s|] eqn:H1.
  - apply dict_get_Some_elem in H1.
    assert (has_dot (function_name step) = true) as Hdot; [|congruence].
    apply (built_keys_qualified (register module_path step r)).
    + by constructor.
    + apply list_elem_of_fmap. by eexists (_, s).
  - by rewrite register_overwrites.
Qed.

Lemma register_then_resolve_witness :
  built empty_registry
  ∧ has_dot (function_name step_c) = false
  ∧ resolve (register "a.b" step_c empty_registry) "a.b" (function_name step_c)
    = Some step_c.
Proof.
  assert (has_dot (function_name step_c) = false) as Hdot by reflexivity.
  split; [exact built_empty|]. split; [exact Hdot|].
  exact (register_then_resolve "a.b" step_c empty_registry built_empty Hdot).
Defined.

Lemma dict_set_NoDup {V} (k : string) (v : V) (d : list (string * V)) :
  NoDup d.*1 → NoDup (dict_set k v d).*1.
Proof.
  intros Hd. rewrite dict_set_key_order. case_decide as Hk; [done|].
  apply NoDup_app. split; [done|]. split; [|apply NoDup_singleton].
  intros x Hx ->%list_elem_of_singleton. done.
Qed.

(** X4. The two tables of a registry built by [register] agree: no key
    is kept twice, every qualified name listed for a module is a
    registered key that starts with the module's path and a dot, and
    every registered key is listed for some module. *)
Theorem built_registry_index (r : StepRegistry) :
  built r →
  NoDup (_steps r).*1
  ∧ (∀ module_path names q,
       dict_get module_path (_module_steps r) = Some names → q ∈ names →
       q ∈ (_steps r).*1 ∧ ∃ name, q = module_path +:+ "." +:+ name)
  ∧ (∀ q, q ∈ (_steps r).*1 →
       ∃ module_path names,
         dict_get module_path (_module_steps r) = Some names ∧ q ∈ names).
Proof.
  induction 1 as [|m step r _ [Hnd [Hsound Hcomplete]]]; simpl.
  - split; [constructor|]. split; [done|]. by intros q ?%elem_of_nil.
  - split; [by apply dict_set_NoDup|]. split.
    + intros m' names q. rewrite dict_get_set.
      destruct (decide (m = m')) as [<-|Hne].
      * intros [= <-] [Hq|Hq]%elem_of_app;
          [|apply list_elem_of_singleton in Hq as ->].
        -- destruct (dict_get m (_module_steps r)) as [old|] eqn:Hold;
             simpl in Hq; [|by apply elem_of_nil in Hq].
           destruct (Hsound m old q Hold Hq) as [Hkey Hname].
           split; [|done]. apply dict_set_keys. by right.
        -- split; [apply dict_set_keys; by left|by eexists].
      * intros Hget Hq. destruct (Hsound m' names q Hget Hq) as [Hkey Hname].
        split; [|done]. apply dict_set_keys. by right.
    + intros q [->|Hq]%dict_set_keys.
      * exists m, (default [] (dict_get m (_module_steps r))
                   ++ [m +:+ "." +:+ function_name step]).
        split; [by rewrite dict_get_set, decide_True|].
        apply elem_of_app. right. by left.
      * destruct (Hcomplete q Hq) as (m' & names & Hget & Hin).
        destruct (decide (m = m')) as [<-|Hne].
        -- exists m, (default [] (dict_get m (_module_steps r))
                      ++ [m +:+ "." +:+ function_name step]).
           split; [by rewrite dict_get_set, decide_True|].
           rewrite Hget. simpl. apply elem_of_app. by left.
        -- exists m', names. by rewrite dict_get_set, decide_False.
Qed.

Lemma built_registry_index_witness :
  built nested_registry ∧ NoDup (_steps nested_registry).*1.
Proof.
  assert (built nested_registry) as Hbuilt
    by exact (built_register "a.b" step_c empty_registry built_empty).
  split; [exact Hbuilt|].
  exact (proj1 (built_registry_index nested_registry Hbuilt)).
Defined.

(** ** Tag arguments, further *)

Lemma extract_args_unbound (keywords : list (option string * node)) args k :
  k ∉ keyword_names keywords →
  dict_get k (_extract_decorator_args_loop keywords args).1 = dict_get k args.
Proof.
  intros Hk. apply extract_args_get. intros s Hs. apply Hk.
  unfold keyword_names. apply list_elem_of_omap. by eexists (_, _).
Qed.

Lemma keyword_names_app (l1 l2 : list (option string * node)) :
  keyword_names (l1 ++ l2) = keyword_names l1 ++ keyword_names l2.
Proof. unfold keyword_names. apply omap_app. Qed.

(** X5. A keyword argument of a tag whose value is a literal string is
    extracted under its name and never warned about (keyword names being
    distinct); when the tag is the step tag of a function, a literal
    [name] is the step's display name and a literal [description] its
    description. *)
Theorem literal_argument_is_used (func : node) (args : list node)
    (keywords : list (option string * node)) (lineno : nat)
    (arg s : string) :
  NoDup (keyword_names keywords) →
  (Some arg, Constant (CStr s)) ∈ keywords →
  let tag := Call func args keywords lineno in
  let r := _extract_decorator_args tag in
  dict_get arg r.1 = Some s
  ∧ (dynamic_argument_warning arg ∉ r.2)
  ∧ (∀ func_node,
       List.find _is_step_decorator (node_decorator_list func_node) = Some tag →
       (arg = "name" → step_name (_extract_step_metadata func_node).1 = s)
       ∧ (arg = "description" →
          step_description (_extract_step_metadata func_node).1 = s)).
Proof.
  intros Hnd Hin tag r.
  assert (dict_get arg r.1 = Some s) as Hget.
  { subst r tag. simpl.
    apply list_elem_of_split in Hin as (l1 & l2 & ->).
    rewrite keyword_names_app in Hnd. simpl in Hnd.
    apply NoDup_app in Hnd as (_ & Hdisj & [Hl2 _]%NoDup_cons).
    rewrite extract_args_app, wbind_fst. simpl.
    rewrite extract_args_unbound by done.
    rewrite dict_get_set. by rewrite decide_True. }
  split; [done|]. split.
  - subst r tag. simpl. rewrite extract_args_warnings.
    intros (a & Ha%dynamic_argument_warning_inj & Hdyn)%list_elem_of_fmap.
    subst a. apply dynamic_arguments_elem in Hdyn as (v & Hv & Hconst).
    by rewrite <- (keyword_names_unique _ _ _ _ Hnd Hin Hv) in Hconst.
  - intros func_node Hfind. unfold _extract_step_metadata. rewrite Hfind.
    fold r. simpl. unfold dict_get_default.
    split; intros ->; by rewrite Hget.
Qed.

Lemma literal_argument_is_used_witness :
  NoDup (keyword_names dynamic_keywords)
  ∧ (Some "description", Constant (CStr "Pay")) ∈ dynamic_keywords
  ∧ dict_get "description"
      (_extract_decorator_args (Call (Name "step") [] dynamic_keywords 1)).1
    = Some "Pay".
Proof.
  assert (NoDup (keyword_names dynamic_keywords)) as Hnd
    by (apply NoDup_cons; split;
        [by intros ?%list_elem_of_singleton|apply NoDup_singleton]).
  assert ((Some "description", Constant (CStr "Pay")) ∈ dynamic_keywords)
    as Hin by (right; left).
  split; [exact Hnd|]. split; [exact Hin|].
  exact (proj1 (literal_argument_is_used (Name "step") [] dynamic_keywords 1
                  "description" "Pay" Hnd Hin)).
Defined.

Lemma find_app_first {A} (f : A → bool) (pre post : list A) (x : A) :
  (∀ y, y ∈ pre → f y = false) → f x = true →
  List.find f (pre ++ x :: post) = Some x.
Proof.
  intros Hpre Hx. induction pre as [|y pre IH]; simpl; [by rewrite Hx|].
  rewrite (Hpre y) by left. apply IH. intros z Hz. apply Hpre. by right.
Qed.

(** X6. Of the tags of a function only the first step tag counts: the
    metadata and the warnings are those of the function carrying that
    tag alone, whatever tags come before (no step tags) or after it. *)
Theorem first_step_tag_wins (is_async : bool) (name : string)
    (args body pre post : list node) (tag : node) (returns : option node) :
  (∀ d, d ∈ pre → _is_step_decorator d = false) →
  _is_step_decorator tag = true →
  _extract_step_metadata
    (FunctionDef is_async name args body (pre ++ tag :: post) returns)
  = _extract_step_metadata (FunctionDef is_async name args body [tag] returns).
Proof.
  intros Hpre Htag. unfold _extract_step_metadata. simpl.
  rewrite (find_app_first _ pre post tag Hpre Htag). by rewrite Htag.
Qed.

Lemma first_step_tag_wins_witness :
  (∀ d, d ∈ [Name "staticmethod"] → _is_step_decorator d = false)
  ∧ _is_step_decorator (Name "step") = true
  ∧ _extract_step_metadata
      (FunctionDef false "pay" [] []
         ([Name "staticmethod"] ++ Name "step"
            :: [Call (Name "step") [] dynamic_keywords 1]) None)
    = _extract_step_metadata
        (FunctionDef false "pay" [] [] [Name "step"] None).
Proof.
  assert (∀ d, d ∈ [Name "staticmethod"] → _is_step_decorator d = false)
    as Hpre by (by intros d ->%list_elem_of_singleton).
  assert (_is_step_decorator (Name "step") = true) as Htag by reflexivity.
  split; [exact Hpre|]. split; [exact Htag|].
  exact (first_step_tag_wins false "pay" [] [] [Name "staticmethod"]
           [Call (Name "step") [] dynamic_keywords 1] (Name "step") None
           Hpre Htag).
Defined.

(** ** Assembled flows *)

Lemma assemble_closed (known : gset string) (items : list (string * node))
    (steps : list StepData) (es : list Edge) :
  (_assemble known items steps es).1
  = (steps ++ (assembled_step known <$> items),
     es ++ flat_map (assembled_edges known) items).
Proof.
  revert steps es. induction items as [|[method_name method_node] items IH];
    intros steps es; simpl.
  - by rewrite !app_nil_r.
  - rewrite IH. by rewrite <- !app_assoc.
Qed.

Lemma class_flows_elem {V} (body : list node) (all_steps : list (string * V))
    (flow : FlowData) :
  flow ∈ (_class_flows body all_steps).1 →
  ∃ class_node, class_node ∈ body
    ∧ (_extract_class_flow class_node all_steps).1 = Some flow.
Proof.
  induction body as [|n body IH]; simpl; [by intros ?%elem_of_nil|].
  destruct (is_class_def n).
  - simpl. intros [Hflow|Hflow]%elem_of_app.
    + exists n. split; [by left|].
      destruct (_extract_class_flow n all_steps).1 as [flow'|];
        simpl in Hflow; [|by apply elem_of_nil in Hflow].
      by apply list_elem_of_singleton in Hflow as ->.
    + destruct (IH Hflow) as (c & ? & ?). exists c. split; [by right|done].
  - intros (c & ? & ?)%IH. exists c. split; [by right|done].
Qed.

Lemma function_flow_elem {V W} (tree : module) (local_steps : list (string * V))
    (all_steps : list (string * W)) (flow : FlowData) :
  flow ∈ (_function_flow tree local_steps all_steps).1 →
  flow = (_create_function_flow (_extract_function_steps tree local_steps)
            all_steps).1.
Proof.
  unfold _function_flow.
  destruct (_extract_function_steps tree local_steps) as [|f fs];
    [by intros ?%elem_of_nil|].
  generalize (f :: fs). intros function_steps. rewrite wbind_fst.
  by intros ->%list_elem_of_singleton.
Qed.

Lemma extract_class_flow_assembled {V} (class_node : node)
    (all_steps : list (string * V)) (flow : FlowData) :
  (_extract_class_flow class_node all_steps).1 = Some flow →
  steps flow = assembled_step (key_set all_steps)
                 <$> _collect_all_steps_loop (node_body class_node) []
  ∧ edges flow = flat_map (assembled_edges (key_set all_steps))
                   (_collect_all_steps_loop (node_body class_node) [])
  ∧ flow_type flow = "class".
Proof.
  unfold _extract_class_flow.
  destruct (negb (_has_flow_decorator class_node)); [done|].
  rewrite !wbind_fst. cbn [wret fst]. rewrite assemble_closed.
  by intros [= <-].
Qed.

Lemma create_function_flow_assembled {V} (function_steps : list node)
    (all_steps : list (string * V)) :
  let flow := (_create_function_flow function_steps all_steps).1 in
  steps flow = assembled_step (key_set all_steps)
                 <$> ((λ f, (node_name f, f)) <$> function_steps)
  ∧ edges flow = flat_map (assembled_edges (key_set all_steps))
                   ((λ f, (node_name f, f)) <$> function_steps)
  ∧ flow_type flow = "function" ∧ flow_name flow = "Function Flow".
Proof.
  unfold _create_function_flow. rewrite wbind_fst. cbn [wret fst].
  by rewrite assemble_closed.
Qed.

Lemma named_items_keyed (function_steps : list node) :
  keyed_by_name ((λ f, (node_name f, f)) <$> function_steps).
Proof. by intros k n (x & [= -> ->] & _)%list_elem_of_fmap. Qed.

Lemma class_flow_is_assembled {V} (class_node : node)
    (all_steps : list (string * V)) (flow : FlowData) :
  (_extract_class_flow class_node all_steps).1 = Some flow → assembled flow.
Proof.
  intros (Hsteps & Hedges & _)%extract_class_flow_assembled.
  eexists _, _. split; [apply collect_loop_nil_keyed|done].
Qed.

Lemma function_flow_is_assembled {V} (function_steps : list node)
    (all_steps : list (string * V)) :
  assembled (_create_function_flow function_steps all_steps).1.
Proof.
  destruct (create_function_flow_assembled function_steps all_steps)
    as (Hsteps & Hedges & _).
  eexists _, _. split; [apply named_items_keyed|done].
Qed.

Lemma parse_file_flow_assembled (file : source_file) (r : Warn (list FlowData))
    (flow : FlowData) :
  parse_file file = inr r → flow ∈ r.1 → assembled flow.
Proof.
  unfold parse_file. destruct (content file) as [tree| |]; [|done|done].
  intros [= <-]. rewrite !wbind_fst. cbn [wret fst].
  intros [(c & _ & Hc)%class_flows_elem| ->%function_flow_elem]%elem_of_app.
  - by eapply class_flow_is_assembled.
  - apply function_flow_is_assembled.
Qed.

Lemma parse_tree_flow_assembled (tree : module) (registry : StepRegistry)
    (flow : FlowData) :
  flow ∈ (_parse_tree_with_registry tree registry).1 → assembled flow.
Proof.
  unfold _parse_tree_with_registry. rewrite !wbind_fst. cbn [wret fst].
  intros [(c & _ & Hc)%class_flows_elem| ->%function_flow_elem]%elem_of_app.
  - by eapply class_flow_is_assembled.
  - apply function_flow_is_assembled.
Qed.

Lemma directory_flow_assembled (files : list source_file) (flow : FlowData) :
  flow ∈ returned (parse_directory files) → assembled flow.
Proof.
  intros Hflow%returned_flows.
  apply second_pass_flows in Hflow as (p & t & _ & Hflow).
  by eapply parse_tree_flow_assembled.
Qed.

Lemma assembled_step_function_name (known : gset string) (item : string * node) :
  function_name (assembled_step known item) = node_name item.2.
Proof. apply extract_step_metadata_function_name. Qed.

Lemma assembled_step_edges (known : gset string) (items : list (string * node)) :
  keyed_by_name items →
  flat_map step_edges (assembled_step known <$> items)
  = flat_map (assembled_edges known) items.
Proof.
  intros Hkeyed. induction items as [|[k n] items IH]; [done|].
  rewrite fmap_cons. simpl. rewrite IH by (intros ? ? ?; apply Hkeyed; by right).
  f_equal. unfold step_edges, assembled_edges. simpl.
  rewrite extract_step_metadata_function_name.
  by rewrite <- (Hkeyed k n) by left.
Qed.

Lemma assembled_edges_are_step_calls (flow : FlowData) :
  assembled flow → edges flow = flat_map step_edges (steps flow).
Proof.
  intros (known & items & Hkeyed & -> & ->). by rewrite assembled_step_edges.
Qed.

(** X7. The edge list of every flow, of a directory run and of a single
    file alike, is the concatenation, step by step in the order of the
    steps, of the step's recorded calls, each turned into an edge that
    starts at the step; it holds no other edge. *)
Theorem flow_edges_are_step_calls :
  (∀ files flow, flow ∈ returned (parse_directory files) →
     edges flow = flat_map step_edges (steps flow))
  ∧ (∀ file r flow, parse_file file = inr r → flow ∈ r.1 →
       edges flow = flat_map step_edges (steps flow)).
Proof.
  split.
  - intros files flow ?%directory_flow_assembled.
    by apply assembled_edges_are_step_calls.
  - intros file r flow Hr ?. eapply assembled_edges_are_step_calls.
    by eapply parse_file_flow_assembled.
Qed.

Lemma flow_edges_are_step_calls_witness :
  billing_flow ∈ returned (parse_directory [billing_file])
  ∧ edges billing_flow = flat_map step_edges (steps billing_flow).
Proof.
  assert (billing_flow ∈ returned (parse_directory [billing_file])) as Hflow
    by (vm_compute; left).
  split; [exact Hflow|].
  exact (proj1 flow_edges_are_step_calls [billing_file] billing_flow Hflow).
Defined.

(** ** Branch labels *)

Lemma innermost_label_cases (enclosing : list arm) :
  innermost_label enclosing = None
  ∨ innermost_label enclosing = Some "if"
  ∨ innermost_label enclosing = Some "else".
Proof.
  unfold innermost_label. destruct (last enclosing) as [[]|]; simpl; auto.
Qed.

Lemma find_step_calls_branch (function_node : node) (known : gset string) (e : Edge) :
  e ∈ _find_step_calls function_node known →
  branch e = None ∨ branch e = Some "if" ∨ branch e = Some "else".
Proof.
  rewrite find_step_calls_recorded. unfold recorded.
  intros (s & -> & _)%list_elem_of_fmap. apply innermost_label_cases.
Qed.

Lemma assembled_edge_branch (flow : FlowData) (e : Edge) :
  assembled flow → e ∈ edges flow →
  branch e = None ∨ branch e = Some "if" ∨ branch e = Some "else".
Proof.
  intros (known & items & _ & _ & ->) (item & _ & He)%elem_of_flat_map.
  unfold assembled_edges in He.
  apply list_elem_of_fmap in He as (call & -> & Hcall). simpl.
  by eapply find_step_calls_branch.
Qed.

(** X8. An edge of an extracted flow carries no branch, the branch [if]
    or the branch [else], and nothing else; the diagram labels these
    with nothing, [yes] and [no]. *)
Theorem edge_branch_labels (files : list source_file) (flow : FlowData) (e : Edge) :
  flow ∈ returned (parse_directory files) → e ∈ edges flow →
  (branch e = None ∧ _get_branch_label (branch e) = None)
  ∨ (branch e = Some "if" ∧ _get_branch_label (branch e) = Some "yes")
  ∨ (branch e = Some "else" ∧ _get_branch_label (branch e) = Some "no").
Proof.
  intros Hflow%directory_flow_assembled He.
  destruct (assembled_edge_branch flow e Hflow He) as [H|[H|H]]; rewrite H; auto.
Qed.

Lemma edge_branch_labels_witness :
  billing_flow ∈ returned (parse_directory [billing_file])
  ∧ billing_edge ∈ edges billing_flow
  ∧ ((branch billing_edge = None
      ∧ _get_branch_label (branch billing_edge) = None)
     ∨ (branch billing_edge = Some "if"
        ∧ _get_branch_label (branch billing_edge) = Some "yes")
     ∨ (branch billing_edge = Some "else"
        ∧ _get_branch_label (branch billing_edge) = Some "no")).
Proof.
  assert (billing_flow ∈ returned (parse_directory [billing_file])) as Hflow
    by (vm_compute; left).
  assert (billing_edge ∈ edges billing_flow) as Hedge by left.
  split; [exact Hflow|]. split; [exact Hedge|].
  exact (edge_branch_labels [billing_file] billing_flow billing_edge
           Hflow Hedge).
Defined.

(** ** Classifying steps *)

Lemma filter_step_edges_other (s s' : StepData) :
  function_name s' ≠ function_name s →
  List.filter (λ e, bool_decide (from_step e = function_name s)) (step_edges s') = [].
Proof.
  intros Hne. unfold step_edges.
  induction (calls s') as [|c cs IH]; [done|]. simpl.
  by rewrite bool_decide_eq_false_2.
Qed.

Lemma filter_step_edges_same (s s' : StepData) :
  function_name s' = function_name s →
  List.filter (λ e, bool_decide (from_step e = function_name s)) (step_edges s')
  = step_edges s'.
Proof.
  intros Heq. unfold step_edges.
  induction (calls s') as [|c cs IH]; [done|]. simpl.
  rewrite bool_decide_eq_true_2 by done. f_equal. apply IH.
Qed.

Lemma outgoing_edges (l : list StepData) (s : StepData) :
  NoDup (function_name <$> l) → s ∈ l →
  List.filter (λ e, bool_decide (from_step e = function_name s))
    (flat_map step_edges l) = step_edges s.
Proof.
  induction l as [|s' l IH]; [by intros _ ?%elem_of_nil|].
  rewrite fmap_cons. intros [Hfresh Hnd]%NoDup_cons Hs. simpl.
  rewrite List.filter_app.
  apply elem_of_cons in Hs as [->|Hs].
  - rewrite filter_step_edges_same by done.
    assert (List.filter (λ e, bool_decide (from_step e = function_name s'))
              (flat_map step_edges l) = []) as ->; [|by rewrite app_nil_r].
    clear IH. induction l as [|x l IH]; [done|]. simpl.
    rewrite fmap_cons in Hfresh, Hnd.
    apply not_elem_of_cons in Hfresh as [Hne Hfresh].
    apply NoDup_cons in Hnd as [_ Hnd].
    rewrite List.filter_app, filter_step_edges_other by done. by apply IH.
  - rewrite filter_step_edges_other, IH; [done..|].
    intros Heq. apply Hfresh. rewrite Heq. apply list_elem_of_fmap. by exists s.
Qed.

(** X9. In an extracted flow whose steps have distinct identifiers, the
    shape of a step in the diagram is decided by the number of step calls
    in its own body: none makes it terminal, one regular, two or more a
    decision. *)
Theorem classification_counts_calls (files : list source_file)
    (flow : FlowData) (s : StepData) :
  flow ∈ returned (parse_directory files) → NoDup (step_ids flow) → s ∈ steps flow →
  _classify_step s (edges flow)
  = match length (calls s) with
    | 0 => "terminal"
    | 1 => "regular"
    | _ => "decision"
    end.
Proof.
  intros Hflow%directory_flow_assembled%assembled_edges_are_step_calls Hnd Hs.
  unfold _classify_step. rewrite Hflow, outgoing_edges by done.
  unfold step_edges. rewrite length_fmap.
  by destruct (length (calls s)) as [|[|n]].
Qed.

Lemma classification_counts_calls_witness :
  billing_flow ∈ returned (parse_directory [billing_file])
  ∧ NoDup (step_ids billing_flow)
  ∧ _classify_step
      (mkStepData "charge" "charge" "" None
         [mkEdge "" "send_receipt" None (Some 5)])
      (edges billing_flow)
    = "regular".
Proof.
  assert (billing_flow ∈ returned (parse_directory [billing_file])) as Hflow
    by (vm_compute; left).
  assert (NoDup (step_ids billing_flow)) as Hnd by apply NoDup_singleton.
  split; [exact Hflow|]. split; [exact Hnd|].
  exact (classification_counts_calls [billing_file] billing_flow
           (mkStepData "charge" "charge" "" None
              [mkEdge "" "send_receipt" None (Some 5)])
           Hflow Hnd (list_elem_of_here _ _)).
Defined.

(** ** The known names *)

(** X10. Knowing fewer step names only removes calls: the calls found
    against a set of names are those found against any larger set whose
    target is in the smaller one, in the same order and with the same
    branches and line numbers. *)
Theorem known_names_are_monotone (function_node : node) (known known' : gset string) :
  known ⊆ known' →
  _find_step_calls function_node known
  = List.filter (λ e, bool_decide (to_step e ∈ known))
      (_find_step_calls function_node known').
Proof.
  intros Hsub. rewrite !find_step_calls_recorded. unfold recorded.
  induction (call_sites [] function_node) as [|s sites IH]; [done|]. simpl.
  destruct (site_is_step known s) eqn:Hk;
    destruct (site_is_step known' s) eqn:Hk'; simpl;
    unfold site_is_step in Hk, Hk'.
  - apply andb_true_iff in Hk as [_ Hk]. rewrite Hk. f_equal. apply IH.
  - apply andb_true_iff in Hk as [Ht Hk%bool_decide_eq_true].
    rewrite Ht, bool_decide_eq_true_2 in Hk' by auto. done.
  - apply andb_true_iff in Hk' as [Ht _]. rewrite Ht in Hk. simpl in Hk.
    rewrite Hk. apply IH.
  - apply IH.
Qed.

Lemma known_names_are_monotone_witness :
  ({[ "ship" ]} : gset string) ⊆ dispatch_steps
  ∧ _find_step_calls nested_step {[ "ship" ]}
    = List.filter (λ e, bool_decide (to_step e ∈ ({[ "ship" ]} : gset string)))
        (_find_step_calls nested_step dispatch_steps).
Proof.
  assert (({[ "ship" ]} : gset string) ⊆ dispatch_steps) as Hsub
    by (apply singleton_subseteq_l; by vm_compute).
  split; [exact Hsub|].
  exact (known_names_are_monotone nested_step {[ "ship" ]} dispatch_steps Hsub).
Defined.

(** ** The order of steps *)

Lemma collect_loop_fresh (nodes : list node) (steps : list (string * node)) :
  NoDup (steps.*1 ++
         (node_name <$> List.filter
            (λ n, is_function_def n && _has_step_decorator n) nodes)) →
  _collect_all_steps_loop nodes steps
  = steps ++ ((λ n, (node_name n, n)) <$>
              List.filter (λ n, is_function_def n && _has_step_decorator n) nodes).
Proof.
  revert steps. induction nodes as [|n nodes IH]; intros steps; simpl.
  - intros _. by rewrite app_nil_r.
  - destruct (is_function_def n && _has_step_decorator n); [|apply IH].
    rewrite fmap_cons. intros Hnd.
    assert (node_name n ∉ steps.*1) as Hfresh.
    { apply NoDup_app in Hnd as (_ & Hdisj & _). intros Hin.
      apply (Hdisj _ Hin). by left. }
    rewrite IH; rewrite dict_set_fresh by done.
    + by rewrite <- app_assoc.
    + by rewrite fmap_app, <- app_assoc.
Qed.

(** X11. The steps of a flow come in source order: those of a class flow
    are the step-tagged methods of the class body, in the order of the
    body (method names being distinct), and those of the function flow
    are the functions it was made of, in their order. *)
Theorem steps_in_source_order :
  (∀ (V : Type) (class_node : node) (all_steps : list (string * V)) flow,
     (_extract_class_flow class_node all_steps).1 = Some flow →
     NoDup (node_name <$> tagged_methods class_node) →
     step_ids flow = node_name <$> tagged_methods class_node)
  ∧ (∀ (V : Type) (function_steps : list node) (all_steps : list (string * V)),
       step_ids (_create_function_flow function_steps all_steps).1
       = node_name <$> function_steps).
Proof.
  split.
  - intros V class_node all_steps flow (Hsteps & _)%extract_class_flow_assembled Hnd.
    unfold step_ids. rewrite Hsteps, collect_loop_fresh by done. simpl.
    unfold tagged_methods. rewrite <- !list_fmap_compose.
    apply list_fmap_ext. intros i n _. simpl.
    apply extract_step_metadata_function_name.
  - intros V function_steps all_steps.
    destruct (create_function_flow_assembled function_steps all_steps)
      as (Hsteps & _).
    unfold step_ids. rewrite Hsteps, <- !list_fmap_compose.
    apply list_fmap_ext. intros i n _. simpl.
    apply extract_step_metadata_function_name.
Qed.

Lemma steps_in_source_order_witness :
  (_extract_class_flow billing_class (_collect_all_steps billing_module)).1
  = Some billing_flow
  ∧ NoDup (node_name <$> tagged_methods billing_class)
  ∧ step_ids billing_flow = node_name <$> tagged_methods billing_class.
Proof.
  assert ((_extract_class_flow billing_class
             (_collect_all_steps billing_module)).1 = Some billing_flow)
    as Hflow by (by vm_compute).
  assert (NoDup (node_name <$> tagged_methods billing_class)) as Hnd
    by apply NoDup_singleton.
  split; [exact Hflow|]. split; [exact Hnd|].
  exact (proj1 steps_in_source_order node billing_class
           (_collect_all_steps billing_module) billing_flow Hflow Hnd).
Defined.

(** ** The shape of a file's flows *)

Lemma class_flows_type {V} (body : list node) (all_steps : list (string * V)) :
  Forall (λ flow, flow_type flow = "class") (_class_flows body all_steps).1.
Proof.
  apply Forall_forall. intros flow (c & _ & Hc)%class_flows_elem.
  by apply extract_class_flow_assembled in Hc as (_ & _ & ?).
Qed.

Lemma class_flows_containers {V} (body : list node)
    (all_steps : list (string * V)) :
  Forall2 (λ class_node flow,
             (_extract_class_flow class_node all_steps).1 = Some flow)
    (flow_containers body) (_class_flows body all_steps).1.
Proof.
  unfold flow_containers.
  induction body as [|n body IH]; simpl; [constructor|].
  destruct (is_class_def n); simpl; [|done].
  pose proof (extract_class_flow_some n all_steps) as Hn.
  destruct (_has_flow_decorator n); simpl.
  - destruct (proj2 Hn eq_refl) as [flow Hflow]. rewrite Hflow. simpl.
    by constructor.
  - destruct (_extract_class_flow n all_steps).1 as [flow|] eqn:E; [|done].
    by destruct Hn as [Hn _]; discriminate Hn.
Qed.

(** X12. A file that parses yields one flow for each top-level class
    with a flow tag, in source order: the first flow is the one
    extracted from the first such class, the second from the second, and
    so on, each of type [class]; they are followed by at most one flow
    of type [function], which is named [Function Flow]. *)
Theorem file_flows_shape (file : source_file) (tree : module) :
  content file = Parses tree →
  ∃ class_flows function_flow warnings,
    parse_file file = inr (class_flows ++ function_flow, warnings)
    ∧ Forall2 (λ class_node flow,
                 (_extract_class_flow class_node (_collect_all_steps tree)).1
                 = Some flow)
        (flow_containers tree) class_flows
    ∧ length class_flows = length (flow_containers tree)
    ∧ Forall (λ flow, flow_type flow = "class") class_flows
    ∧ Forall (λ flow, flow_type flow = "function"
                      ∧ flow_name flow = "Function Flow") function_flow
    ∧ length function_flow ≤ 1.
Proof.
  intros Hc. unfold parse_file. rewrite Hc.
  eexists (_class_flows tree (_collect_all_steps tree)).1,
          (_function_flow tree (_collect_all_steps tree) (_collect_all_steps tree)).1, _.
  split; [reflexivity|]. split; [apply class_flows_containers|].
  split; [apply class_flows_count|].
  split; [apply class_flows_type|]. split.
  - apply Forall_forall. intros flow ->%function_flow_elem.
    by destruct (create_function_flow_assembled
                   (_extract_function_steps tree (_collect_all_steps tree))
                   (_collect_all_steps tree)) as (_ & _ & ? & ?).
  - rewrite function_flow_count. destruct (_extract_function_steps _ _); simpl; lia.
Qed.

Lemma file_flows_shape_witness :
  content two_flows_file = Parses two_flows_module
  ∧ ∃ class_flows function_flow warnings,
      parse_file two_flows_file
      = inr (class_flows ++ function_flow, warnings)
      ∧ Forall2 (λ class_node flow,
                   (_extract_class_flow class_node
                      (_collect_all_steps two_flows_module)).1 = Some flow)
          (flow_containers two_flows_module) class_flows
      ∧ length class_flows = length (flow_containers two_flows_module)
      ∧ Forall (λ flow, flow_type flow = "class") class_flows
      ∧ Forall (λ flow, flow_type flow = "function"
                        ∧ flow_name flow = "Function Flow") function_flow
      ∧ length function_flow ≤ 1.
Proof.
  assert (content two_flows_file = Parses two_flows_module) as Hcontent
    by reflexivity.
  split; [exact Hcontent|].
  exact (file_flows_shape two_flows_file two_flows_module Hcontent).
Defined.

(** ** The collected steps *)

Lemma collect_loop_elem (nodes : list node) (steps : list (string * node))
    (k : string) (n : node) :
  (k, n) ∈ _collect_all_steps_loop nodes steps →
  (k, n) ∈ steps ∨ (n ∈ nodes ∧ tagged_function n ∧ k = node_name n).
Proof.
  revert steps. induction nodes as [|x nodes IH]; intros steps; simpl; [by left|].
  intros [Hacc|(? & ? & ?)]%IH; [|right; split; [by right|done]].
  destruct (is_function_def x && _has_step_decorator x) eqn:Hx; [|by left].
  apply dict_set_elem in Hacc as [[= -> ->]|?]; [right|by left].
  split; [by left|]. split; [by apply has_step_decorator_tagged|done].
Qed.

Lemma collect_loop_NoDup (nodes : list node) (steps : list (string * node)) :
  NoDup steps.*1 → NoDup (_collect_all_steps_loop nodes steps).*1.
Proof.
  revert steps. induction nodes as [|x nodes IH]; intros steps Hnd; simpl; [done|].
  apply IH. destruct (is_function_def x && _has_step_decorator x); [|done].
  by apply dict_set_NoDup.
Qed.

(** X13. The steps collected from a module are keyed by distinct names,
    each key is the name of the collected definition, each collected
    definition is a step-tagged function occurring in the module, at any
    depth, and the name of every such function is a key. *)
Theorem collected_steps_are_tagged_functions (tree : module) :
  NoDup (_collect_all_steps tree).*1
  ∧ (∀ k n, (k, n) ∈ _collect_all_steps tree →
       k = node_name n ∧ occurs_in tree n ∧ tagged_function n)
  ∧ (∀ f, occurs_in tree f → tagged_function f →
       node_name f ∈ (_collect_all_steps tree).*1).
Proof.
  split; [apply collect_loop_NoDup; constructor|]. split.
  - intros k n [?%elem_of_nil|(Hn & Htag & ->)]%collect_loop_elem; [done|].
    split; [done|]. split; [by apply walk_occurs|done].
  - apply tagged_function_collected.
Qed.

(** ** Module paths *)

Lemma substring_prefix (a b : string) :
  String.substring 0 (String.length a) (a +:+ b) = a.
Proof.
  induction a as [|c a IH]; simpl; [by destruct b|]. by rewrite IH.
Qed.

(** X14. The module path of a file [stem.py] is the dotted path of its
    directories followed by [stem], and the dotted path of its
    directories alone when the file is [__init__.py]. *)
Theorem module_path_of_python_file (path : string) (parent : list string)
    (stem : string) (c : source) :
  _path_to_module (mkFile path parent (stem +:+ ".py") c)
  = if decide (stem = "__init__") then join_dots parent
    else join_dots (parent ++ [stem]).
Proof.
  unfold _path_to_module. simpl.
  assert (ends_with (stem +:+ ".py") ".py" = true) as ->
    by (apply ends_with_spec; by exists stem).
  rewrite string_length_app. simpl.
  replace (String.length stem + 3 - 3) with (String.length stem) by lia.
  rewrite substring_prefix. by case_decide.
Qed.

(** ** Kinds of tags *)

Lemma step_name_is_no_flow_name (id : string) :
  id ∈ STEP_DECORATOR_NAMES → id ∉ FLOW_DECORATOR_NAMES.
Proof.
  unfold STEP_DECORATOR_NAMES, FLOW_DECORATOR_NAMES.
  rewrite !elem_of_union, !elem_of_singleton.
  intros [[->| ->]| ->] [?|?]; done.
Qed.

(** X15. No tag is read both as a step tag and as a flow tag. *)
Theorem tag_is_never_both (decorator : node) :
  _is_step_decorator decorator = true → _is_flow_decorator decorator = false.
Proof.
  destruct decorator as [id| | |func args keywords lineno| | | | | | ];
    simpl; try done.
  - intros ?%bool_decide_eq_true. by apply bool_decide_eq_false, step_name_is_no_flow_name.
  - destruct func; try done; intros ?%bool_decide_eq_true;
      by apply bool_decide_eq_false, step_name_is_no_flow_name.
Qed.

Lemma tag_is_never_both_witness :
  _is_step_decorator (Name "step") = true
  ∧ _is_flow_decorator (Name "step") = false.
Proof.
  assert (_is_step_decorator (Name "step") = true) as Hstep by reflexivity.
  split; [exact Hstep|].
  exact (tag_is_never_both (Name "step") Hstep).
Defined.

(** ** The names known to the second pass *)

Lemma dict_set_other {V} (k k' : string) (v v' : V) (d : list (string * V)) :
  (k, v) ∈ d → k ≠ k' → (k, v) ∈ dict_set k' v' d.
Proof.
  induction d as [|[k0 v0] d IH]; simpl; [by intros ?%elem_of_nil|].
  intros [[= <- <-]|Hin]%elem_of_cons Hne.
  - rewrite decide_False by done. by left.
  - destruct (decide (k0 = k')); right; [done|by apply IH].
Qed.

Lemma dict_set_new {V} (k : string) (v : V) (d : list (string * V)) :
  (k, v) ∈ dict_set k v d.
Proof.
  induction d as [|[k0 v0] d IH]; simpl; [by left|].
  destruct (decide (k0 = k)) as [->|]; [by left|by right].
Qed.

Lemma register_names_kept (module_path : string) (step : StepData)
    (r : StepRegistry) :
  has_dot (function_name step) = false → names_kept r →
  names_kept (register module_path step r).
Proof.
  intros Hname Hr k s [[= -> ->]|?]%dict_set_elem; [|by apply Hr].
  by apply after_last_dot_app.
Qed.

Lemma register_names_grow (module_path : string) (step : StepData)
    (r : StepRegistry) (name : string) :
  has_dot (function_name step) = false → names_kept r →
  name = function_name step ∨ name ∈ registered_names r →
  name ∈ registered_names (register module_path step r).
Proof.
  intros Hname Hr. unfold registered_names, all_steps.
  rewrite <- !list_fmap_compose. intros [->|Hin].
  - apply list_elem_of_fmap. eexists (_, step). split; [done|].
    apply dict_set_new.
  - apply list_elem_of_fmap in Hin as ([k s] & -> & Hks). simpl.
    destruct (decide (k = module_path +:+ "." +:+ function_name step)) as [->|Hne].
    + apply Hr in Hks. rewrite after_last_dot_app in Hks by done.
      injection Hks as <-. apply list_elem_of_fmap. eexists (_, step).
      split; [done|]. apply dict_set_new.
    + apply list_elem_of_fmap. exists (k, s). split; [done|].
      by apply dict_set_other.
Qed.

Lemma register_steps_grow (module_path : string) (func_nodes : list node)
    (r : StepRegistry) :
  (∀ n, n ∈ func_nodes → has_dot (node_name n) = false) → names_kept r →
  names_kept (_register_steps module_path func_nodes r).1
  ∧ ∀ name, name ∈ node_name <$> func_nodes ∨ name ∈ registered_names r →
            name ∈ registered_names (_register_steps module_path func_nodes r).1.
Proof.
  revert r. induction func_nodes as [|f func_nodes IH]; intros r Hplain Hr; simpl.
  - split; [done|]. by intros name [?%elem_of_nil|?].
  - assert (has_dot (function_name (_extract_step_metadata f).1) = false) as Hf.
    { rewrite extract_step_metadata_function_name. apply Hplain. by left. }
    destruct (IH (register module_path (_extract_step_metadata f).1 r))
      as [Hkept Hgrow].
    { intros n ?. apply Hplain. by right. }
    { by apply register_names_kept. }
    split; [done|]. intros name Hname. apply Hgrow.
    destruct Hname as [[->|?]%elem_of_cons|?]; [right|by left|right].
    + apply register_names_grow; [done..|left].
      by rewrite extract_step_metadata_function_name.
    + apply register_names_grow; auto.
Qed.

Lemma collected_names_of_values (tree : module) (k : string) :
  k ∈ (_collect_all_steps tree).*1 →
  k ∈ node_name <$> (_collect_all_steps tree).*2.
Proof.
  intros ([k' n] & -> & Hkn)%list_elem_of_fmap. simpl.
  rewrite (collect_all_steps_keyed tree k' n Hkn).
  apply list_elem_of_fmap. exists n. split; [done|].
  apply list_elem_of_fmap. by exists (k', n).
Qed.

Lemma first_pass_grows (files : list source_file) (r : StepRegistry)
    (file_asts : list (string * module)) :
  plain_ids files → names_kept r →
  ∀ name, name ∈ collected_ids files ∨ name ∈ registered_names r →
          name ∈ registered_names (passed files r file_asts).1.
Proof.
  revert r file_asts. induction files as [|file files IH];
    intros r file_asts Hplain Hr name.
  - by intros [?%elem_of_nil|?].
  - assert (plain_ids files) as Hplain'.
    { intros id Hid. apply Hplain. unfold collected_ids. simpl.
      apply elem_of_app. by right. }
    unfold collected_ids. simpl. fold (collected_ids files).
    destruct (content file) as [tree| |] eqn:Hc; simpl.
    + rewrite (passed_parses _ _ _ _ tree Hc).
      destruct (register_steps_grow (_path_to_module file)
                  (_collect_all_steps tree).*2 r) as [Hkept Hgrow]; [|done|].
      { intros n Hn. apply Hplain. unfold collected_ids. simpl. rewrite Hc.
        apply elem_of_app. left. by apply collected_value_names. }
      intros [[Hlocal|Hrest]%elem_of_app|Hreg]; apply IH; try done.
      * right. apply Hgrow. left. by apply collected_names_of_values.
      * by left.
      * right. apply Hgrow. by right.
    + rewrite passed_skips by (intros ?; by rewrite Hc).
      intros [Hrest|Hreg]; apply IH; auto.
    + rewrite passed_skips by (intros ?; by rewrite Hc).
      intros [Hrest|Hreg]; apply IH; auto.
Qed.

Lemma callable_in_run_elem (files : list source_file)
    (file : source_file) (tree : module) (name : string) :
  plain_ids files → file ∈ files → content file = Parses tree →
  name ∈ callable_in_run files tree ↔ name ∈ collected_ids files.
Proof.
  intros Hplain Hfile Hc. unfold callable_in_run.
  rewrite key_set_elem, combine_steps_keys, dict_copy_keys. split.
  - intros [Hlocal|Hreg].
    + apply collected_ids_elem. by exists file, tree.
    + apply list_elem_of_fmap in Hreg as (s & -> & Hs).
      destruct (first_pass_invariant files empty_registry []) as [Hinv _].
      by apply Hinv in Hs as [?%elem_of_nil|?].
  - intros Hname. right. apply (first_pass_grows files empty_registry []); auto.
    by intros k s ?%elem_of_nil.
Qed.

(** X16. In a directory run the names against which the calls of a file
    are matched are exactly the identifiers of the steps collected from
    the parsing files of the run, for every file of the run alike (step
    identifiers holding no dot). *)
Theorem second_pass_knows_every_step (files : list source_file)
    (file : source_file) (tree : module) (name : string) :
  plain_ids files → file ∈ files → content file = Parses tree →
  name ∈ callable_in_run files tree ↔ name ∈ collected_ids files.
Proof. apply callable_in_run_elem. Qed.

Lemma second_pass_knows_every_step_witness :
  plain_ids [billing_file]
  ∧ billing_file ∈ [billing_file]
  ∧ content billing_file = Parses billing_module
  ∧ ("send_receipt" ∈ callable_in_run [billing_file] billing_module
     ↔ "send_receipt" ∈ collected_ids [billing_file]).
Proof.
  assert (plain_ids [billing_file]) as Hplain.
  { intros id Hid.
    change (id ∈ ["send_receipt"; "charge"]) in Hid.
    apply elem_of_cons in Hid as [Hid|Hid]; [by rewrite Hid|].
    apply list_elem_of_singleton in Hid. by rewrite Hid. }
  assert (billing_file ∈ [billing_file]) as Hin by left.
  assert (content billing_file = Parses billing_module) as Hcontent
    by reflexivity.
  split; [exact Hplain|]. split; [exact Hin|]. split; [exact Hcontent|].
  exact (second_pass_knows_every_step [billing_file] billing_file
           billing_module "send_receipt" Hplain Hin Hcontent).
Defined.

Lemma extract_class_flow_key_set {V W} (class_node : node)
    (d1 : list (string * V)) (d2 : list (string * W)) :
  key_set d1 = key_set d2 →
  _extract_class_flow class_node d1 = _extract_class_flow class_node d2.
Proof. intros H. unfold _extract_class_flow. by rewrite H. Qed.

Lemma class_flows_key_set {V W} (body : list node)
    (d1 : list (string * V)) (d2 : list (string * W)) :
  key_set d1 = key_set d2 → _class_flows body d1 = _class_flows body d2.
Proof.
  intros H. induction body as [|n body IH]; simpl; [done|].
  by rewrite IH, (extract_class_flow_key_set n d1 d2 H).
Qed.

Lemma function_flow_key_set {V W X} (tree : module) (local : list (string * X))
    (d1 : list (string * V)) (d2 : list (string * W)) :
  key_set d1 = key_set d2 →
  _function_flow tree local d1 = _function_flow tree local d2.
Proof.
  intros H. unfold _function_flow, _create_function_flow. by rewrite H.
Qed.

(** X17. The flows and warnings that the second pass makes of a file
    depend on the other files of the run only through the set of step
    identifiers collected in the run: two runs that hold the file and
    collect the same identifiers give it the same flows (step
    identifiers holding no dot). *)
Theorem file_flows_depend_on_step_names (files files' : list source_file)
    (file : source_file) (tree : module) :
  plain_ids files → plain_ids files' →
  (∀ id, id ∈ collected_ids files ↔ id ∈ collected_ids files') →
  file ∈ files → file ∈ files' → content file = Parses tree →
  _parse_tree_with_registry tree (registry_of files)
  = _parse_tree_with_registry tree (registry_of files').
Proof.
  intros Hplain Hplain' Hids Hfile Hfile' Hc.
  assert (callable_in_run files tree = callable_in_run files' tree) as Hsame.
  { apply set_eq. intros name.
    rewrite (callable_in_run_elem files file tree name) by done.
    rewrite (callable_in_run_elem files' file tree name) by done.
    apply Hids. }
  unfold _parse_tree_with_registry.
  rewrite (class_flows_key_set tree _ _ Hsame).
  by rewrite (function_flow_key_set tree _ _ _ Hsame).
Qed.

Lemma file_flows_depend_on_step_names_witness :
  plain_ids [billing_file]
  ∧ plain_ids [billing_file; broken_file]
  ∧ (∀ id, id ∈ collected_ids [billing_file]
           ↔ id ∈ collected_ids [billing_file; broken_file])
  ∧ _parse_tree_with_registry billing_module (registry_of [billing_file])
    = _parse_tree_with_registry billing_module
        (registry_of [billing_file; broken_file]).
Proof.
  assert (∀ id, id ∈ ["send_receipt"; "charge"] → has_dot id = false)
    as Hplain.
  { intros id Hid.
    apply elem_of_cons in Hid as [Hid|Hid]; [by rewrite Hid|].
    apply list_elem_of_singleton in Hid. by rewrite Hid. }
  assert (∀ id, id ∈ collected_ids [billing_file]
                ↔ id ∈ collected_ids [billing_file; broken_file]) as Hsame
    by (intros id; reflexivity).
  split; [exact Hplain|]. split; [exact Hplain|]. split; [exact Hsame|].
  exact (file_flows_depend_on_step_names [billing_file]
           [billing_file; broken_file] billing_file billing_module
           Hplain Hplain Hsame (list_elem_of_here _ _) (list_elem_of_here _ _)
           eq_refl).
Defined.

(** ** Mermaid identifiers and labels *)

Lemma all_chars_app (p : ascii → bool) (a b : string) :
  all_chars p (a +:+ b) = all_chars p a && all_chars p b.
Proof. induction a as [|c a IH]; simpl; [done|]. by rewrite IH, andb_assoc. Qed.

Lemma sub_non_id_chars_ok (name : string) :
  all_chars is_id_char (sub_non_id_chars name) = true.
Proof.
  induction name as [|c name IH]; simpl; [done|]. rewrite IH, andb_true_r.
  by destruct (is_id_char c) eqn:Hc.
Qed.

Lemma sub_non_id_chars_id (name : string) :
  all_chars is_id_char name = true → sub_non_id_chars name = name.
Proof.
  induction name as [|c name IH]; simpl; [done|].
  intros [-> ?]%andb_true_iff. by rewrite IH.
Qed.

Lemma step_prefix_not_reserved (s : string) : "step_" +:+ s ∉ RESERVED_WORDS.
Proof.
  unfold RESERVED_WORDS. rewrite !elem_of_union, !elem_of_singleton. simpl.
  intros [[[[[[?|?]|?]|?]|?]|?]|?]; discriminate.
Qed.

Lemma sanitize_id_cases (name : string) :
  (_sanitize_id name = "step_" +:+ sub_non_id_chars name)
  ∨ (_sanitize_id name = sub_non_id_chars name
     ∧ lower (sub_non_id_chars name) ∉ RESERVED_WORDS).
Proof.
  unfold _sanitize_id. case_bool_decide; [by left|by right].
Qed.

Lemma sanitize_id_chars (name : string) :
  all_chars is_id_char (_sanitize_id name) = true.
Proof.
  destruct (sanitize_id_cases name) as [->|[-> _]].
  - rewrite all_chars_app, sub_non_id_chars_ok. done.
  - apply sub_non_id_chars_ok.
Qed.

Lemma sanitize_id_not_reserved (name : string) :
  lower (_sanitize_id name) ∉ RESERVED_WORDS.
Proof.
  destruct (sanitize_id_cases name) as [->|[-> ?]]; [|done].
  apply (step_prefix_not_reserved (lower (sub_non_id_chars name))).
Qed.

Lemma sanitize_id_keeps (name : string) :
  all_chars is_id_char name = true → lower name ∉ RESERVED_WORDS →
  _sanitize_id name = name.
Proof.
  intros Hchars Hname. unfold _sanitize_id.
  rewrite sub_non_id_chars_id by done. by rewrite bool_decide_eq_false_2.
Qed.

(** X18. A sanitized identifier consists of letters, digits and
    underscores only, is no reserved word of Mermaid in any spelling of
    upper and lower case, and is left unchanged by sanitizing it again. *)
Theorem sanitized_id_is_safe (name : string) :
  all_chars is_id_char (_sanitize_id name) = true
  ∧ (lower (_sanitize_id name) ∉ RESERVED_WORDS)
  ∧ _sanitize_id (_sanitize_id name) = _sanitize_id name.
Proof.
  split; [apply sanitize_id_chars|]. split; [apply sanitize_id_not_reserved|].
  apply sanitize_id_keeps; [apply sanitize_id_chars|apply sanitize_id_not_reserved].
Qed.

(** X19. A name made of letters, digits and underscores that is no
    reserved word in any spelling of upper and lower case is its own
    identifier in the diagram. *)
Theorem plain_identifier_is_kept (name : string) :
  all_chars is_id_char name = true → lower name ∉ RESERVED_WORDS →
  _sanitize_id name = name.
Proof. apply sanitize_id_keeps. Qed.

Lemma plain_identifier_is_kept_witness :
  all_chars is_id_char "validate_order" = true
  ∧ (lower "validate_order" ∉ RESERVED_WORDS)
  ∧ _sanitize_id "validate_order" = "validate_order".
Proof.
  assert (all_chars is_id_char "validate_order" = true) as Hchars
    by reflexivity.
  assert (lower "validate_order" ∉ RESERVED_WORDS) as Hname
    by (by vm_compute).
  split; [exact Hchars|]. split; [exact Hname|].
  exact (plain_identifier_is_kept "validate_order" Hchars Hname).
Defined.

Lemma lower_step_prefix (s : string) :
  lower ("step_" +:+ s) = "step_" +:+ lower s.
Proof. done. Qed.

Lemma step_prefix_inj (a b : string) :
  "step_" +:+ a = "step_" +:+ b → a = b.
Proof. intros H. simpl in H. by injection H. Qed.

Lemma sanitize_id_of_identifier (name : string) :
  all_chars is_id_char name = true →
  _sanitize_id name
  = if bool_decide (lower name ∈ RESERVED_WORDS) then "step_" +:+ name
    else name.
Proof.
  intros Hchars. unfold _sanitize_id. by rewrite sub_non_id_chars_id.
Qed.

(** X20. Two names made of letters, digits and underscores get the same
    identifier in the diagram exactly when they are equal or one of them
    is a reserved word, in any spelling of upper and lower case, and the
    other is that name prefixed with [step_]: the functions [End] and
    [step_End] share the identifier [step_End]. *)
Theorem sanitized_ids_collide_iff (a b : string) :
  all_chars is_id_char a = true → all_chars is_id_char b = true →
  _sanitize_id a = _sanitize_id b
  ↔ a = b
    ∨ (a = "step_" +:+ b ∧ lower b ∈ RESERVED_WORDS)
    ∨ (b = "step_" +:+ a ∧ lower a ∈ RESERVED_WORDS).
Proof.
  intros Ha Hb. rewrite !sanitize_id_of_identifier by done.
  do 2 case_bool_decide; split.
  - intros Heq. left. by apply step_prefix_inj.
  - intros [->|[[-> _]|[-> _]]]; [done|..].
    + rewrite lower_step_prefix in *.
      by destruct (step_prefix_not_reserved (lower b)).
    + rewrite lower_step_prefix in *.
      by destruct (step_prefix_not_reserved (lower a)).
  - intros <-. right. by right.
  - intros [->|[[-> _]|[-> _]]]; [done| |done].
    rewrite lower_step_prefix in *.
    by destruct (step_prefix_not_reserved (lower b)).
  - intros ->. right. by left.
  - intros [->|[[-> _]|[-> _]]]; [done|done|].
    rewrite lower_step_prefix in *.
    by destruct (step_prefix_not_reserved (lower a)).
  - intros ->. by left.
  - intros [->|[[_ ?]|[_ ?]]]; done.
Qed.

Lemma sanitized_ids_collide_iff_witness :
  all_chars is_id_char "step_End" = true
  ∧ all_chars is_id_char "End" = true
  ∧ _sanitize_id "step_End" = _sanitize_id "End".
Proof.
  assert (all_chars is_id_char "step_End" = true) as Ha by reflexivity.
  assert (all_chars is_id_char "End" = true) as Hb by reflexivity.
  assert (lower "End" ∈ RESERVED_WORDS) as Hreserved by (by vm_compute).
  split; [exact Ha|]. split; [exact Hb|].
  exact (proj2 (sanitized_ids_collide_iff "step_End" "End" Ha Hb)
           (or_intror (or_introl (conj eq_refl Hreserved)))).
Defined.

Lemma contains_char_app (c : ascii) (a b : string) :
  contains_char c (a +:+ b) = contains_char c a || contains_char c b.
Proof. induction a as [|c' a IH]; simpl; [done|]. by rewrite IH, orb_assoc. Qed.

Lemma replace_quotes_no_quote (label : string) :
  contains_char quote (replace_quotes label) = false.
Proof.
  induction label as [|c label IH]; simpl; [done|].
  destruct (decide (c = quote)) as [->|Hne].
  - by rewrite contains_char_app, IH.
  - simpl. by rewrite IH, bool_decide_eq_false_2.
Qed.

Lemma replace_quotes_id (label : string) :
  contains_char quote label = false → replace_quotes label = label.
Proof.
  induction label as [|c label IH]; simpl; [done|].
  intros [Hc%bool_decide_eq_false ?]%orb_false_iff.
  rewrite decide_False by done. by rewrite IH.
Qed.

(** X21. A label without bracket, brace, parenthesis, bar or double
    quote is left as it is.  A label that holds one of these characters
    is put between double quotes, with no double quote left in between;
    what stands between them is the label with [#quot;] in the place of
    each double quote, so a label without double quote stands unchanged
    between them. *)
Theorem escaped_label_quotes (label : string) :
  ((∀ c, c ∈ special_characters → contains_char c label = false) →
   _escape_label label = label)
  ∧ ((∃ c, c ∈ special_characters ∧ contains_char c label = true) →
     ∃ body,
       _escape_label label = String quote (body +:+ String quote EmptyString)
       ∧ body = replace_quotes label
       ∧ contains_char quote body = false
       ∧ (contains_char quote label = false → body = label)).
Proof.
  unfold _escape_label. split.
  - intros Hnone.
    destruct (existsb (λ c, contains_char c label) special_characters)
      eqn:Hany; [|done].
    apply existsb_exists in Hany as (c & Hc & Hcl).
    apply list_elem_of_In in Hc. by rewrite (Hnone c Hc) in Hcl.
  - intros (c & Hc & Hcl).
    assert (existsb (λ c, contains_char c label) special_characters = true)
      as ->.
    { apply existsb_exists. exists c. by rewrite <- list_elem_of_In. }
    exists (replace_quotes label). split; [done|]. split; [done|].
    split; [apply replace_quotes_no_quote|apply replace_quotes_id].
Qed.

(** ** Discovery of the files of a run *)

Lemma path_name_last (directory : list string) (name : string) :
  Path.name (directory ++ [name]) = name.
Proof. unfold Path.name. apply last_last. Qed.

Lemma path_name_single (name : string) : Path.name [name] = name.
Proof. done. Qed.

Lemma path_suffix_last (directory : list string) (name : string) :
  Path.suffix (directory ++ [name]) = Path.suffix [name].
Proof.
  unfold Path.suffix, Path.split_at.
  by rewrite path_name_last, (path_name_single name).
Qed.

Lemma is_test_file_last (directory : list string) (name : string) :
  is_test_file (directory ++ [name]) = is_test_file [name].
Proof.
  unfold is_test_file, Path.stem, Path.split_at.
  by rewrite path_name_last, (path_name_single name).
Qed.

Lemma should_exclude_dir_last (excludes : gset string)
    (directory : list string) (name : string) :
  _should_exclude_dir excludes (directory ++ [name])
  = _should_exclude_dir excludes [name].
Proof.
  unfold _should_exclude_dir.
  by rewrite path_name_last, (path_name_single name).
Qed.

Lemma should_exclude_dir_false (excludes : gset string) (name : string) :
  _should_exclude_dir excludes [name] = false
  ↔ String.prefix "." name = false ∧ name ∉ excludes.
Proof.
  unfold _should_exclude_dir. rewrite (path_name_single name).
  destruct (String.prefix "." name).
  - split; [done|]. by intros [? _].
  - rewrite bool_decide_eq_false. split; [done|]. by intros [_ ?].
Qed.

Lemma sorted_entries_elem (listing : list (string * entry))
    (item : string * entry) :
  item ∈ sorted_entries listing ↔ item ∈ listing.
Proof. unfold sorted_entries. by rewrite merge_sort_Permutation. Qed.

Lemma depth_of_entry (entries : list (string * entry))
    (listing : exception + list (string * entry)) (name : string) :
  (name, Directory listing) ∈ entries →
  depth (Directory listing) < depth (Directory (inr entries)).
Proof.
  intros Hin. change (depth (Directory (inr entries)))
    with (S (max_list_with (λ item, let '(_, e') := item in depth e') entries)).
  apply Nat.lt_succ_r. induction entries as [|[n e] entries IH].
  - by apply elem_of_nil in Hin.
  - apply elem_of_cons in Hin as [Heq|Hin]; simpl max_list_with.
    + injection Heq as -> ->. lia.
    + specialize (IH Hin). lia.
Qed.

Lemma depth_of_directory (listing : exception + list (string * entry)) :
  0 < depth (Directory listing).
Proof. destruct listing; simpl; lia. Qed.

(** *** The loop over the entries *)

Lemma for_entries_inr {A B} (body : A → exception + list B)
    (entries : list A) (found : list B) :
  for_entries body entries = inr found →
  (∀ entry, entry ∈ entries → ∃ r, body entry = inr r)
  ∧ found = flat_map (λ entry, appended (body entry)) entries.
Proof.
  revert found. induction entries as [|entry entries IH]; intros found; simpl.
  - intros [= <-]. split; [by intros ? ?%elem_of_nil|done].
  - destruct (body entry) as [e|r] eqn:Hbody; [done|].
    destruct (for_entries body entries) as [e|found'] eqn:Hrest; [done|].
    intros [= <-]. destruct (IH found' eq_refl) as [Hall ->]. split; [|done].
    intros entry' [->|?]%elem_of_cons; [by exists r|by apply Hall].
Qed.

Lemma for_entries_inl {A B} (body : A → exception + list B)
    (entries : list A) (e : exception) :
  for_entries body entries = inl e →
  ∃ entry, entry ∈ entries ∧ body entry = inl e.
Proof.
  induction entries as [|entry entries IH]; simpl; [done|].
  destruct (body entry) as [e'|r] eqn:Hbody.
  - intros [= ->]. exists entry. split; [by left|done].
  - destruct (for_entries body entries) as [e'|found']; [|done].
    intros [= ->]. destruct (IH eq_refl) as (entry' & ? & ?).
    exists entry'. split; [by right|done].
Qed.

Lemma for_entries_raises {A B} (body : A → exception + list B)
    (entries : list A) (entry : A) (e : exception) :
  entry ∈ entries → body entry = inl e →
  ∃ e', for_entries body entries = inl e'.
Proof.
  induction entries as [|entry' entries IH]; simpl;
    [by intros ?%elem_of_nil|].
  intros [->|Hin]%elem_of_cons Hbody.
  - rewrite Hbody. by eexists.
  - destruct (body entry'); [by eexists|].
    destruct (IH Hin Hbody) as [e' ->]. by eexists.
Qed.

Lemma for_entries_mono {A B} (f g : A → exception + list B)
    (entries : list A) (found : list B) :
  (∀ entry r, entry ∈ entries → f entry = inr r →
     ∃ r', g entry = inr r' ∧ r' `sublist_of` r) →
  for_entries f entries = inr found →
  ∃ found', for_entries g entries = inr found' ∧ found' `sublist_of` found.
Proof.
  revert found. induction entries as [|entry entries IH]; intros found Hfg;
    simpl.
  - intros [= <-]. by exists [].
  - destruct (f entry) as [e|r] eqn:Hf; [done|].
    destruct (for_entries f entries) as [e|rest] eqn:Hrest; [done|].
    intros [= <-].
    destruct (Hfg entry r) as (r' & -> & Hr); [by left|done|].
    destruct (IH rest) as (rest' & -> & Hrest'); [|done|].
    { intros entry' r0 ? ?. apply Hfg; [by right|done]. }
    exists (r' ++ rest'). split; [done|]. by apply sublist_app.
Qed.

Lemma walk_unfold (fuel : nat) (excludes : gset string)
    (directory : list string) (entries : list (string * entry)) :
  _walk (S fuel) excludes directory (inr entries)
  = for_entries (walk_item fuel excludes directory) (sorted_entries entries).
Proof. done. Qed.

Lemma walk_unlisted (fuel : nat) (excludes : gset string)
    (directory : list string) (e : exception)
    (python_files : list (list string)) :
  _walk fuel excludes directory (inl e) = inr python_files →
  python_files = [].
Proof.
  destruct fuel as [|fuel]; simpl; [by intros [= <-]|].
  destruct e; try done. by intros [= <-].
Qed.

(** *** The files that are found *)

Lemma walk_elem (fuel : nat) (excludes : gset string) :
  ∀ (directory : list string) (listing : exception + list (string * entry))
    (python_files : list (list string)) (path : list string),
    depth (Directory listing) ≤ fuel →
    _walk fuel excludes directory listing = inr python_files →
    path ∈ python_files ↔ walked excludes directory listing path.
Proof.
  induction fuel as [|fuel IH];
    intros directory listing python_files path Hfuel.
  { pose proof (depth_of_directory listing). lia. }
  destruct listing as [e|entries].
  { intros ->%walk_unlisted. split; [by intros ?%elem_of_nil|].
    intros (dirs & name & _ & Hloc & _). inversion Hloc. }
  rewrite walk_unfold. intros [Hall ->]%for_entries_inr.
  rewrite list_elem_of_In, in_flat_map. split.
  - intros [[name e] [Hitem Hpath]].
    apply list_elem_of_In in Hitem. apply list_elem_of_In in Hpath.
    apply (proj1 (sorted_entries_elem _ _)) in Hitem.
    unfold walk_item in Hpath. simpl in Hpath. destruct e as [|l| |e].
    + case_bool_decide as Hsuffix; [|by apply elem_of_nil in Hpath].
      destruct (is_test_file _) eqn:Htest; [by apply elem_of_nil in Hpath|].
      apply list_elem_of_singleton in Hpath as ->.
      exists [], name. rewrite path_suffix_last in Hsuffix.
      rewrite is_test_file_last in Htest.
      split_and!; [done|by apply located_here|by constructor|done|done].
    + destruct (_should_exclude_dir _ _) eqn:Hexcl;
        [by apply elem_of_nil in Hpath|].
      rewrite should_exclude_dir_last in Hexcl.
      destruct (_walk fuel excludes (directory ++ [name]) l) as [e|found]
        eqn:Hwalk; [by apply elem_of_nil in Hpath|].
      simpl in Hpath.
      apply (IH _ _ _ path) in Hwalk.
      * apply Hwalk in Hpath
          as (dirs & file & -> & Hloc & Hdirs & Hsuf & Htest).
        exists (name :: dirs), file.
        split_and!; [by rewrite <- !app_assoc|by eapply located_below|
                     by constructor|done|done].
      * pose proof (depth_of_entry entries l name Hitem). lia.
    + by apply elem_of_nil in Hpath.
    + by apply elem_of_nil in Hpath.
  - intros (dirs & file & -> & Hloc & Hdirs & Hsuf & Htest).
    inversion Hloc as [? ? Hitem|? dir l dirs' ? Hitem Hloc']; subst.
    + exists (file, RegularFile). split.
      * apply list_elem_of_In, sorted_entries_elem, Hitem.
      * apply list_elem_of_In. unfold walk_item. simpl.
        rewrite path_suffix_last, is_test_file_last, Hsuf, Htest.
        rewrite bool_decide_eq_true_2 by done. by apply list_elem_of_singleton.
    + exists (dir, Directory l).
      assert ((dir, Directory l) ∈ sorted_entries entries) as Hsorted
        by by apply sorted_entries_elem.
      split; [by apply list_elem_of_In|].
      apply list_elem_of_In. apply Forall_cons in Hdirs as [Hdir Hdirs].
      destruct (Hall _ Hsorted) as [found Hfound]. rewrite Hfound. simpl.
      unfold walk_item in Hfound. simpl in Hfound.
      rewrite should_exclude_dir_last, Hdir in Hfound.
      apply (IH _ _ _ (directory ++ (dir :: dirs') ++ [file])) in Hfound.
      * apply Hfound. exists dirs', file.
        split_and!; [by rewrite <- !app_assoc|done..].
      * pose proof (depth_of_entry entries l dir Hitem). lia.
Qed.

(** *** The exceptions that pass *)

Lemma walk_raises_sound (fuel : nat) (excludes : gset string) :
  ∀ (directory : list string) (listing : exception + list (string * entry))
    (e : exception),
    _walk fuel excludes directory listing = inl e →
    raises excludes listing e.
Proof.
  induction fuel as [|fuel IH]; intros directory listing e; [done|].
  destruct listing as [e'|entries].
  - simpl. destruct e'; try done; intros [= <-]; by apply raises_listing.
  - rewrite walk_unfold. intros ([name entry] & Hitem & Hbody)%for_entries_inl.
    apply (proj1 (sorted_entries_elem _ _)) in Hitem.
    unfold walk_item in Hbody. simpl in Hbody. destruct entry as [|l| |e'].
    + case_bool_decide; [|done]. by destruct (is_test_file _).
    + destruct (_should_exclude_dir _ _) eqn:Hexcl; [done|].
      rewrite should_exclude_dir_last in Hexcl.
      eapply raises_below; [done..|]. by eapply IH.
    + done.
    + injection Hbody as ->. by eapply raises_stat.
Qed.

Lemma walk_raises_complete (excludes : gset string)
    (listing : exception + list (string * entry)) (e : exception) :
  raises excludes listing e →
  ∀ (fuel : nat) (directory : list string),
    depth (Directory listing) ≤ fuel →
    ∃ e', _walk fuel excludes directory listing = inl e'.
Proof.
  induction 1 as [e Hne|entries name e Hitem|entries dir l e Hitem Hexcl _ IH];
    intros [|fuel] directory Hfuel;
    try (pose proof (depth_of_directory (inr entries)); lia).
  - simpl in Hfuel. lia.
  - simpl. destruct e; try by eexists. by destruct (Hne message).
  - rewrite walk_unfold.
    apply (for_entries_raises _ _ (name, Inaccessible e) e); [|done].
    by apply sorted_entries_elem.
  - rewrite walk_unfold.
    destruct (IH fuel (directory ++ [dir])) as [e' He'].
    { pose proof (depth_of_entry entries l dir Hitem). lia. }
    apply (for_entries_raises _ _ (dir, Directory l) e').
    + by apply sorted_entries_elem.
    + unfold walk_item. simpl. by rewrite should_exclude_dir_last, Hexcl.
Qed.

(** X22. Discovery in a directory raises exactly when the walk meets
    something that raises: a listing that fails with an error other than
    [PermissionError], or an entry, in the root or in a directory below
    it that is not excluded, on which [is_dir] raises; the exception is
    that of such a place.  When discovery returns, it returns exactly
    the paths of the regular files below the root that have the suffix
    [.py], are no test files by their name, and are reached through
    directories that can be listed, none of which is hidden, excluded by
    default or excluded by the caller.  The root itself is walked
    whatever its name. *)
Theorem discovered_files_are_located (root : list string)
    (listing : exception + list (string * entry))
    (exclude_patterns : option (gset string)) :
  let excludes := DEFAULT_EXCLUDES ∪ default ∅ exclude_patterns in
  let result :=
    discover_python_files root (Some (Directory listing)) exclude_patterns in
  (∀ e, result = inl e → raises excludes listing e)
  ∧ ((∃ e, raises excludes listing e) → ∃ e, result = inl e)
  ∧ (∀ python_files, result = inr python_files →
       ∀ path,
         path ∈ python_files
         ↔ ∃ dirs name,
             path = root ++ dirs ++ [name]
             ∧ located listing dirs name
             ∧ Forall (λ dir, String.prefix "." dir = false
                              ∧ (dir ∉ DEFAULT_EXCLUDES)
                              ∧ (dir ∉ default ∅ exclude_patterns)) dirs
             ∧ Path.suffix [name] = ".py"
             ∧ is_test_file [name] = false).
Proof.
  intros excludes result. unfold result, discover_python_files.
  fold excludes. split; [|split].
  - intros e. apply walk_raises_sound.
  - intros [e He]. by eapply walk_raises_complete.
  - intros python_files Hfiles path.
    rewrite (walk_elem _ _ _ _ _ path (Nat.le_refl _) Hfiles).
    unfold walked. f_equiv. intros dirs. f_equiv. intros name.
    do 2 f_equiv. apply and_iff_compat_r. apply Forall_iff. intros dir.
    unfold excludes. rewrite should_exclude_dir_false, not_elem_of_union.
    done.
Qed.

Lemma discovered_files_are_located_witness :
  (∃ e, raises (DEFAULT_EXCLUDES ∪ default ∅ None) unsearchable_shop e)
  ∧ ∃ e, discover_python_files ["shop"] (Some (Directory unsearchable_shop))
           None
         = inl e.
Proof.
  assert (∃ e, raises (DEFAULT_EXCLUDES ∪ default ∅ None) unsearchable_shop e)
    as Hraises.
  { eexists. eapply raises_below; [right; left|by vm_compute|].
    eapply raises_stat. left. }
  split; [exact Hraises|].
  exact (proj1 (proj2 (discovered_files_are_located ["shop"]
                         unsearchable_shop None)) Hraises).
Defined.

Lemma should_exclude_dir_mono (excludes excludes' : gset string)
    (dir_path : list string) :
  excludes ⊆ excludes' →
  _should_exclude_dir excludes dir_path = true →
  _should_exclude_dir excludes' dir_path = true.
Proof.
  intros Hsub. unfold _should_exclude_dir.
  destruct (String.prefix "." _); [done|].
  rewrite !bool_decide_eq_true. apply Hsub.
Qed.

Lemma walk_mono (fuel : nat) (excludes excludes' : gset string) :
  excludes ⊆ excludes' →
  ∀ (directory : list string) (listing : exception + list (string * entry))
    (python_files : list (list string)),
    _walk fuel excludes directory listing = inr python_files →
    ∃ python_files',
      _walk fuel excludes' directory listing = inr python_files'
      ∧ python_files' `sublist_of` python_files.
Proof.
  intros Hsub. induction fuel as [|fuel IH];
    intros directory listing python_files.
  { simpl. intros [= <-]. by exists []. }
  destruct listing as [e|entries].
  { simpl. intros Hfiles. exists python_files. split; [|done].
    by destruct e. }
  rewrite !walk_unfold. apply for_entries_mono.
  intros [name entry] r _. unfold walk_item. simpl.
  destruct entry as [|l| |e]; try (intros Hr; by exists r).
  destruct (_should_exclude_dir excludes _) eqn:Hexcl.
  - rewrite (should_exclude_dir_mono excludes excludes' _ Hsub Hexcl).
    intros Hr. by exists r.
  - destruct (_should_exclude_dir excludes' _); [|apply IH].
    intros _. exists []. split; [done|apply sublist_nil_l].
Qed.

(** X23. Excluding more directory names only removes files: when
    discovery succeeds, it succeeds with every larger set of excluded
    names, and returns a sublist of the files, in the same order. *)
Theorem more_excludes_find_less (root : list string) (at_root : option entry)
    (exclude_patterns exclude_patterns' : option (gset string))
    (python_files : list (list string)) :
  default ∅ exclude_patterns ⊆ default ∅ exclude_patterns' →
  discover_python_files root at_root exclude_patterns = inr python_files →
  ∃ python_files',
    discover_python_files root at_root exclude_patterns' = inr python_files'
    ∧ python_files' `sublist_of` python_files.
Proof.
  intros Hsub. unfold discover_python_files.
  destruct at_root as [[|listing| |e]|]; [| |done|done|done].
  - case_bool_decide; [|done]. intros [= <-]. by eexists.
  - apply (walk_mono (depth (Directory listing))
             (DEFAULT_EXCLUDES ∪ default ∅ exclude_patterns)
             (DEFAULT_EXCLUDES ∪ default ∅ exclude_patterns')).
    apply union_mono_l, Hsub.
Qed.

Lemma more_excludes_find_less_witness :
  default (∅ : gset string) None ⊆ default ∅ (Some {[ "vendor" ]})
  ∧ discover_python_files ["shop"] (Some shop_tree) None = inr shop_files
  ∧ ∃ python_files',
      discover_python_files ["shop"] (Some shop_tree) (Some {[ "vendor" ]})
      = inr python_files'
      ∧ python_files' `sublist_of` shop_files.
Proof.
  assert (default (∅ : gset string) None ⊆ default ∅ (Some {[ "vendor" ]}))
    as Hsub by apply empty_subseteq.
  assert (discover_python_files ["shop"] (Some shop_tree) None
          = inr shop_files) as Hfiles by (by vm_compute).
  split; [exact Hsub|]. split; [exact Hfiles|].
  exact (more_excludes_find_less ["shop"] (Some shop_tree) None
           (Some {[ "vendor" ]}) shop_files Hsub Hfiles).
Defined.

(** *** The order of the discovered files *)

Lemma ascii_compare_refl (a : ascii) : Ascii.compare a a = Eq.
Proof. unfold Ascii.compare. apply N.compare_refl. Qed.

Lemma ascii_compare_trans (a b c : ascii) :
  Ascii.compare a b = Lt → Ascii.compare b c = Lt → Ascii.compare a c = Lt.
Proof.
  unfold Ascii.compare. rewrite !N.compare_lt_iff. apply N.lt_trans.
Qed.

Lemma string_compare_refl (s : string) : String.compare s s = Eq.
Proof.
  induction s as [|c s IH]; simpl; [done|]. by rewrite ascii_compare_refl.
Qed.

Lemma string_compare_trans (a : string) :
  ∀ b c, String.compare a b = Lt → String.compare b c = Lt →
         String.compare a c = Lt.
Proof.
  induction a as [|x a IH]; intros [|y b] [|z c]; simpl; try done.
  destruct (Ascii.compare x y) eqn:Hxy; [|clear IH|done];
    (destruct (Ascii.compare y z) eqn:Hyz; [| |done]).
  - apply Ascii.compare_eq_iff in Hxy as ->.
    apply Ascii.compare_eq_iff in Hyz as ->.
    rewrite ascii_compare_refl. apply IH.
  - apply Ascii.compare_eq_iff in Hxy as ->. by rewrite Hyz.
  - apply Ascii.compare_eq_iff in Hyz as <-. by rewrite Hxy.
  - by rewrite (ascii_compare_trans x y z).
Qed.

Lemma string_leb_cases (a b : string) :
  String.leb a b = true ↔ a = b ∨ String.compare a b = Lt.
Proof.
  unfold String.leb. destruct (String.compare a b) eqn:Hab.
  - apply String.compare_eq_iff in Hab. split; [by left|done].
  - split; [by right|done].
  - split; [done|]. intros [->|?]; [|done].
    by rewrite string_compare_refl in Hab.
Qed.

Lemma path_le_trans : Transitive Path.le.
Proof.
  intros [a ?] [b ?] [c ?]. unfold Path.le. simpl. rewrite !string_leb_cases.
  intros [->|Hab] [->|Hbc]; auto. right. by eapply string_compare_trans.
Qed.

Lemma path_le_total : Total Path.le.
Proof. intros a b. apply String.leb_total. Qed.

Lemma sorted_entries_strict (listing : list (string * entry)) :
  NoDup listing.*1 →
  StronglySorted (λ a b, String.compare a.1 b.1 = Lt) (sorted_entries listing).
Proof.
  intros Hnodup.
  assert (NoDup (sorted_entries listing).*1) as Hnodup'.
  { unfold sorted_entries. by rewrite merge_sort_Permutation. }
  pose proof (@StronglySorted_merge_sort _ Path.le _ path_le_trans
                path_le_total listing) as Hsorted.
  fold (sorted_entries listing) in Hsorted.
  induction Hsorted as [|a l Hsorted IH Hall]; [constructor|].
  rewrite fmap_cons in Hnodup'. apply NoDup_cons in Hnodup' as [Hnotin Hnodup'].
  constructor; [by apply IH|].
  rewrite Forall_forall in Hall |- *. intros b Hb.
  destruct (proj1 (string_leb_cases _ _) (Hall b Hb)) as [Heq|Hlt]; [|done].
  destruct Hnotin. rewrite Heq. by apply list_elem_of_fmap_2.
Qed.

Lemma path_lt_app (directory p q : list string) :
  path_lt (directory ++ p) (directory ++ q) = path_lt p q.
Proof.
  induction directory as [|d directory IH]; simpl; [done|].
  by rewrite string_compare_refl.
Qed.

Lemma walk_prefix (fuel : nat) (excludes : gset string) :
  ∀ (directory : list string) (listing : exception + list (string * entry))
    (python_files : list (list string)) (path : list string),
    _walk fuel excludes directory listing = inr python_files →
    path ∈ python_files →
    ∃ name rest, path = directory ++ name :: rest.
Proof.
  induction fuel as [|fuel IH]; intros directory listing python_files path.
  { simpl. intros [= <-]. by intros ?%elem_of_nil. }
  destruct listing as [e|entries].
  { intros ->%walk_unlisted. by intros ?%elem_of_nil. }
  rewrite walk_unfold. intros [_ ->]%for_entries_inr.
  rewrite list_elem_of_In, in_flat_map. intros [[name e] [_ Hpath]].
  apply list_elem_of_In in Hpath.
  unfold walk_item in Hpath. simpl in Hpath. destruct e as [|l| |e].
  - case_bool_decide; [|by apply elem_of_nil in Hpath].
    destruct (is_test_file _); [by apply elem_of_nil in Hpath|].
    apply list_elem_of_singleton in Hpath as ->. by exists name, [].
  - destruct (_should_exclude_dir _ _); [by apply elem_of_nil in Hpath|].
    destruct (_walk fuel excludes (directory ++ [name]) l) as [e|found]
      eqn:Hwalk; [by apply elem_of_nil in Hpath|].
    destruct (IH _ _ _ path Hwalk Hpath) as (name' & rest & ->).
    exists name, (name' :: rest). by rewrite <- app_assoc.
  - by apply elem_of_nil in Hpath.
  - by apply elem_of_nil in Hpath.
Qed.

Lemma walk_item_prefix (fuel : nat) (excludes : gset string)
    (directory : list string) (item : string * entry) (path : list string) :
  path ∈ appended (walk_item fuel excludes directory item) →
  ∃ rest, path = directory ++ item.1 :: rest.
Proof.
  unfold walk_item. destruct item as [name [|l| |e]]; simpl.
  - case_bool_decide; [|by intros ?%elem_of_nil].
    destruct (is_test_file _); [by intros ?%elem_of_nil|].
    intros ->%list_elem_of_singleton. by exists [].
  - destruct (_should_exclude_dir _ _); [by intros ?%elem_of_nil|].
    destruct (_walk fuel excludes (directory ++ [name]) l) as [e|found]
      eqn:Hwalk; [by intros ?%elem_of_nil|].
    simpl. intros Hpath.
    destruct (walk_prefix _ _ _ _ _ path Hwalk Hpath) as (name' & rest & ->).
    exists (name' :: rest). by rewrite <- app_assoc.
  - by intros ?%elem_of_nil.
  - by intros ?%elem_of_nil.
Qed.

Lemma distinct_names_listing (entries : list (string * entry)) :
  distinct_names (Directory (inr entries)) = true →
  NoDup entries.*1
  ∧ ∀ name e, (name, e) ∈ entries → distinct_names e = true.
Proof.
  simpl. intros [Hnodup Hall]%andb_true_iff.
  apply bool_decide_eq_true in Hnodup. split; [done|].
  intros name e Hin. rewrite forallb_forall in Hall.
  by apply (Hall (name, e)), list_elem_of_In.
Qed.

Lemma flat_map_sorted {A B : Type} (R : relation A) (R' : relation B)
    (f : A → list B) (l : list A) :
  StronglySorted R l →
  (∀ x, x ∈ l → StronglySorted R' (f x)) →
  (∀ x y p q, R x y → p ∈ f x → q ∈ f y → R' p q) →
  StronglySorted R' (flat_map f l).
Proof.
  intros Hsorted Hchunk Hcross.
  induction Hsorted as [|x l Hsorted IH Hall]; simpl; [constructor|].
  apply StronglySorted_app_2.
  - intros p q Hp Hq. apply list_elem_of_In, in_flat_map in Hq as [y [Hy Hq]].
    apply list_elem_of_In in Hy. apply list_elem_of_In in Hq.
    rewrite Forall_forall in Hall.
    by apply (Hcross x y); [apply Hall|..].
  - apply Hchunk. left.
  - apply IH. intros y Hy. apply Hchunk. by right.
Qed.

Lemma walk_sorted (fuel : nat) (excludes : gset string) :
  ∀ (directory : list string) (listing : exception + list (string * entry))
    (python_files : list (list string)),
    distinct_names (Directory listing) = true →
    _walk fuel excludes directory listing = inr python_files →
    StronglySorted (λ p q, path_lt p q = true) python_files.
Proof.
  induction fuel as [|fuel IH];
    intros directory listing python_files Hdistinct.
  { simpl. intros [= <-]. constructor. }
  destruct listing as [e|entries].
  { intros ->%walk_unlisted. constructor. }
  apply distinct_names_listing in Hdistinct as [Hnodup Hsub].
  rewrite walk_unfold. intros [_ ->]%for_entries_inr.
  eapply flat_map_sorted; [by apply sorted_entries_strict| |].
  - intros [name e] Hitem. apply (proj1 (sorted_entries_elem _ _)) in Hitem.
    unfold walk_item. simpl. destruct e as [|l| |e].
    + case_bool_decide; [|constructor].
      destruct (is_test_file _); repeat constructor.
    + destruct (_should_exclude_dir _ _); [constructor|].
      destruct (_walk fuel excludes (directory ++ [name]) l) as [e|found]
        eqn:Hwalk; [constructor|].
      simpl. eapply IH; [|done]. by apply (Hsub name).
    + constructor.
    + constructor.
  - intros a b p q Hab (rest & ->)%walk_item_prefix
      (rest' & ->)%walk_item_prefix.
    rewrite path_lt_app. simpl. by rewrite Hab.
Qed.

(** X24. The discovered files come in the order of their paths,
    without repetition: each path is strictly below every later one in
    the order that compares paths component by component (no directory
    holding two entries of one name).  The order in which a directory
    lists its entries does not show. *)
Theorem discovered_files_are_sorted (root : list string) (at_root : entry)
    (exclude_patterns : option (gset string))
    (python_files : list (list string)) :
  distinct_names at_root = true →
  discover_python_files root (Some at_root) exclude_patterns
    = inr python_files →
  StronglySorted (λ p q, path_lt p q = true) python_files.
Proof.
  intros Hdistinct. unfold discover_python_files.
  destruct at_root as [|listing| |e]; [| |done|done].
  - case_bool_decide; [|done]. intros [= <-]. repeat constructor.
  - by apply (walk_sorted (depth (Directory listing))).
Qed.

Lemma discovered_files_are_sorted_witness :
  distinct_names shop_tree = true
  ∧ discover_python_files ["shop"] (Some shop_tree) None = inr shop_files
  ∧ StronglySorted (λ p q, path_lt p q = true) shop_files.
Proof.
  assert (distinct_names shop_tree = true) as Hdistinct by (by vm_compute).
  assert (discover_python_files ["shop"] (Some shop_tree) None
          = inr shop_files) as Hfiles by (by vm_compute).
  split; [exact Hdistinct|]. split; [exact Hfiles|].
  exact (discovered_files_are_sorted ["shop"] shop_tree None shop_files
           Hdistinct Hfiles).
Defined.
